(** * aduana: the frequency scheduler (lib/src/freq_scheduler.c)

    A shallow embedding of the recrawl scheduler.  The schedule is the
    LMDB table [schedule], an ordered table from [ScheduleKey] to a
    [float] frequency.  Scores and frequencies are IEEE-754 numbers: they
    are modelled with the executable binary formats of
    [Stdlib.Floats.SpecFloat], binary32 for C [float] and binary64 for C
    [double].  Calls into LMDB, the page database and libc are given by a
    [World] record that fixes their return codes.

    The file has three parts: the embedding of freq_scheduler.c, function
    by function; the notions and the example schedulers the statements use;
    the lemmas and the theorems, one section per property.  The last
    sections cover the rest of the interface: what a failing call leaves,
    what the loads write, what a request hands out, and how the operations
    compose. *)

From Stdlib Require Import ZArith NArith List Bool String Lia Sorted.
From Stdlib Require Import Floats.SpecFloat.
Import ListNotations.

Local Open Scope Z_scope.

(** ** C floating point *)

(** C [double]: binary64. *)
Module F64.
Definition prec := 53.
Definition emax := 1024.
Definition t := spec_float.

Definition zero : t := S754_zero false.
Definition one : t := SFone prec emax.
Definition of_Z (z : Z) : t := binary_normalize prec emax z 0 false.
Definition add : t -> t -> t := SFadd prec emax.
Definition sub : t -> t -> t := SFsub prec emax.
Definition mul : t -> t -> t := SFmul prec emax.
Definition div : t -> t -> t := SFdiv prec emax.
Definition ltb : t -> t -> bool := SFltb.
Definition leb : t -> t -> bool := SFleb.
Definition is_nan (x : t) : bool :=
  match x with S754_nan => true | _ => false end.
End F64.

(** C [float]: binary32. *)
Module F32.
Definition prec := 24.
Definition emax := 128.
Definition t := spec_float.

Definition zero : t := S754_zero false.
Definition of_Z (z : Z) : t := binary_normalize prec emax z 0 false.
Definition mul : t -> t -> t := SFmul prec emax.
Definition ltb : t -> t -> bool := SFltb.
Definition leb : t -> t -> bool := SFleb.
Definition is_nan (x : t) : bool :=
  match x with S754_nan => true | _ => false end.

(** The usual arithmetic conversion of a [float] operand to [double]:
    the value is kept, the mantissa is renormalised to 53 bits. *)
Definition to_double (x : t) : F64.t :=
  match x with
  | S754_finite s m e =>
      binary_normalize F64.prec F64.emax (cond_Zopp s (Zpos m)) e s
  | _ => x
  end.
End F32.

Definition float : Type := F32.t.
Definition double : Type := F64.t.

(** ** Data model *)

(** Modelled from the spec: [ScheduleKey] is declared in scheduler.h, which
    is not part of the sources at hand.  The spec gives it as
    (score: f64, hash: u64). *)
Record ScheduleKey := { score : double; hash : N }.

(** A row of the [schedule] table: the key and the [float] stored under it. *)
Definition entry : Type := ScheduleKey * float.
Definition table := list entry.

Definition entry_hash (e : entry) : N := hash (fst e).
Definition hashes (t : table) : list N := map entry_hash t.

(** Modelled from the spec: [schedule_entry_mdb_cmp_asc] is defined in
    scheduler.c, which is not part of the sources at hand.  The spec orders
    keys lexicographically by (score ascending, hash ascending); two scores
    neither of which is below the other fall through to the hashes. *)
Definition schedule_entry_mdb_cmp_asc (a b : ScheduleKey) : comparison :=
  if F64.ltb (score a) (score b) then Lt
  else if F64.ltb (score b) (score a) then Gt
  else N.compare (hash a) (hash b).

(** *** The LMDB cursor operations used by the scheduler

    The table is kept as the list of its rows in cursor order. *)

Definition MDB_NOTFOUND : Z := -30798.

(** [mdb_cursor_get] with [MDB_FIRST]. *)
Definition mdb_first (t : table) : option entry := hd_error t.

(** [mdb_cursor_del] of the row under the cursor, after [MDB_FIRST]. *)
Definition mdb_del_first (t : table) : table := tl t.

(** [mdb_cursor_put] with flags 0: the row is entered at its place in key
    order; when the table holds a key that compares equal, the data stored
    under that key is replaced. *)
Fixpoint mdb_put (k : ScheduleKey) (v : float) (t : table) : table :=
  match t with
  | [] => [(k, v)]
  | (k', v') :: t' =>
      match schedule_entry_mdb_cmp_asc k k' with
      | Lt => (k, v) :: t
      | Eq => (k', v) :: t'
      | Gt => (k', v') :: mdb_put k v t'
      end
  end.

(** ** Error record *)

(** Modelled from the spec: [FreqSchedulerError] is declared in
    freq_scheduler.h, which is not part of the sources at hand.  The
    constants are the ones the source names; [freq_scheduler_error_ok] is the
    zero code every call site tests against. *)
Inductive FreqSchedulerError :=
| freq_scheduler_error_ok
| freq_scheduler_error_memory
| freq_scheduler_error_invalid_path
| freq_scheduler_error_internal.

Definition is_ok (c : FreqSchedulerError) : bool :=
  match c with freq_scheduler_error_ok => true | _ => false end.

(** Modelled from the spec: [Error], [error_set] and [error_add] come from
    util.h, which is not part of the sources at hand.  The spec describes a
    last-error record with a code and a chained message: [error_set] stores
    the code and starts the chain, [error_add] appends to it and skips a null
    message. *)
Record Error := { code : FreqSchedulerError; message : list string }.

Definition error_new : Error :=
  {| code := freq_scheduler_error_ok; message := [] |}.

Definition error_set (e : Error) (c : FreqSchedulerError) (m : string) : Error :=
  {| code := c; message := [m] |}.

Definition error_add (e : Error) (m : option string) : Error :=
  match m with
  | Some s => {| code := code e; message := message e ++ [s] |}
  | None => e
  end.

(** ** Page database (external collaborator) *)

(** Modelled from the spec: [PageInfo] is declared in page_db.h, which is not
    part of the sources at hand.  The spec lists what the scheduler reads:
    url, last_crawl, n_crawls, is_seed and rate(). *)
Record PageInfo := {
  url : string;
  last_crawl : double;
  n_crawls : N;
  page_info_is_seed : bool;
  page_info_rate : float
}.

Record PageDB := { db_path : string; pages : list (N * PageInfo) }.

Fixpoint lookup (h : N) (l : list (N * PageInfo)) : option PageInfo :=
  match l with
  | [] => None
  | (h', pi) :: l' => if N.eqb h h' then Some pi else lookup h l'
  end.

(** Modelled from the spec: [CrawledPage] is declared in page_db.h, which is
    not part of the sources at hand; the scheduler only forwards it to the
    page database. *)
Record CrawledPage := { cp_url : string; cp_time : double }.

(** Modelled from the spec: [PageFreq] and [MMapArray] are declared in
    headers that are not part of the sources at hand.  The spec gives the
    array as a sequence of (hash, freq) elements. *)

Record PageFreq := { pf_hash : N; pf_freq : float }.
Record MMapArray := { element_size : N; elements : list PageFreq }.
Definition n_elements (a : MMapArray) : N := N.of_nat (List.length (elements a)).

(** ** The world outside the scheduler

    Return codes of the calls the scheduler makes into the transaction
    manager, LMDB, the page database and libc.  A code of 0 is success.
    Calls made inside a loop are indexed by the iteration that makes them.
    [path_ok] tells whether the call that builds the path of the scheduler
    ([strdup] of the path given, [concat] when none is given) returns a
    string; [make_dir_error] is the message [make_dir] returns. *)
Record World := {
  malloc_ok : bool;
  error_new_ok : bool;
  path_ok : bool;
  make_dir_error : option string;
  txn_manager_new_rc : Z;
  txn_manager_null : bool;
  env_create_rc : Z;
  env_set_mapsize_rc : Z;
  env_set_maxdbs_rc : Z;
  env_open_rc : Z;
  txn_begin_rc : Z;
  txn_commit_rc : Z;
  txn_expand_rc : N -> Z;
  txn_manager_message : string;
  dbi_open_rc : Z;
  set_compare_rc : Z;
  cursor_open_rc : Z;
  cursor_get_rc : nat -> Z;
  cursor_del_rc : nat -> Z;
  cursor_put_rc : nat -> Z;
  mdb_strerror : Z -> string;
  get_info_rc : nat -> Z;
  page_db_add : PageDB -> CrawledPage -> Z * PageDB;
  page_db_message : string;
  stream_new_rc : Z;
  stream_new_null : bool;
  stream_error_at : option nat;
  request_new_ok : bool;
  add_url_rc : nat -> Z;
  clock : nat -> Z
}.

(** ** The scheduler object *)

(** Modelled from the spec: [FreqScheduler] is declared in freq_scheduler.h,
    which is not part of the sources at hand.  The fields are the ones the
    source reads and writes; [path] is a [char *], [None] being the null
    pointer; [schedule] is the committed content of the LMDB environment at
    [path]. *)
Record FreqScheduler := {
  page_db : PageDB;
  path : option string;
  error : Error;
  persist : bool;
  margin : float;
  max_n_crawls : N;
  schedule : table
}.

Definition with_error (sch : FreqScheduler) (e : Error) : FreqScheduler :=
  {| page_db := page_db sch; path := path sch; error := e;
     persist := persist sch; margin := margin sch;
     max_n_crawls := max_n_crawls sch; schedule := schedule sch |}.

Definition with_schedule (sch : FreqScheduler) (t : table) : FreqScheduler :=
  {| page_db := page_db sch; path := path sch; error := error sch;
     persist := persist sch; margin := margin sch;
     max_n_crawls := max_n_crawls sch; schedule := t |}.

Definition with_page_db (sch : FreqScheduler) (db : PageDB) : FreqScheduler :=
  {| page_db := db; path := path sch; error := error sch;
     persist := persist sch; margin := margin sch;
     max_n_crawls := max_n_crawls sch; schedule := schedule sch |}.

Definition freq_scheduler_set_error (sch : FreqScheduler)
    (c : FreqSchedulerError) (m : string) : FreqScheduler :=
  with_error sch (error_set (error sch) c m).

Definition freq_scheduler_add_error (sch : FreqScheduler)
    (m : option string) : FreqScheduler :=
  with_error sch (error_add (error sch) m).

(** The tail shared by every [on_error:] label: the code becomes
    [freq_scheduler_error_internal] and the two messages are chained.
    [freq_scheduler_cursor_abort], called first, drops the view of the table
    the cursor worked on; the committed [schedule] is not touched. *)
Definition on_error (sch : FreqScheduler) (func : string)
    (error1 error2 : option string) : FreqScheduler :=
  freq_scheduler_add_error
    (freq_scheduler_add_error
       (freq_scheduler_set_error sch freq_scheduler_error_internal func)
       error1)
    error2.

(** What a call leaves behind.  [NullCursor]: a null cursor reached LMDB,
    the behaviour of the C program is undefined from there.  [OutOfFuel]: the
    loop bound of the model was too small (shown below never to happen). *)
Inductive outcome (A : Type) :=
| Returns (a : A)
| NullCursor
| OutOfFuel.
Arguments Returns {A} a.
Arguments NullCursor {A}.
Arguments OutOfFuel {A}.

(** ** freq_scheduler_new *)

(** Modelled from the spec: FREQ_SCHEDULER_DEFAULT_PERSIST is defined in
    freq_scheduler.h; the spec gives the default of [persist] as true. *)
Definition FREQ_SCHEDULER_DEFAULT_PERSIST : bool := true.

Definition minus_one : float := F32.of_Z (-1).

(** What [*sch] holds when [freq_scheduler_new] returns: the null pointer
    when [malloc] returns 0; a pointer to the block the function has freed
    when [error_new] fails ([*sch] is assigned the result of [malloc] and is
    not reset after [free (p)]); a pointer to the scheduler otherwise. *)
Inductive handle :=
| handle_null
| handle_freed
| handle_to (sch : FreqScheduler).

(** [disk] is the content of the [schedule] table found at the path. *)
Definition freq_scheduler_new (w : World) (db : PageDB) (p : option string)
    (disk : table) : FreqSchedulerError * handle :=
  if negb (malloc_ok w) then (freq_scheduler_error_memory, handle_null)
  else if negb (error_new_ok w) then (freq_scheduler_error_memory, handle_freed)
  else
    let sch := {| page_db := db;
                  path := if path_ok w
                          then Some (match p with
                                     | Some s => s
                                     | None => (db_path db ++ "_freqs")%string
                                     end)
                          else None;
                  error := error_new;
                  persist := FREQ_SCHEDULER_DEFAULT_PERSIST;
                  margin := minus_one;
                  max_n_crawls := 0%N;
                  schedule := disk |} in
    let func := "freq_scheduler_new"%string in
    match (if path_ok w then make_dir_error w
           else Some "building scheduler path"%string) with
    | Some e =>
        let sch := freq_scheduler_add_error
          (freq_scheduler_set_error sch freq_scheduler_error_invalid_path func)
          (Some e) in
        (code (error sch), handle_to sch)
    | None =>
        if negb (txn_manager_new_rc w =? 0) then
          let sch := freq_scheduler_add_error
            (freq_scheduler_set_error sch freq_scheduler_error_internal func)
            (Some (if txn_manager_null w then "NULL"%string
                   else txn_manager_message w)) in
          (code (error sch), handle_to sch)
        else
          let fail (rc : Z) (e : string) :=
            let sch := freq_scheduler_add_error
              (freq_scheduler_add_error
                 (freq_scheduler_set_error sch freq_scheduler_error_internal func)
                 (Some e))
              (Some (mdb_strerror w rc)) in
            (code (error sch), handle_to sch) in
          if negb (env_create_rc w =? 0) then fail 1 "creating environment"%string
          else if negb (env_set_mapsize_rc w =? 0)
          then fail (env_set_mapsize_rc w) "setting map size"%string
          else if negb (env_set_maxdbs_rc w =? 0)
          then fail (env_set_maxdbs_rc w) "setting number of databases"%string
          else if negb (env_open_rc w =? 0) then fail 1 "opening environment"%string
          else (code (error sch), handle_to sch)
    end.

(** ** Cursors *)

(** [freq_scheduler_cursor_open].  [cursor] is the value the caller's
    variable holds on entry; [None] is the null pointer.  A cursor carries
    the view of the table its transaction works on. *)
Definition freq_scheduler_cursor_open (w : World) (sch : FreqScheduler)
    (cursor : option table)
    : FreqSchedulerError * FreqScheduler * option table :=
  if negb (txn_begin_rc w =? 0) then
    let sch' := on_error sch "freq_scheduler_cursor_open"
                  (Some "starting transaction"%string)
                  (Some (txn_manager_message w)) in
    (code (error sch'), sch', cursor)
  else
    let mdb_rc :=
      if negb (dbi_open_rc w =? 0) then 1
      else if negb (set_compare_rc w =? 0) then 1
      else if negb (cursor_open_rc w =? 0) then 1
      else 0 in
    if negb (mdb_rc =? 0) then (code (error sch), sch, None)
    else (code (error sch), sch, Some (schedule sch)).

(** [freq_scheduler_cursor_commit], on a cursor that is not null. *)
Definition freq_scheduler_cursor_commit (w : World) (sch : FreqScheduler)
    (cursor : table) : FreqSchedulerError * FreqScheduler :=
  if negb (txn_commit_rc w =? 0) then
    let sch' := on_error sch "freq_scheduler_cursor_commit"
                  (Some "commiting schedule transaction"%string)
                  (Some (txn_manager_message w)) in
    (code (error sch'), sch')
  else
    let sch' := with_schedule sch cursor in
    (code (error sch'), sch').

(** [freq_scheduler_cursor_write]: [i] numbers the call. *)
Definition freq_scheduler_cursor_write (w : World) (sch : FreqScheduler)
    (cursor : option table) (i : nat) (h : N) (freq : float)
    : outcome (FreqSchedulerError * FreqScheduler * option table) :=
  if F32.leb freq F32.zero then Returns (freq_scheduler_error_ok, sch, cursor)
  else
    match cursor with
    | None => NullCursor
    | Some t =>
        let sk := {| score := F64.zero; hash := h |} in
        let mdb_rc := cursor_put_rc w i in
        if negb (mdb_rc =? 0) then
          let sch' := on_error sch "freq_scheduler_cursor_write"
                        (Some "adding page to schedule"%string)
                        (Some (mdb_strerror w mdb_rc)) in
          Returns (code (error sch'), sch', cursor)
        else Returns (code (error sch), sch, Some (mdb_put sk freq t))
    end.

(** ** freq_scheduler_load_simple *)

(** The frequency [freq_scheduler_load_simple] gives a page. *)
Definition page_freq (freq_default freq_scale : float) (pi : PageInfo) : float :=
  if F32.ltb F32.zero freq_scale then
    let rate := page_info_rate pi in
    if F32.ltb F32.zero rate then F32.mul freq_scale rate else freq_default
  else freq_default.

(** The test guarding the body of the stream loop. *)
Definition schedulable (sch : FreqScheduler) (pi : PageInfo) : bool :=
  (0 <? n_crawls pi)%N
  && ((max_n_crawls sch =? 0)%N || (n_crawls pi <? max_n_crawls sch)%N)
  && negb (page_info_is_seed pi).

(** The items [hashinfo_stream_next] hands out with [stream_state_next]:
    the pages of the page database, all of them when the stream ends with
    [stream_state_end], the first [n] when it breaks off after [n] items. *)
Definition stream_items (w : World) (db : PageDB) : list (N * PageInfo) :=
  match stream_error_at w with
  | Some n => firstn n (pages db)
  | None => pages db
  end.

(** The [while] loop over the items of the stream; the boolean returned
    tells whether the loop ran through all of them ([true]) or left through
    [goto on_error]. *)
Fixpoint load_simple_loop (w : World) (sch : FreqScheduler)
    (freq_default freq_scale : float) (i : nat) (st : list (N * PageInfo))
    (cursor : option table)
    : outcome (bool * FreqScheduler * option table) :=
  match st with
  | [] => Returns (true, sch, cursor)
  | (h, pi) :: st' =>
      if schedulable sch pi then
        match freq_scheduler_cursor_write w sch cursor i h
                (page_freq freq_default freq_scale pi) with
        | Returns (rc, sch', cursor') =>
            if negb (is_ok rc) then Returns (false, sch', cursor')
            else load_simple_loop w sch' freq_default freq_scale (S i) st' cursor'
        | NullCursor => NullCursor
        | OutOfFuel => OutOfFuel
        end
      else load_simple_loop w sch freq_default freq_scale (S i) st' cursor
  end.

Definition freq_scheduler_load_simple (w : World) (sch : FreqScheduler)
    (freq_default freq_scale : float)
    : outcome (FreqSchedulerError * FreqScheduler) :=
  let fail (sch : FreqScheduler) (error1 error2 : option string) :=
    let sch' := on_error sch "freq_scheduler_load_simple" error1 error2 in
    Returns (code (error sch'), sch') in
  if negb (stream_new_rc w =? 0) then
    fail sch (Some "creating stream"%string)
         (Some (if stream_new_null w then "NULL"%string else page_db_message w))
  else
    let '(rc, sch1, cursor) := freq_scheduler_cursor_open w sch None in
    if negb (is_ok rc) then fail sch1 None None
    else
      match load_simple_loop w sch1 freq_default freq_scale 0
              (stream_items w (page_db sch1)) cursor with
      | Returns (false, sch2, _) => fail sch2 None None
      | Returns (true, sch2, cursor2) =>
          match stream_error_at w with
          | Some _ => fail sch2 (Some "incorrect stream state"%string) None
          | None =>
              match cursor2 with
              | None => NullCursor
              | Some t =>
                  let '(rc, sch3) := freq_scheduler_cursor_commit w sch2 t in
                  if negb (is_ok rc) then fail sch3 None None
                  else Returns (code (error sch3), sch3)
              end
          end
      | NullCursor => NullCursor
      | OutOfFuel => OutOfFuel
      end.

(** ** freq_scheduler_load_mmap *)

(** The [for] loop over the array: the return code of the first failing
    [mdb_cursor_put] (0 when none fails) and the table reached. *)
Fixpoint load_mmap_loop (w : World) (i : nat) (fs : list PageFreq) (t : table)
    : Z * table :=
  match fs with
  | [] => (0, t)
  | f :: fs' =>
      let sk := {| score := F64.div F64.one (F32.to_double (pf_freq f));
                   hash := pf_hash f |} in
      let mdb_rc := cursor_put_rc w i in
      if negb (mdb_rc =? 0) then (mdb_rc, t)
      else load_mmap_loop w (S i) fs' (mdb_put sk (pf_freq f) t)
  end.

Definition freq_scheduler_load_mmap (w : World) (sch : FreqScheduler)
    (freqs : MMapArray) : outcome (FreqSchedulerError * FreqScheduler) :=
  let fail (sch : FreqScheduler) (error1 error2 : option string) :=
    let sch' := on_error sch "freq_scheduler_load_mmap" error1 error2 in
    Returns (code (error sch'), sch') in
  let size := ((2 * n_elements freqs * element_size freqs) mod 2 ^ 64)%N in
  if negb (txn_expand_rc w size =? 0) then
    fail sch (Some "resizing database"%string) (Some (txn_manager_message w))
  else
    let '(rc, sch1, cursor) := freq_scheduler_cursor_open w sch None in
    if negb (is_ok rc) then fail sch1 None None
    else
      match cursor with
      | None => NullCursor
      | Some t =>
          let '(mdb_rc, t') := load_mmap_loop w 0 (elements freqs) t in
          if negb (mdb_rc =? 0) then
            fail sch1 (Some "adding page to schedule"%string)
                 (Some (mdb_strerror w mdb_rc))
          else
            let '(rc, sch2) := freq_scheduler_cursor_commit w sch1 t' in
            if negb (is_ok rc) then fail sch2 None None
            else Returns (code (error sch2), sch2)
      end.

(** ** freq_scheduler_request *)

(** What one turn of the request loop did to the head of the schedule; the
    log is kept beside the C state to name hashes in the statements below. *)
Inductive event :=
| Emitted (i : nat) (k : ScheduleKey) (freq : float) (u : string)
| Retired (i : nat) (k : ScheduleKey) (freq : float)
| Throttled (i : nat) (k : ScheduleKey) (freq : float).

(** The variables of the loop: the table seen through the cursor, the URLs
    of [req] and the log. *)
Record loop_state := { cur : table; urls : list string; log : list event }.

Inductive step_result :=
| Next (st : loop_state)
| Interrupt (st : loop_state)
| OnError (error1 error2 : option string) (st : loop_state).

(** [difftime(time(0), 0) - pi->last_crawl] in turn [i]. *)
Definition elapsed (w : World) (i : nat) (pi : PageInfo) : double :=
  F64.sub (F64.of_Z (clock w i)) (last_crawl pi).

(** [1.0/(freq*(1.0 + sch->margin))]. *)
Definition min_interval (sch : FreqScheduler) (freq : float) : double :=
  F64.div F64.one
    (F64.mul (F32.to_double freq)
             (F64.add F64.one (F32.to_double (margin sch)))).

(** The value [interrupt_requests] gets from the throttle check. *)
Definition throttled (w : World) (sch : FreqScheduler) (i : nat)
    (freq : float) (pi : option PageInfo) : bool :=
  match pi with
  | Some p =>
      if F32.leb F32.zero (margin sch)
      then F64.ltb (elapsed w i p) (min_interval sch freq)
      else false
  | None => false
  end.

(** The value [crawl] has after the page lookup. *)
Definition crawl (sch : FreqScheduler) (pi : option PageInfo) : bool :=
  match pi with
  | Some p => (max_n_crawls sch =? 0)%N || (n_crawls p <? max_n_crawls sch)%N
  | None => false
  end.

(** [sk.score += 1.0/freq]. *)
Definition advance (sk : ScheduleKey) (freq : float) : ScheduleKey :=
  {| score := F64.add (score sk) (F64.div F64.one (F32.to_double freq));
     hash := hash sk |}.

(** The body of the [while] loop, turn [i]. *)
Definition request_step (w : World) (sch : FreqScheduler) (i : nat)
    (st : loop_state) : step_result :=
  let mdb_rc :=
    if cursor_get_rc w i =? 0
    then match mdb_first (cur st) with Some _ => 0 | None => MDB_NOTFOUND end
    else cursor_get_rc w i in
  if mdb_rc =? 0 then
    match mdb_first (cur st) with
    | None => Interrupt st
    | Some (sk, freq) =>
        if negb (get_info_rc w i =? 0) then
          OnError (Some "retrieving PageInfo from PageDB"%string)
                  (Some (page_db_message w)) st
        else
          let pi := lookup (hash sk) (pages (page_db sch)) in
          if throttled w sch i freq pi then
            Interrupt {| cur := cur st; urls := urls st;
                         log := log st ++ [Throttled i sk freq] |}
          else if negb (cursor_del_rc w i =? 0) then
            OnError (Some "deleting head of schedule"%string)
                    (Some (mdb_strerror w (cursor_del_rc w i))) st
          else
            let t1 := mdb_del_first (cur st) in
            match (if crawl sch pi then pi else None) with
            | Some p =>
                if negb (add_url_rc w i =? 0) then
                  OnError (Some "adding url to request"%string) None
                          {| cur := t1; urls := urls st; log := log st |}
                else
                  let st1 := {| cur := t1; urls := urls st ++ [url p];
                                log := log st ++ [Emitted i sk freq (url p)] |} in
                  if negb (cursor_put_rc w i =? 0) then
                    OnError (Some "moving element inside schedule"%string)
                            (Some (mdb_strerror w (cursor_put_rc w i))) st1
                  else
                    Next {| cur := mdb_put (advance sk freq) freq t1;
                            urls := urls st1; log := log st1 |}
            | None =>
                Next {| cur := t1; urls := urls st;
                        log := log st ++ [Retired i sk freq] |}
            end
    end
  else if mdb_rc =? MDB_NOTFOUND then Interrupt st
  else OnError (Some "getting head of schedule"%string)
               (Some (mdb_strerror w mdb_rc)) st.

Inductive loop_result :=
| LoopExit (st : loop_state)
| LoopError (error1 error2 : option string) (st : loop_state)
| LoopFuel.

(** The [while] loop, from turn [i] on. *)
Fixpoint request_loop (fuel : nat) (w : World) (sch : FreqScheduler)
    (max_requests : N) (i : nat) (st : loop_state) : loop_result :=
  if (N.of_nat (List.length (urls st)) <? max_requests)%N then
    match fuel with
    | O => LoopFuel
    | S fuel' =>
        match request_step w sch i st with
        | Next st' => request_loop fuel' w sch max_requests (S i) st'
        | Interrupt st' => LoopExit st'
        | OnError e1 e2 st' => LoopError e1 e2 st'
        end
    end
  else LoopExit st.

(** What [freq_scheduler_request] hands back: the status code, the scheduler
    and [*request] ([None]: the pointer was not set to a request). *)
Record reply := {
  r_code : FreqSchedulerError;
  r_sch : FreqScheduler;
  r_request : option (list string);
  r_log : list event
}.

(** Turns the loop can take: every turn that goes on either adds a URL or
    takes a row out of the table. *)
Definition request_fuel (sch : FreqScheduler) (max_requests : N) : nat :=
  S (N.to_nat max_requests + List.length (schedule sch)).

Definition freq_scheduler_request (w : World) (sch : FreqScheduler)
    (max_requests : N) : outcome reply :=
  let fail (sch : FreqScheduler) (error1 error2 : option string)
           (request : option (list string)) (l : list event) :=
    let sch' := on_error sch "freq_scheduler_request" error1 error2 in
    Returns {| r_code := code (error sch'); r_sch := sch';
               r_request := request; r_log := l |} in
  let '(rc, sch1, cursor) := freq_scheduler_cursor_open w sch None in
  if negb (is_ok rc) then fail sch1 None None None []
  else if negb (request_new_ok w) then
    fail sch1 (Some "allocating memory"%string) None None []
  else
    match cursor with
    | None => NullCursor
    | Some t =>
        match request_loop (request_fuel sch max_requests) w sch1 max_requests 0
                {| cur := t; urls := []; log := [] |} with
        | LoopExit st =>
            let '(rc, sch2) := freq_scheduler_cursor_commit w sch1 (cur st) in
            if negb (is_ok rc) then fail sch2 None None (Some (urls st)) (log st)
            else Returns {| r_code := code (error sch2); r_sch := sch2;
                            r_request := Some (urls st); r_log := log st |}
        | LoopError e1 e2 st => fail sch1 e1 e2 (Some (urls st)) (log st)
        | LoopFuel => OutOfFuel
        end
    end.

(** ** freq_scheduler_add *)

Definition freq_scheduler_add (w : World) (sch : FreqScheduler)
    (page : CrawledPage) : FreqSchedulerError * FreqScheduler :=
  let '(rc, db) := page_db_add w (page_db sch) page in
  let sch1 := with_page_db sch db in
  let sch2 :=
    if negb (rc =? 0) then
      on_error sch1 "freq_scheduler_add" (Some "adding crawled page"%string)
               (Some (page_db_message w))
    else sch1 in
  (code (error sch2), sch2).

(** ** freq_scheduler_dump *)

(** The [do ... while] loop; a row of the output stands for one line
    printed by [fprintf]. *)
Fixpoint dump_loop (w : World) (sch : FreqScheduler) (i : nat) (t : table)
    (output : list entry) : FreqScheduler * list entry :=
  let stop (mdb_rc : Z) :=
    if mdb_rc =? MDB_NOTFOUND then (sch, output)
    else (on_error sch "freq_scheduler_dump"
            (Some "iterating over database"%string)
            (Some (mdb_strerror w mdb_rc)), output) in
  if cursor_get_rc w i =? 0 then
    match t with
    | [] => stop MDB_NOTFOUND
    | e :: t' => dump_loop w sch (S i) t' (output ++ [e])
    end
  else stop (cursor_get_rc w i).

Definition freq_scheduler_dump (w : World) (sch : FreqScheduler)
    : outcome (FreqSchedulerError * FreqScheduler * list entry) :=
  let '(rc, sch1, cursor) := freq_scheduler_cursor_open w sch None in
  if negb (is_ok rc) then Returns (code (error sch1), sch1, [])
  else
    match cursor with
    | None => NullCursor
    | Some t =>
        let '(sch2, output) := dump_loop w sch1 0 t [] in
        Returns (code (error sch2), sch2, output)
    end.

(** ** freq_scheduler_delete *)



(** ** Worlds

    [world begin_rc open_rc add now]: [txn_manager_begin] returns [begin_rc],
    [mdb_cursor_open] returns [open_rc], [page_db_add] behaves as [add], the
    clock reads [now]; every other call succeeds. *)
Definition world (begin_rc open_rc : Z)
    (add : PageDB -> CrawledPage -> Z * PageDB) (now : Z) : World :=
  {| malloc_ok := true; error_new_ok := true; path_ok := true;
     make_dir_error := None;
     txn_manager_new_rc := 0; txn_manager_null := false;
     env_create_rc := 0; env_set_mapsize_rc := 0;
     env_set_maxdbs_rc := 0; env_open_rc := 0;
     txn_begin_rc := begin_rc; txn_commit_rc := 0; txn_expand_rc := fun _ => 0;
     txn_manager_message := "txn"%string;
     dbi_open_rc := 0; set_compare_rc := 0; cursor_open_rc := open_rc;
     cursor_get_rc := fun _ => 0; cursor_del_rc := fun _ => 0;
     cursor_put_rc := fun _ => 0; mdb_strerror := fun _ => "mdb"%string;
     get_info_rc := fun _ => 0;
     page_db_add := add;
     page_db_message := "page_db"%string;
     stream_new_rc := 0; stream_new_null := false; stream_error_at := None;
     request_new_ok := true; add_url_rc := fun _ => 0;
     clock := fun _ => now |}.

(** A world in which every external call succeeds. *)
Definition calm (now : Z) : World := world 0 0 (fun db _ => (0, db)) now.

(** ** Notions used in the statements *)

(** The calls of turn [i] of the request loop succeed. *)
Definition turn_ok (w : World) (i : nat) : Prop :=
  cursor_get_rc w i = 0 /\ get_info_rc w i = 0 /\ cursor_del_rc w i = 0
  /\ add_url_rc w i = 0 /\ cursor_put_rc w i = 0.

(** No external call fails. *)
Record works (w : World) : Prop := {
  works_begin : txn_begin_rc w = 0;
  works_dbi_open : dbi_open_rc w = 0;
  works_set_compare : set_compare_rc w = 0;
  works_cursor_open : cursor_open_rc w = 0;
  works_commit : txn_commit_rc w = 0;
  works_expand : forall n, txn_expand_rc w n = 0;
  works_request_new : request_new_ok w = true;
  works_turn : forall i, turn_ok w i;
  works_stream_new : stream_new_rc w = 0;
  works_stream_ends : stream_error_at w = None;
  works_page_db_add : forall db page, fst (page_db_add w db page) = 0
}.

(** The request and the table an outcome carries, if any. *)
Definition requested (o : outcome reply) : option (list string) :=
  match o with Returns r => r_request r | _ => None end.

Definition committed (o : outcome reply) : option table :=
  match o with Returns r => Some (schedule (r_sch r)) | _ => None end.

(** The state a turn leaves. *)
Definition state_of (r : step_result) : loop_state :=
  match r with Next st | Interrupt st | OnError _ _ st => st end.

(** The URLs the log records as handed out, and how many of them were
    handed out for the hash [h]. *)
Fixpoint emitted_urls (l : list event) : list string :=
  match l with
  | [] => []
  | Emitted _ _ _ u :: l' => u :: emitted_urls l'
  | _ :: l' => emitted_urls l'
  end.

Fixpoint emissions (h : N) (l : list event) : nat :=
  match l with
  | [] => O
  | Emitted _ k _ _ :: l' =>
      if N.eqb (hash k) h then S (emissions h l') else emissions h l'
  | _ :: l' => emissions h l'
  end.

(** What an entry of the log says about the turn that wrote it. *)
Definition sound_event (w : World) (sch : FreqScheduler) (ev : event) : Prop :=
  match ev with
  | Emitted i k f u =>
      throttled w sch i f (lookup (hash k) (pages (page_db sch))) = false
      /\ exists p, lookup (hash k) (pages (page_db sch)) = Some p
                   /\ crawl sch (Some p) = true /\ u = url p
  | Retired i k f =>
      throttled w sch i f (lookup (hash k) (pages (page_db sch))) = false
      /\ crawl sch (lookup (hash k) (pages (page_db sch))) = false
  | Throttled i k f =>
      throttled w sch i f (lookup (hash k) (pages (page_db sch))) = true
  end.

(** Each hash occurs in at most one row. *)
Definition unique_hashes (t : table) : Prop := NoDup (hashes t).

(** A table in which no score has been advanced yet: every score is 0 and
    the rows are in the order of their hashes. *)
Definition unadvanced (t : table) : Prop :=
  Forall (fun e => score (fst e) = F64.zero) t /\ Sorted N.lt (hashes t).

(** The row [(k0, f0)] has been advanced once for every URL handed out for
    its hash since the log read [log0]. *)
Definition advanced (k0 : ScheduleKey) (f0 : float) (log0 : list event)
    (st : loop_state) : Prop :=
  exists new,
    log st = log0 ++ new
    /\ unique_hashes (cur st)
    /\ In (Nat.iter (emissions (hash k0) new) (fun k => advance k f0) k0, f0)
          (cur st).

(** No hash the log records as retired is left in the table. *)
Definition retired_absent (st : loop_state) : Prop :=
  unique_hashes (cur st)
  /\ forall i k f, In (Retired i k f) (log st) ->
                   ~ In (hash k) (hashes (cur st)).

(** What [freq_scheduler_load_simple] does with one item of the stream when
    no call fails: the page is entered at score 0 when it passes the test of
    the loop and its frequency is above 0 or is not a number. *)
Definition load_simple_row (sch : FreqScheduler)
    (freq_default freq_scale : float) (t : table) (x : N * PageInfo) : table :=
  let freq := page_freq freq_default freq_scale (snd x) in
  if schedulable sch (snd x) && (F32.ltb F32.zero freq || F32.is_nan freq)
  then mdb_put {| score := F64.zero; hash := fst x |} freq t
  else t.

(** The operations of the interface, and the status code and the scheduler
    each of them leaves. *)
Inductive operation :=
| op_request (max_requests : N)
| op_load_simple (freq_default freq_scale : float)
| op_load_mmap (freqs : MMapArray)
| op_add (page : CrawledPage)
| op_dump.

Definition run (w : World) (sch : FreqScheduler) (op : operation)
    : outcome (FreqSchedulerError * FreqScheduler) :=
  match op with
  | op_request n =>
      match freq_scheduler_request w sch n with
      | Returns r => Returns (r_code r, r_sch r)
      | NullCursor => NullCursor
      | OutOfFuel => OutOfFuel
      end
  | op_load_simple freq_default freq_scale =>
      freq_scheduler_load_simple w sch freq_default freq_scale
  | op_load_mmap freqs => freq_scheduler_load_mmap w sch freqs
  | op_add page => Returns (freq_scheduler_add w sch page)
  | op_dump =>
      match freq_scheduler_dump w sch with
      | Returns (c, sch', _) => Returns (c, sch')
      | NullCursor => NullCursor
      | OutOfFuel => OutOfFuel
      end
  end.

(** The sign bit is clear and the value is a number; the value is a number
    and not below zero. *)
Definition sign_false (x : spec_float) : Prop :=
  match x with
  | S754_nan => False
  | S754_zero s | S754_infinity s | S754_finite s _ _ => s = false
  end.

Definition nonneg (x : spec_float) : Prop :=
  match x with
  | S754_nan => False
  | S754_zero _ => True
  | S754_infinity s | S754_finite s _ _ => s = false
  end.

(** [freq > 0] and [score >= 0], with the comparisons of C: a score that is
    not a number fails the second. *)
Definition entry_ok (e : entry) : Prop :=
  F32.ltb F32.zero (snd e) = true /\ F64.leb F64.zero (score (fst e)) = true.

(** ** Schedulers, pages and arrays of the examples *)

(** The caller sets the options by assigning to the fields. *)
Definition with_margin (sch : FreqScheduler) (m : float) : FreqScheduler :=
  {| page_db := page_db sch; path := path sch; error := error sch;
     persist := persist sch; margin := m;
     max_n_crawls := max_n_crawls sch; schedule := schedule sch |}.

Definition with_max_n_crawls (sch : FreqScheduler) (n : N) : FreqScheduler :=
  {| page_db := page_db sch; path := path sch; error := error sch;
     persist := persist sch; margin := margin sch;
     max_n_crawls := n; schedule := schedule sch |}.

(** The scheduler [freq_scheduler_new] makes over the page database [db]
    when the table on disk holds [t]. *)
Definition scheduler (db : PageDB) (t : table) : FreqScheduler :=
  {| page_db := db; path := Some (db_path db ++ "_freqs")%string;
     error := error_new; persist := true; margin := minus_one;
     max_n_crawls := 0%N; schedule := t |}.

(** A page that is not a seed, last crawled at second [last], crawled [n]
    times, with no rate estimate. *)
Definition page_info (u : string) (last : Z) (n : N) : PageInfo :=
  {| url := u; last_crawl := F64.of_Z last; n_crawls := n;
     page_info_is_seed := false; page_info_rate := F32.zero |}.

Definition page_db_of (l : list (N * PageInfo)) : PageDB :=
  {| db_path := "db"%string; pages := l |}.

(** The key with an integer score. *)
Definition key (s : Z) (h : N) : ScheduleKey :=
  {| score := F64.of_Z s; hash := h |}.

(** Two pages: hash 1 at frequency 2.0 and hash 2 at frequency 1.0, both at
    score 0. *)
Definition two_pages : FreqScheduler :=
  scheduler (page_db_of [(1%N, page_info "u1" 0 1); (2%N, page_info "u2" 0 1)])
            [(key 0 1, F32.of_Z 2); (key 0 2, F32.of_Z 1)].

(** One page, hash 7 at frequency 1.0, last crawled at second 100; the
    throttle is on with margin 0. *)
Definition one_page_throttled : FreqScheduler :=
  with_margin (scheduler (page_db_of [(7%N, page_info "u7" 100 1)])
                         [(key 0 7, F32.of_Z 1)])
              F32.zero.

(** One page, hash 1 at frequency 1.0 and score 0; what a request for 2
    URLs hands back on it; the scheduler after a request during which
    [txn_manager_begin] failed. *)
Definition one_page : FreqScheduler :=
  scheduler (page_db_of [(1%N, page_info "u1" 0 1)]) [(key 0 1, F32.of_Z 1)].

Definition one_page_twice : reply :=
  {| r_code := freq_scheduler_error_ok;
     r_sch := with_schedule one_page [(key 2 1, F32.of_Z 1)];
     r_request := Some ["u1"; "u1"]%string;
     r_log := [Emitted 0 (key 0 1) (F32.of_Z 1) "u1";
               Emitted 1 (key 1 1) (F32.of_Z 1) "u1"] |}.

Definition failed_once : FreqScheduler :=
  with_error one_page
    {| code := freq_scheduler_error_internal;
       message := ["freq_scheduler_request"%string] |}.

(** Two pages crawled once each; the same page database after page 1 has
    been crawled a second time; a scheduler with a cap of 2 crawls and
    nothing scheduled yet. *)
Definition two_crawled : PageDB :=
  page_db_of [(1%N, page_info "u1" 0 1); (2%N, page_info "u2" 0 1)].

Definition first_crawled_again : PageDB :=
  page_db_of [(1%N, page_info "u1" 50 2); (2%N, page_info "u2" 0 1)].

Definition capped : FreqScheduler :=
  with_max_n_crawls (scheduler two_crawled []) 2.

(** One page crawled once, nothing scheduled yet. *)
Definition one_crawled : FreqScheduler :=
  scheduler (page_db_of [(1%N, page_info "u1" 0 1)]) [].

(** An array with one element of frequency [-1.0]; one of frequency NaN. *)
Definition negative_freq : MMapArray :=
  {| element_size := 16;
     elements := [{| pf_hash := 1; pf_freq := F32.of_Z (-1) |}] |}.

Definition nan_freq : MMapArray :=
  {| element_size := 16;
     elements := [{| pf_hash := 1; pf_freq := S754_nan |}] |}.

(** ** Notions used for the rest of the interface *)

(** No call made by [freq_scheduler_new] fails. *)
Definition new_works (w : World) : Prop :=
  malloc_ok w = true /\ error_new_ok w = true /\ path_ok w = true
  /\ make_dir_error w = None
  /\ txn_manager_new_rc w = 0 /\ env_create_rc w = 0
  /\ env_set_mapsize_rc w = 0 /\ env_set_maxdbs_rc w = 0
  /\ env_open_rc w = 0.

(** The options and the path of [sch'] are those of [sch]. *)
Definition same_options (sch sch' : FreqScheduler) : Prop :=
  path sch' = path sch /\ persist sch' = persist sch
  /\ margin sch' = margin sch /\ max_n_crawls sch' = max_n_crawls sch.

(** The log records a row of hash [h] as retired. *)
Definition retired (h : N) (l : list event) : Prop :=
  exists i k f, In (Retired i k f) l /\ hash k = h.

(** The key an entry of the log is about. *)
Definition event_key (ev : event) : ScheduleKey :=
  match ev with Emitted _ k _ _ | Retired _ k _ | Throttled _ k _ => k end.

(** The row [freq_scheduler_load_mmap] writes for an element of the array. *)
Definition mmap_row (f : PageFreq) : entry :=
  ({| score := F64.div F64.one (F32.to_double (pf_freq f));
      hash := pf_hash f |}, pf_freq f).

(** The row [freq_scheduler_load_simple] writes for an item of the stream. *)
Definition simple_row (freq_default freq_scale : float) (x : N * PageInfo)
    : entry :=
  ({| score := F64.zero; hash := fst x |},
   page_freq freq_default freq_scale (snd x)).

(** The test an item of the stream passes to be written: the test of the
    loop and the one of [freq_scheduler_cursor_write]. *)
Definition loaded (sch : FreqScheduler) (freq_default freq_scale : float)
    (x : N * PageInfo) : bool :=
  schedulable sch (snd x)
  && negb (F32.leb (page_freq freq_default freq_scale (snd x)) F32.zero).

(** What an operation asks of its arguments for the stored numbers to stay
    in range: a default frequency that is a number, an array of frequencies
    above 0. *)
Definition in_range (op : operation) : Prop :=
  match op with
  | op_load_simple freq_default _ => F32.is_nan freq_default = false
  | op_load_mmap freqs =>
      Forall (fun f => F32.ltb F32.zero (pf_freq f) = true) (elements freqs)
  | _ => True
  end.

(** The throttle check gives the same answer in every turn: the throttle is
    off, or the clock does not move during the calls. *)
Definition steady (w : World) (sch : FreqScheduler) : Prop :=
  F32.leb F32.zero (margin sch) = false \/ forall i j, clock w i = clock w j.




(** The world [w] in which [txn_manager_commit] returns [rc]. *)
Definition with_commit_rc (w : World) (rc : Z) : World :=
  {| malloc_ok := malloc_ok w; error_new_ok := error_new_ok w;
     path_ok := path_ok w; make_dir_error := make_dir_error w;
     txn_manager_new_rc := txn_manager_new_rc w;
     txn_manager_null := txn_manager_null w;
     env_create_rc := env_create_rc w;
     env_set_mapsize_rc := env_set_mapsize_rc w;
     env_set_maxdbs_rc := env_set_maxdbs_rc w;
     env_open_rc := env_open_rc w;
     txn_begin_rc := txn_begin_rc w; txn_commit_rc := rc;
     txn_expand_rc := txn_expand_rc w;
     txn_manager_message := txn_manager_message w;
     dbi_open_rc := dbi_open_rc w; set_compare_rc := set_compare_rc w;
     cursor_open_rc := cursor_open_rc w;
     cursor_get_rc := cursor_get_rc w; cursor_del_rc := cursor_del_rc w;
     cursor_put_rc := cursor_put_rc w; mdb_strerror := mdb_strerror w;
     get_info_rc := get_info_rc w;
     page_db_add := page_db_add w;
     page_db_message := page_db_message w;
     stream_new_rc := stream_new_rc w; stream_new_null := stream_new_null w;
     stream_error_at := stream_error_at w;
     request_new_ok := request_new_ok w; add_url_rc := add_url_rc w;
     clock := clock w |}.

(** A world in which [mdb_env_create] returns [create_rc] and
    [mdb_env_set_mapsize] returns [mapsize_rc], every other call succeeds,
    and [mdb_strerror] tells code 1 from the other codes. *)
Definition env_world (create_rc mapsize_rc : Z) : World :=
  {| malloc_ok := true; error_new_ok := true; path_ok := true;
     make_dir_error := None;
     txn_manager_new_rc := 0; txn_manager_null := false;
     env_create_rc := create_rc; env_set_mapsize_rc := mapsize_rc;
     env_set_maxdbs_rc := 0; env_open_rc := 0;
     txn_begin_rc := 0; txn_commit_rc := 0; txn_expand_rc := fun _ => 0;
     txn_manager_message := "txn"%string;
     dbi_open_rc := 0; set_compare_rc := 0; cursor_open_rc := 0;
     cursor_get_rc := fun _ => 0; cursor_del_rc := fun _ => 0;
     cursor_put_rc := fun _ => 0;
     mdb_strerror := fun rc => if rc =? 1 then "Operation not permitted"%string
                               else "MDB error"%string;
     get_info_rc := fun _ => 0;
     page_db_add := fun db _ => (0, db);
     page_db_message := "page_db"%string;
     stream_new_rc := 0; stream_new_null := false; stream_error_at := None;
     request_new_ok := true; add_url_rc := fun _ => 0;
     clock := fun _ => 0 |}.

(** A world in which the read of the cursor in turn [n] returns [rc] and
    every other call succeeds. *)
Definition get_fails (n : nat) (rc : Z) : World :=
  {| malloc_ok := true; error_new_ok := true; path_ok := true;
     make_dir_error := None;
     txn_manager_new_rc := 0; txn_manager_null := false;
     env_create_rc := 0; env_set_mapsize_rc := 0;
     env_set_maxdbs_rc := 0; env_open_rc := 0;
     txn_begin_rc := 0; txn_commit_rc := 0; txn_expand_rc := fun _ => 0;
     txn_manager_message := "txn"%string;
     dbi_open_rc := 0; set_compare_rc := 0; cursor_open_rc := 0;
     cursor_get_rc := fun i => if Nat.eqb i n then rc else 0;
     cursor_del_rc := fun _ => 0; cursor_put_rc := fun _ => 0;
     mdb_strerror := fun _ => "mdb"%string; get_info_rc := fun _ => 0;
     page_db_add := fun db _ => (0, db);
     page_db_message := "page_db"%string;
     stream_new_rc := 0; stream_new_null := false; stream_error_at := None;
     request_new_ok := true; add_url_rc := fun _ => 0;
     clock := fun _ => 0 |}.

(** A world in which the path of the scheduler cannot be built ([strdup]
    or [concat] returns the null pointer) and every other call succeeds. *)
Definition path_fails : World :=
  {| malloc_ok := true; error_new_ok := true; path_ok := false;
     make_dir_error := None;
     txn_manager_new_rc := 0; txn_manager_null := false;
     env_create_rc := 0; env_set_mapsize_rc := 0;
     env_set_maxdbs_rc := 0; env_open_rc := 0;
     txn_begin_rc := 0; txn_commit_rc := 0; txn_expand_rc := fun _ => 0;
     txn_manager_message := "txn"%string;
     dbi_open_rc := 0; set_compare_rc := 0; cursor_open_rc := 0;
     cursor_get_rc := fun _ => 0; cursor_del_rc := fun _ => 0;
     cursor_put_rc := fun _ => 0; mdb_strerror := fun _ => "mdb"%string;
     get_info_rc := fun _ => 0;
     page_db_add := fun db _ => (0, db);
     page_db_message := "page_db"%string;
     stream_new_rc := 0; stream_new_null := false; stream_error_at := None;
     request_new_ok := true; add_url_rc := fun _ => 0;
     clock := fun _ => 0 |}.

(** ** The scheduler of the examples *)

(** [scheduler db t] is what [freq_scheduler_new] hands back, with the
    success code, when no call fails, no path is given and the table on disk
    holds [t]. *)
Lemma freq_scheduler_new_calm (now : Z) (db : PageDB) (t : table) :
  freq_scheduler_new (calm now) db None t
  = (freq_scheduler_error_ok, handle_to (scheduler db t)).
Proof. reflexivity. Qed.

Lemma calm_works (now : Z) : works (calm now).
Proof. constructor; intros; try reflexivity. repeat split. Qed.

(** ** Facts about the table *)

Lemma cmp_eq_hash (a b : ScheduleKey) :
  schedule_entry_mdb_cmp_asc a b = Eq -> hash a = hash b.
Proof.
  unfold schedule_entry_mdb_cmp_asc.
  destruct (F64.ltb (score a) (score b)); [discriminate|].
  destruct (F64.ltb (score b) (score a)); [discriminate|].
  apply N.compare_eq.
Qed.

Lemma mdb_put_length (k : ScheduleKey) (v : float) (t : table) :
  (List.length (mdb_put k v t) <= S (List.length t))%nat.
Proof.
  induction t as [|[k' v'] t IH]; simpl; [lia|].
  destruct (schedule_entry_mdb_cmp_asc k k'); simpl; lia.
Qed.

Lemma mdb_put_hashes_incl (k : ScheduleKey) (v : float) (t : table) (h : N) :
  In h (hashes (mdb_put k v t)) -> h = hash k \/ In h (hashes t).
Proof.
  induction t as [|[k' v'] t IH]; simpl.
  - intros [H|[]]; auto.
  - destruct (schedule_entry_mdb_cmp_asc k k') eqn:E; simpl.
    + intros H; right; exact H.
    + intros [H|H]; auto.
    + intros [H|H]; auto. destruct (IH H); auto.
Qed.

(** A key whose hash is not in the table is entered as a new row. *)
Lemma mdb_put_fresh_in (k : ScheduleKey) (v : float) (t : table) (e : entry) :
  ~ In (hash k) (hashes t) ->
  (In e (mdb_put k v t) <-> e = (k, v) \/ In e t).
Proof.
  induction t as [|[k' v'] t IH]; simpl; intros Hn.
  - intuition.
  - destruct (schedule_entry_mdb_cmp_asc k k') eqn:E; simpl.
    + apply cmp_eq_hash in E. exfalso. apply Hn. left.
      unfold entry_hash; simpl. auto.
    + intuition.
    + assert (Hn' : ~ In (hash k) (hashes t)) by tauto.
      specialize (IH Hn'). intuition.
Qed.

Lemma mdb_put_fresh_unique (k : ScheduleKey) (v : float) (t : table) :
  ~ In (hash k) (hashes t) -> unique_hashes t ->
  unique_hashes (mdb_put k v t).
Proof.
  unfold unique_hashes.
  induction t as [|[k' v'] t IH]; simpl; intros Hn Hu.
  - constructor; [exact Hn | constructor].
  - destruct (schedule_entry_mdb_cmp_asc k k') eqn:E; simpl.
    + apply cmp_eq_hash in E. exfalso. apply Hn. left.
      unfold entry_hash; simpl. auto.
    + constructor; [exact Hn | exact Hu].
    + inversion Hu as [|x l Hx Hl]; subst.
      constructor.
      * intros Hi. apply mdb_put_hashes_incl in Hi.
        destruct Hi as [Hi|Hi]; [|contradiction].
        apply Hn. left. exact Hi.
      * apply IH; [tauto | exact Hl].
Qed.

(** A row with another hash stays where it is. *)
Lemma mdb_put_keeps (k : ScheduleKey) (v : float) (t : table) (e : entry) :
  In e t -> entry_hash e <> hash k -> In e (mdb_put k v t).
Proof.
  induction t as [|[k' v'] t IH]; simpl; intros Hi Hne; [contradiction|].
  destruct (schedule_entry_mdb_cmp_asc k k') eqn:E; simpl.
  - destruct Hi as [Hi|Hi]; [|right; exact Hi].
    subst e. apply cmp_eq_hash in E. exfalso. apply Hne.
    unfold entry_hash; simpl. auto.
  - right. exact Hi.
  - destruct Hi as [Hi|Hi]; [left; exact Hi | right; apply IH; assumption].
Qed.

Lemma unique_tail (e : entry) (t : table) :
  unique_hashes (e :: t) -> ~ In (entry_hash e) (hashes t) /\ unique_hashes t.
Proof.
  unfold unique_hashes; simpl. intros H. inversion H; subst. split; assumption.
Qed.

Lemma unique_in_eq (t : table) (e1 e2 : entry) :
  unique_hashes t -> In e1 t -> In e2 t -> entry_hash e1 = entry_hash e2 ->
  e1 = e2.
Proof.
  unfold unique_hashes, hashes.
  induction t as [|e t IH]; simpl; intros Hu H1 H2 Hh; [contradiction|].
  inversion Hu as [|x l Hx Hl]; subst.
  destruct H1 as [H1|H1], H2 as [H2|H2]; subst.
  - reflexivity.
  - exfalso. apply Hx. rewrite Hh. apply in_map. exact H2.
  - exfalso. apply Hx. rewrite <- Hh. apply in_map. exact H1.
  - apply IH; assumption.
Qed.

Lemma advance_hash (sk : ScheduleKey) (freq : float) :
  hash (advance sk freq) = hash sk.
Proof. reflexivity. Qed.

Lemma iter_advance_hash (n : nat) (sk : ScheduleKey) (freq : float) :
  hash (Nat.iter n (fun k => advance k freq) sk) = hash sk.
Proof. induction n; simpl; auto. Qed.

Lemma emissions_app (h : N) (l1 l2 : list event) :
  emissions h (l1 ++ l2) = (emissions h l1 + emissions h l2)%nat.
Proof.
  induction l1 as [|[i k f u|i k f|i k f] l1 IH]; simpl; auto.
  destruct (N.eqb (hash k) h); simpl; auto.
Qed.

Lemma emitted_urls_app (l1 l2 : list event) :
  emitted_urls (l1 ++ l2) = emitted_urls l1 ++ emitted_urls l2.
Proof.
  induction l1 as [|[i k f u|i k f|i k f] l1 IH]; simpl; auto.
  rewrite IH. reflexivity.
Qed.

(** ** One turn of the request loop *)

Lemma error_add_code (e : Error) (m : option string) :
  code (error_add e m) = code e.
Proof. destruct m; reflexivity. Qed.

Lemma on_error_code (sch : FreqScheduler) (func : string)
    (e1 e2 : option string) :
  code (error (on_error sch func e1 e2)) = freq_scheduler_error_internal.
Proof. destruct e1, e2; reflexivity. Qed.

Lemma on_error_schedule (sch : FreqScheduler) (func : string)
    (e1 e2 : option string) :
  schedule (on_error sch func e1 e2) = schedule sch.
Proof. destruct e1, e2; reflexivity. Qed.

Arguments on_error : simpl never.

(** The head is throttled: the turn sets [interrupt_requests] and touches
    neither the table nor the request. *)
Lemma request_step_throttled (w : World) (sch : FreqScheduler) (i : nat)
    (st : loop_state) (sk : ScheduleKey) (freq : float) (t : table) :
  cursor_get_rc w i = 0 -> get_info_rc w i = 0 ->
  cur st = (sk, freq) :: t ->
  throttled w sch i freq (lookup (hash sk) (pages (page_db sch))) = true ->
  request_step w sch i st =
    Interrupt {| cur := cur st; urls := urls st;
                 log := log st ++ [Throttled i sk freq] |}.
Proof.
  intros Hg Hi Hc Ht. unfold request_step.
  rewrite Hg, Hc. simpl. rewrite Hi. simpl. rewrite Ht. reflexivity.
Qed.

(** The head is due and may be crawled: its URL is appended and the row is
    entered again under the advanced key. *)
Lemma request_step_emit (w : World) (sch : FreqScheduler) (i : nat)
    (st : loop_state) (sk : ScheduleKey) (freq : float) (t : table)
    (p : PageInfo) :
  turn_ok w i ->
  cur st = (sk, freq) :: t ->
  lookup (hash sk) (pages (page_db sch)) = Some p ->
  throttled w sch i freq (Some p) = false ->
  crawl sch (Some p) = true ->
  request_step w sch i st =
    Next {| cur := mdb_put (advance sk freq) freq t;
            urls := urls st ++ [url p];
            log := log st ++ [Emitted i sk freq (url p)] |}.
Proof.
  intros (Hg & Hi & Hd & Ha & Hp) Hc Hl Ht Hcr. unfold request_step.
  rewrite Hg, Hc. simpl mdb_first. cbv iota beta. simpl (0 =? 0).
  cbv iota. rewrite Hi, Hl, Ht, Hd, Hcr, Ha, Hp. simpl. reflexivity.
Qed.

(** The head is due and may not be crawled: the row is deleted. *)
Lemma request_step_retire (w : World) (sch : FreqScheduler) (i : nat)
    (st : loop_state) (sk : ScheduleKey) (freq : float) (t : table) :
  cursor_get_rc w i = 0 -> get_info_rc w i = 0 -> cursor_del_rc w i = 0 ->
  cur st = (sk, freq) :: t ->
  throttled w sch i freq (lookup (hash sk) (pages (page_db sch))) = false ->
  crawl sch (lookup (hash sk) (pages (page_db sch))) = false ->
  request_step w sch i st =
    Next {| cur := t; urls := urls st;
            log := log st ++ [Retired i sk freq] |}.
Proof.
  intros Hg Hi Hd Hc Ht Hcr. unfold request_step.
  rewrite Hg, Hc. simpl mdb_first. cbv iota beta. simpl (0 =? 0).
  cbv iota. rewrite Hi, Ht, Hd, Hcr. simpl. reflexivity.
Qed.

(** Every turn that goes back to the loop test is one of the two above. *)
Lemma request_step_next (w : World) (sch : FreqScheduler) (i : nat)
    (st st' : loop_state) :
  request_step w sch i st = Next st' ->
  exists sk freq t,
    cur st = (sk, freq) :: t /\
    throttled w sch i freq (lookup (hash sk) (pages (page_db sch))) = false /\
    ((exists p, lookup (hash sk) (pages (page_db sch)) = Some p /\
                crawl sch (Some p) = true /\
                st' = {| cur := mdb_put (advance sk freq) freq t;
                         urls := urls st ++ [url p];
                         log := log st ++ [Emitted i sk freq (url p)] |})
     \/ (crawl sch (lookup (hash sk) (pages (page_db sch))) = false /\
         st' = {| cur := t; urls := urls st;
                  log := log st ++ [Retired i sk freq] |})).
Proof.
  unfold request_step.
  destruct (cur st) as [|[sk freq] t] eqn:Hc; simpl mdb_first; cbv iota beta.
  - destruct (cursor_get_rc w i =? 0).
    + simpl. discriminate.
    + destruct (cursor_get_rc w i =? 0); [discriminate|].
      destruct (cursor_get_rc w i =? MDB_NOTFOUND); discriminate.
  - destruct (cursor_get_rc w i =? 0) eqn:Hg.
    2:{ rewrite Hg. destruct (cursor_get_rc w i =? MDB_NOTFOUND); discriminate. }
    simpl (0 =? 0). cbv iota.
    destruct (get_info_rc w i =? 0); simpl negb; cbv iota; [|discriminate].
    destruct (throttled w sch i freq _) eqn:Ht; [discriminate|].
    destruct (cursor_del_rc w i =? 0); simpl negb; cbv iota; [|discriminate].
    simpl mdb_del_first.
    destruct (crawl sch _) eqn:Hcr.
    + destruct (lookup (hash sk) (pages (page_db sch))) as [p|] eqn:Hl;
        [|discriminate].
      destruct (add_url_rc w i =? 0); simpl negb; cbv iota; [|discriminate].
      destruct (cursor_put_rc w i =? 0); simpl negb; cbv iota; [|discriminate].
      intros H. inversion H; subst. exists sk, freq, t.
      split; [reflexivity|]. split; [rewrite Hl; exact Ht|].
      left. exists p. split; [exact Hl|]. split; [exact Hcr|reflexivity].
    + intros H. inversion H; subst. exists sk, freq, t.
      split; [reflexivity|]. split; [exact Ht|].
      right. split; [exact Hcr|reflexivity].
Qed.

Lemma request_step_interrupt (w : World) (sch : FreqScheduler) (i : nat)
    (st st' : loop_state) :
  request_step w sch i st = Interrupt st' ->
  cur st' = cur st /\ urls st' = urls st /\
  (log st' = log st \/
   exists sk freq, log st' = log st ++ [Throttled i sk freq]).
Proof.
  unfold request_step.
  destruct (cur st) as [|[sk freq] t] eqn:Hc; simpl mdb_first; cbv iota beta.
  - destruct (cursor_get_rc w i =? 0).
    + simpl. intros H; inversion H; subst. auto.
    + destruct (cursor_get_rc w i =? 0).
      * intros H; inversion H; subst. auto.
      * destruct (cursor_get_rc w i =? MDB_NOTFOUND); [|discriminate].
        intros H; inversion H; subst. auto.
  - destruct (cursor_get_rc w i =? 0) eqn:Hg.
    2:{ rewrite Hg. destruct (cursor_get_rc w i =? MDB_NOTFOUND); [|discriminate].
        intros H; inversion H; subst. auto. }
    simpl (0 =? 0). cbv iota.
    destruct (get_info_rc w i =? 0); simpl negb; cbv iota; [|discriminate].
    destruct (throttled w sch i freq _) eqn:Ht.
    + intros H; inversion H; subst. simpl. try rewrite Hc.
      split; [reflexivity|]. split; [reflexivity|].
      right. exists sk, freq. reflexivity.
    + destruct (cursor_del_rc w i =? 0); simpl negb; cbv iota; [|discriminate].
      destruct (if crawl sch _ then _ else None) as [p|]; [|discriminate].
      destruct (add_url_rc w i =? 0); simpl negb; cbv iota; [|discriminate].
      destruct (cursor_put_rc w i =? 0); simpl negb; cbv iota; discriminate.
Qed.

Lemma request_step_on_error (w : World) (sch : FreqScheduler) (i : nat)
    (st st' : loop_state) (e1 e2 : option string) :
  request_step w sch i st = OnError e1 e2 st' ->
  (List.length (urls st') <= S (List.length (urls st)))%nat /\ ~ turn_ok w i.
Proof.
  unfold request_step, turn_ok.
  destruct (cur st) as [|[sk freq] t] eqn:Hc; simpl mdb_first; cbv iota beta.
  - destruct (cursor_get_rc w i =? 0) eqn:Hg.
    + simpl. discriminate.
    + rewrite Hg. destruct (cursor_get_rc w i =? MDB_NOTFOUND); [discriminate|].
      intros H; inversion H; subst. split; [lia|]. intros (H0 & _).
      rewrite H0 in Hg. discriminate.
  - destruct (cursor_get_rc w i =? 0) eqn:Hg.
    2:{ rewrite Hg. destruct (cursor_get_rc w i =? MDB_NOTFOUND); [discriminate|].
        intros H; inversion H; subst. split; [lia|]. intros (H0 & _).
        rewrite H0 in Hg. discriminate. }
    simpl (0 =? 0). cbv iota.
    destruct (get_info_rc w i =? 0) eqn:Hi; simpl negb; cbv iota.
    2:{ intros H; inversion H; subst. split; [lia|]. intros (_ & H0 & _).
        rewrite H0 in Hi. discriminate. }
    destruct (throttled w sch i freq _) eqn:Ht; [discriminate|].
    destruct (cursor_del_rc w i =? 0) eqn:Hd; simpl negb; cbv iota.
    2:{ intros H; inversion H; subst. split; [lia|]. intros (_ & _ & H0 & _).
        rewrite H0 in Hd. discriminate. }
    destruct (if crawl sch _ then _ else None) as [p|]; [|discriminate].
    destruct (add_url_rc w i =? 0) eqn:Ha; simpl negb; cbv iota.
    2:{ intros H; inversion H; subst. simpl. split; [lia|].
        intros (_ & _ & _ & H0 & _). rewrite H0 in Ha. discriminate. }
    destruct (cursor_put_rc w i =? 0) eqn:Hp; simpl negb; cbv iota;
      [discriminate|].
    intros H; inversion H; subst. simpl. rewrite length_app. simpl.
    split; [lia|]. intros (_ & _ & _ & _ & H0). rewrite H0 in Hp. discriminate.
Qed.

(** ** The request loop *)

Section LoopInvariant.
Variables (w : World) (sch : FreqScheduler) (max_requests : N).
Variable P : loop_state -> Prop.
Hypothesis P_next : forall i st st',
  P st -> request_step w sch i st = Next st' -> P st'.
Hypothesis P_interrupt : forall i st st',
  P st -> request_step w sch i st = Interrupt st' -> P st'.

(** A property kept by every turn holds of the state the loop leaves. *)
Lemma request_loop_invariant (fuel : nat) : forall i st st',
  P st -> request_loop fuel w sch max_requests i st = LoopExit st' -> P st'.
Proof.
  induction fuel as [|fuel IH]; intros i st st' HP; simpl.
  - destruct (N.of_nat (List.length (urls st)) <? max_requests)%N;
      [discriminate|]. intros H; inversion H; subst; exact HP.
  - destruct (N.of_nat (List.length (urls st)) <? max_requests)%N.
    2:{ intros H; inversion H; subst; exact HP. }
    destruct (request_step w sch i st) as [st1|st1|e1 e2 st1] eqn:Hs.
    + apply IH. eapply P_next; eauto.
    + intros H; inversion H; subst. eapply P_interrupt; eauto.
    + discriminate.
Qed.
End LoopInvariant.

(** The loop bound of the model is never reached. *)
Lemma request_loop_fuel (w : World) (sch : FreqScheduler) (max_requests : N)
    (fuel : nat) : forall i st,
  (N.to_nat max_requests - List.length (urls st) + List.length (cur st) < fuel)%nat ->
  request_loop fuel w sch max_requests i st <> LoopFuel.
Proof.
  induction fuel as [|fuel IH]; intros i st Hf; [lia|]. simpl.
  destruct (N.of_nat (List.length (urls st)) <? max_requests)%N eqn:Hlt;
    [|discriminate].
  apply N.ltb_lt in Hlt.
  destruct (request_step w sch i st) as [st1|st1|e1 e2 st1] eqn:Hs;
    try discriminate.
  apply IH.
  apply request_step_next in Hs.
  destruct Hs as (sk & freq & t & Hc & _ & [(p & _ & _ & ->)|(_ & ->)]);
    simpl; rewrite Hc in Hf; simpl in Hf.
  - rewrite length_app. simpl.
    pose proof (mdb_put_length (advance sk freq) freq t). lia.
  - lia.
Qed.

(** The request never holds more than [max_requests] URLs. *)
Lemma request_loop_bound (w : World) (sch : FreqScheduler) (max_requests : N)
    (fuel : nat) : forall i st,
  (N.of_nat (List.length (urls st)) <= max_requests)%N ->
  match request_loop fuel w sch max_requests i st with
  | LoopExit st' | LoopError _ _ st' =>
      (N.of_nat (List.length (urls st')) <= max_requests)%N
  | LoopFuel => True
  end.
Proof.
  induction fuel as [|fuel IH]; intros i st Hb; simpl.
  - destruct (N.of_nat (List.length (urls st)) <? max_requests)%N; auto.
  - destruct (N.of_nat (List.length (urls st)) <? max_requests)%N eqn:Hlt;
      [|exact Hb].
    apply N.ltb_lt in Hlt.
    destruct (request_step w sch i st) as [st1|st1|e1 e2 st1] eqn:Hs.
    + apply IH. apply request_step_next in Hs.
      destruct Hs as (sk & freq & t & _ & _ & [(p & _ & _ & ->)|(_ & ->)]);
        simpl; [rewrite length_app; simpl; lia | exact Hb].
    + apply request_step_interrupt in Hs. destruct Hs as (_ & -> & _).
      exact Hb.
    + apply request_step_on_error in Hs. lia.
Qed.

(** When the calls of every turn succeed the loop does not leave through
    [goto on_error]. *)
Lemma request_loop_works (w : World) (sch : FreqScheduler) (max_requests : N)
    (fuel : nat) : forall i st e1 e2 st',
  (forall j, turn_ok w j) ->
  request_loop fuel w sch max_requests i st <> LoopError e1 e2 st'.
Proof.
  induction fuel as [|fuel IH]; intros i st e1 e2 st' Hw; simpl.
  - destruct (N.of_nat (List.length (urls st)) <? max_requests)%N; discriminate.
  - destruct (N.of_nat (List.length (urls st)) <? max_requests)%N;
      [|discriminate].
    destruct (request_step w sch i st) as [st1|st1|x1 x2 st1] eqn:Hs.
    + apply IH. exact Hw.
    + discriminate.
    + apply request_step_on_error in Hs. destruct Hs as (_ & Hs).
      exfalso. apply Hs. apply Hw.
Qed.

(** ** Reading a reply of freq_scheduler_request *)

Lemma cursor_open_cases (w : World) (sch : FreqScheduler) (c : option table) :
  (exists sch', freq_scheduler_cursor_open w sch c
                = (freq_scheduler_error_internal, sch', c)
                /\ schedule sch' = schedule sch /\ txn_begin_rc w <> 0)
  \/ (freq_scheduler_cursor_open w sch c = (code (error sch), sch, None)
      /\ txn_begin_rc w = 0
      /\ (dbi_open_rc w <> 0 \/ set_compare_rc w <> 0 \/ cursor_open_rc w <> 0))
  \/ (freq_scheduler_cursor_open w sch c
        = (code (error sch), sch, Some (schedule sch))
      /\ txn_begin_rc w = 0 /\ dbi_open_rc w = 0 /\ set_compare_rc w = 0
      /\ cursor_open_rc w = 0).
Proof.
  unfold freq_scheduler_cursor_open.
  destruct (txn_begin_rc w =? 0) eqn:Hb; simpl negb; cbv iota.
  2:{ left. eexists. rewrite on_error_code, on_error_schedule.
      split; [reflexivity|]. split; [reflexivity|].
      intros H; rewrite H in Hb; discriminate. }
  apply Z.eqb_eq in Hb. right.
  destruct (dbi_open_rc w =? 0) eqn:H1; simpl negb; cbv iota.
  2:{ left. apply Z.eqb_neq in H1. simpl. auto. }
  destruct (set_compare_rc w =? 0) eqn:H2; simpl negb; cbv iota.
  2:{ left. apply Z.eqb_neq in H2. simpl. auto. }
  destruct (cursor_open_rc w =? 0) eqn:H3; simpl negb; cbv iota.
  2:{ left. apply Z.eqb_neq in H3. simpl. auto. }
  right. apply Z.eqb_eq in H1, H2, H3. simpl. auto.
Qed.

(** A path through [on_error:] does not hand back the success code. *)
Ltac failed_reply :=
  let H := fresh in
  let Hc := fresh in
  intros H Hc; injection H as H; rewrite <- H in Hc; cbn [r_code] in Hc;
  rewrite ?on_error_code, ?error_add_code in Hc; discriminate Hc.

(** A reply with the success code comes from a run of the loop that left
    through the loop test or an interrupt and whose table was committed. *)
Lemma request_ok_inv (w : World) (sch : FreqScheduler) (max_requests : N)
    (r : reply) :
  freq_scheduler_request w sch max_requests = Returns r ->
  r_code r = freq_scheduler_error_ok ->
  exists st,
    request_loop (request_fuel sch max_requests) w sch max_requests 0
      {| cur := schedule sch; urls := []; log := [] |} = LoopExit st
    /\ r_sch r = with_schedule sch (cur st)
    /\ r_request r = Some (urls st)
    /\ r_log r = log st
    /\ code (error sch) = freq_scheduler_error_ok.
Proof.
  unfold freq_scheduler_request.
  destruct (cursor_open_cases w sch None)
    as [(sch' & -> & _ & _)|[(-> & _ & _)|(-> & _)]].
  - simpl. failed_reply.
  - destruct (is_ok (code (error sch))) eqn:Hok; simpl negb; cbv iota;
      [|failed_reply].
    destruct (request_new_ok w); simpl negb; cbv iota; [discriminate|].
    failed_reply.
  - destruct (is_ok (code (error sch))) eqn:Hok; simpl negb; cbv iota;
      [|failed_reply].
    destruct (request_new_ok w); simpl negb; cbv iota; [|failed_reply].
    destruct (request_loop _ w sch max_requests 0 _) as [st|e1 e2 st|] eqn:Hl.
    + unfold freq_scheduler_cursor_commit.
      destruct (txn_commit_rc w =? 0); simpl negb; cbv iota.
      * simpl. rewrite Hok. simpl. intros H; inversion H; subst. simpl.
        intros Hc. exists st. repeat split; auto.
      * rewrite on_error_code. simpl. failed_reply.
    + failed_reply.
    + discriminate.
Qed.

(** ** Opening a cursor *)

(** C10.  In [freq_scheduler_cursor_open], when the transaction has begun
    and opening the table, registering the comparator or opening the cursor
    fails, the cursor is set to null and the function returns the error code
    the scheduler already held, with the scheduler (its error record
    included) left as it was; that code is the success code when no earlier
    operation failed. *)
Theorem cursor_open_mdb_failure (w : World) (sch : FreqScheduler)
    (cursor : option table) :
  txn_begin_rc w = 0 ->
  dbi_open_rc w <> 0 \/ set_compare_rc w <> 0 \/ cursor_open_rc w <> 0 ->
  freq_scheduler_cursor_open w sch cursor = (code (error sch), sch, None)
  /\ (code (error sch) = freq_scheduler_error_ok ->
      freq_scheduler_cursor_open w sch cursor
      = (freq_scheduler_error_ok, sch, None)).
Proof.
  intros Hb Hf.
  assert (H : freq_scheduler_cursor_open w sch cursor
              = (code (error sch), sch, None)).
  { destruct (cursor_open_cases w sch cursor)
      as [(sch' & _ & _ & Hn)|[(H & _)|(_ & _ & H1 & H2 & H3)]].
    - contradiction.
    - exact H.
    - destruct Hf as [Hf|[Hf|Hf]]; contradiction. }
  split; [exact H|]. intros Hok. rewrite H, Hok. reflexivity.
Qed.

Lemma cursor_open_mdb_failure_witness :
  freq_scheduler_cursor_open (world 0 12 (fun db _ => (0, db)) 0)
    (scheduler (page_db_of []) []) None
  = (freq_scheduler_error_ok, scheduler (page_db_of []) [], None).
Proof.
  apply (cursor_open_mdb_failure (world 0 12 (fun db _ => (0, db)) 0)
           (scheduler (page_db_of []) []) None).
  - reflexivity.
  - right. right. simpl. lia.
  - reflexivity.
Defined.

(** ** The size of a request *)

(** The loop bound of the model is large enough: the call comes back, or
    a null cursor reaches LMDB. *)
Lemma request_total (w : World) (sch : FreqScheduler) (max_requests : N) :
  freq_scheduler_request w sch max_requests <> OutOfFuel.
Proof.
  pose (st0 := {| cur := schedule sch; urls := []; log := [] |}).
  assert (Hfuel : request_loop (request_fuel sch max_requests) w sch
                    max_requests 0 st0 <> LoopFuel).
  { apply request_loop_fuel. unfold request_fuel, st0. simpl. lia. }
  unfold freq_scheduler_request.
  destruct (cursor_open_cases w sch None)
    as [(sch' & -> & _ & _)|[(-> & _ & _)|(-> & _)]].
  - simpl. discriminate.
  - destruct (is_ok (code (error sch))); simpl negb; cbv iota;
      [|discriminate].
    destruct (request_new_ok w); simpl negb; cbv iota; discriminate.
  - destruct (is_ok (code (error sch))); simpl negb; cbv iota;
      [|discriminate].
    destruct (request_new_ok w); simpl negb; cbv iota; [|discriminate].
    fold st0.
    destruct (request_loop _ w sch max_requests 0 st0) as [st|e1 e2 st|].
    + destruct (freq_scheduler_cursor_commit w sch (cur st)) as [rc sch2].
      destruct (is_ok rc); simpl; discriminate.
    + discriminate.
    + contradiction.
Qed.





(** ** Two pages *)

Lemma request_loop_emit (w : World) (sch : FreqScheduler) (max_requests : N)
    (fuel i : nat) (st : loop_state) (sk : ScheduleKey) (freq : float)
    (t : table) (p : PageInfo) :
  turn_ok w i ->
  cur st = (sk, freq) :: t ->
  lookup (hash sk) (pages (page_db sch)) = Some p ->
  throttled w sch i freq (Some p) = false ->
  crawl sch (Some p) = true ->
  (N.of_nat (List.length (urls st)) <? max_requests)%N = true ->
  request_loop (S fuel) w sch max_requests i st
  = request_loop fuel w sch max_requests (S i)
      {| cur := mdb_put (advance sk freq) freq t;
         urls := urls st ++ [url p];
         log := log st ++ [Emitted i sk freq (url p)] |}.
Proof.
  intros Hw Hc Hl Ht Hcr Hlt. simpl. rewrite Hlt.
  rewrite (request_step_emit w sch i st sk freq t p); auto.
Qed.

Lemma throttle_disabled (w : World) (sch : FreqScheduler) (i : nat)
    (freq : float) (pi : option PageInfo) :
  F32.leb F32.zero (margin sch) = false -> throttled w sch i freq pi = false.
Proof. intros H. unfold throttled. destruct pi; [rewrite H|]; reflexivity. Qed.

Lemma crawl_uncapped (sch : FreqScheduler) (p : PageInfo) :
  max_n_crawls sch = 0%N -> crawl sch (Some p) = true.
Proof. intros H. unfold crawl. rewrite H. reflexivity. Qed.

(** Replaces a put into a table of known rows by the table it yields. *)
Ltac put_now :=
  match goal with
  | |- context [mdb_put ?k ?v ?t] =>
      let r := eval vm_compute in (mdb_put k v t) in
      change (mdb_put k v t) with r
  end.

(** C1 (as the code has it).  From the schedule holding exactly
    (hash 1, freq 2.0) and (hash 2, freq 1.0), both at score 0, with the
    throttle off (margin below 0), no crawl cap and every external call
    succeeding, a request for 6 URLs hands out
    [u1; u2; u1; u1; u2; u1] where [u1] and [u2] are the URLs the page
    database has for hashes 1 and 2; afterwards both stored scores are 2.0
    and the frequencies are the ones stored before. *)
Theorem two_pages_interleaving (w : World) (sch : FreqScheduler)
    (p1 p2 : PageInfo) :
  works w ->
  code (error sch) = freq_scheduler_error_ok ->
  schedule sch = [(key 0 1, F32.of_Z 2); (key 0 2, F32.of_Z 1)] ->
  lookup 1 (pages (page_db sch)) = Some p1 ->
  lookup 2 (pages (page_db sch)) = Some p2 ->
  F32.leb F32.zero (margin sch) = false ->
  max_n_crawls sch = 0%N ->
  exists r,
    freq_scheduler_request w sch 6 = Returns r
    /\ r_code r = freq_scheduler_error_ok
    /\ r_request r = Some [url p1; url p2; url p1; url p1; url p2; url p1]
    /\ schedule (r_sch r) = [(key 2 1, F32.of_Z 2); (key 2 2, F32.of_Z 1)].
Proof.
  intros Hw Hok Hs H1 H2 Hm Hn.
  unfold freq_scheduler_request.
  destruct (cursor_open_cases w sch None)
    as [(sch' & _ & _ & Hx)|[(_ & _ & Hx)|(-> & _)]].
  { destruct Hx. apply Hw. }
  { destruct Hw. destruct Hx as [Hx|[Hx|Hx]]; contradiction. }
  rewrite Hok. simpl negb. cbv iota.
  rewrite (works_request_new w Hw). simpl negb. cbv iota.
  unfold request_fuel. rewrite Hs.
  change (S (N.to_nat 6 + List.length [(key 0 1, F32.of_Z 2); (key 0 2, F32.of_Z 1)]))
    with 9%nat.
  pose proof (works_turn w Hw) as Ht.
  pose proof (fun i f pi => throttle_disabled w sch i f pi Hm) as Hth.
  pose proof (fun p => crawl_uncapped sch p Hn) as Hcr.
  erewrite (request_loop_emit w sch 6 _ 0 _ _ _ _ p1);
    [|apply Ht|reflexivity|exact H1|apply Hth|apply Hcr|reflexivity].
  put_now.
  erewrite (request_loop_emit w sch 6 _ 1 _ _ _ _ p2);
    [|apply Ht|reflexivity|exact H2|apply Hth|apply Hcr|reflexivity].
  put_now.
  erewrite (request_loop_emit w sch 6 _ 2 _ _ _ _ p1);
    [|apply Ht|reflexivity|exact H1|apply Hth|apply Hcr|reflexivity].
  put_now.
  erewrite (request_loop_emit w sch 6 _ 3 _ _ _ _ p1);
    [|apply Ht|reflexivity|exact H1|apply Hth|apply Hcr|reflexivity].
  put_now.
  erewrite (request_loop_emit w sch 6 _ 4 _ _ _ _ p2);
    [|apply Ht|reflexivity|exact H2|apply Hth|apply Hcr|reflexivity].
  put_now.
  erewrite (request_loop_emit w sch 6 _ 5 _ _ _ _ p1);
    [|apply Ht|reflexivity|exact H1|apply Hth|apply Hcr|reflexivity].
  put_now.
  simpl request_loop. unfold freq_scheduler_cursor_commit.
  rewrite (works_commit w Hw). simpl. rewrite Hok. simpl.
  eexists. split; [reflexivity|]. simpl.
  split; [reflexivity|]. split; reflexivity.
Qed.

Lemma two_pages_interleaving_witness :
  exists r,
    freq_scheduler_request (calm 0) two_pages 6 = Returns r
    /\ r_code r = freq_scheduler_error_ok
    /\ r_request r = Some ["u1"; "u2"; "u1"; "u1"; "u2"; "u1"]%string
    /\ schedule (r_sch r) = [(key 2 1, F32.of_Z 2); (key 2 2, F32.of_Z 1)].
Proof.
  apply (two_pages_interleaving (calm 0) two_pages
           (page_info "u1" 0 1) (page_info "u2" 0 1)).
  - constructor; intros; try reflexivity. repeat split.
  - reflexivity.
  - reflexivity.
  - reflexivity.
  - reflexivity.
  - reflexivity.
  - reflexivity.
Defined.

(** C1 (as stated).  The order [u1; u1; u2; u1; u1; u2] is not the one the
    request hands out: after the first turn hash 1 stands at score 0.5 and
    hash 2, still at score 0, is the head. *)
Lemma two_pages_claimed_order_fails :
  requested (freq_scheduler_request (calm 0) two_pages 6)
    = Some ["u1"; "u2"; "u1"; "u1"; "u2"; "u1"]%string
  /\ requested (freq_scheduler_request (calm 0) two_pages 6)
    <> Some ["u1"; "u1"; "u2"; "u1"; "u1"; "u2"]%string.
Proof.
  assert (H : requested (freq_scheduler_request (calm 0) two_pages 6)
              = Some ["u1"; "u2"; "u1"; "u1"; "u2"; "u1"]%string)
    by (vm_compute; reflexivity).
  split; [exact H|]. rewrite H. discriminate.
Qed.

(** ** The log of a request *)

Lemma request_step_log (w : World) (sch : FreqScheduler) (i : nat)
    (st : loop_state) :
  log (state_of (request_step w sch i st)) = log st
  \/ exists ev, log (state_of (request_step w sch i st)) = log st ++ [ev]
                /\ sound_event w sch ev.
Proof.
  unfold request_step.
  destruct (cur st) as [|[sk freq] t] eqn:Hc; simpl mdb_first; cbv iota beta.
  - destruct (cursor_get_rc w i =? 0).
    + simpl. auto.
    + destruct (cursor_get_rc w i =? 0); [simpl; auto|].
      destruct (cursor_get_rc w i =? MDB_NOTFOUND); simpl; auto.
  - destruct (cursor_get_rc w i =? 0) eqn:Hg.
    2:{ rewrite Hg. destruct (cursor_get_rc w i =? MDB_NOTFOUND); simpl; auto. }
    simpl (0 =? 0). cbv iota.
    destruct (get_info_rc w i =? 0); simpl negb; cbv iota; [|simpl; auto].
    destruct (throttled w sch i freq _) eqn:Ht.
    { right. eexists. split; [reflexivity|]. exact Ht. }
    destruct (cursor_del_rc w i =? 0); simpl negb; cbv iota; [|simpl; auto].
    destruct (crawl sch _) eqn:Hcr.
    + destruct (lookup (hash sk) (pages (page_db sch))) as [p|] eqn:Hl;
        [|discriminate].
      destruct (add_url_rc w i =? 0); simpl negb; cbv iota; [|simpl; auto].
      assert (Hs : sound_event w sch (Emitted i sk freq (url p))).
      { simpl. rewrite Hl. split; [exact Ht|]. exists p. auto. }
      destruct (cursor_put_rc w i =? 0); simpl negb; cbv iota;
        right; eexists; (split; [reflexivity|exact Hs]).
    + right. eexists. split; [reflexivity|]. simpl. auto.
Qed.

Lemma request_loop_log (w : World) (sch : FreqScheduler) (max_requests : N)
    (fuel : nat) : forall i st,
  Forall (sound_event w sch) (log st) ->
  match request_loop fuel w sch max_requests i st with
  | LoopExit st' | LoopError _ _ st' => Forall (sound_event w sch) (log st')
  | LoopFuel => True
  end.
Proof.
  induction fuel as [|fuel IH]; intros i st Hf; simpl.
  - destruct (N.of_nat (List.length (urls st)) <? max_requests)%N; auto.
  - destruct (N.of_nat (List.length (urls st)) <? max_requests)%N; [|exact Hf].
    assert (Hs : Forall (sound_event w sch)
                   (log (state_of (request_step w sch i st)))).
    { destruct (request_step_log w sch i st) as [->|(ev & -> & Hev)];
        [exact Hf|].
      apply Forall_app. split; [exact Hf|]. constructor; [exact Hev|constructor]. }
    destruct (request_step w sch i st) as [st1|st1|e1 e2 st1]; simpl in Hs.
    + apply IH. exact Hs.
    + exact Hs.
    + exact Hs.
Qed.

(** Every entry of the log of a reply is sound, whatever the status code. *)
Lemma request_log_sound (w : World) (sch : FreqScheduler) (max_requests : N)
    (r : reply) :
  freq_scheduler_request w sch max_requests = Returns r ->
  Forall (sound_event w sch) (r_log r).
Proof.
  unfold freq_scheduler_request.
  destruct (cursor_open_cases w sch None)
    as [(sch' & -> & _ & _)|[(-> & _ & _)|(-> & _)]].
  - simpl. intros H; injection H as <-. constructor.
  - destruct (is_ok (code (error sch))); simpl negb; cbv iota.
    2:{ intros H; injection H as <-. constructor. }
    destruct (request_new_ok w); simpl negb; cbv iota; [discriminate|].
    intros H; injection H as <-. constructor.
  - destruct (is_ok (code (error sch))); simpl negb; cbv iota.
    2:{ intros H; injection H as <-. constructor. }
    destruct (request_new_ok w); simpl negb; cbv iota.
    2:{ intros H; injection H as <-. constructor. }
    pose proof (request_loop_log w sch max_requests
                  (request_fuel sch max_requests) 0
                  {| cur := schedule sch; urls := []; log := [] |}
                  ltac:(constructor)) as Hl.
    destruct (request_loop _ w sch max_requests 0 _) as [st|e1 e2 st|].
    + destruct (freq_scheduler_cursor_commit w sch (cur st)) as [rc sch2].
      destruct (is_ok rc); simpl negb; cbv iota;
        intros H; injection H as <-; exact Hl.
    + intros H; injection H as <-; exact Hl.
    + discriminate.
Qed.

(** The URLs of the request are the ones the log records, in order. *)
Lemma request_step_urls (w : World) (sch : FreqScheduler) (i : nat)
    (st : loop_state) :
  urls st = emitted_urls (log st) ->
  urls (state_of (request_step w sch i st))
  = emitted_urls (log (state_of (request_step w sch i st))).
Proof.
  intros Hu. unfold request_step.
  destruct (cur st) as [|[sk freq] t] eqn:Hc; simpl mdb_first; cbv iota beta.
  - destruct (cursor_get_rc w i =? 0).
    + simpl. auto.
    + destruct (cursor_get_rc w i =? 0); [simpl; auto|].
      destruct (cursor_get_rc w i =? MDB_NOTFOUND); simpl; auto.
  - destruct (cursor_get_rc w i =? 0) eqn:Hg.
    2:{ rewrite Hg. destruct (cursor_get_rc w i =? MDB_NOTFOUND); simpl; auto. }
    simpl (0 =? 0). cbv iota.
    destruct (get_info_rc w i =? 0); simpl negb; cbv iota; [|simpl; auto].
    destruct (throttled w sch i freq _).
    { simpl. rewrite emitted_urls_app. simpl. rewrite app_nil_r. exact Hu. }
    destruct (cursor_del_rc w i =? 0); simpl negb; cbv iota; [|simpl; auto].
    destruct (if crawl sch _ then _ else None) as [p|].
    + destruct (add_url_rc w i =? 0); simpl negb; cbv iota; [|simpl; auto].
      destruct (cursor_put_rc w i =? 0); simpl negb; cbv iota; simpl;
        rewrite emitted_urls_app, Hu; reflexivity.
    + simpl. rewrite emitted_urls_app. simpl. rewrite app_nil_r. exact Hu.
Qed.

Lemma request_loop_urls (w : World) (sch : FreqScheduler) (max_requests : N)
    (fuel : nat) : forall i st,
  urls st = emitted_urls (log st) ->
  match request_loop fuel w sch max_requests i st with
  | LoopExit st' | LoopError _ _ st' => urls st' = emitted_urls (log st')
  | LoopFuel => True
  end.
Proof.
  induction fuel as [|fuel IH]; intros i st Hu; simpl.
  - destruct (N.of_nat (List.length (urls st)) <? max_requests)%N; auto.
  - destruct (N.of_nat (List.length (urls st)) <? max_requests)%N; [|exact Hu].
    pose proof (request_step_urls w sch i st Hu) as Hs.
    destruct (request_step w sch i st) as [st1|st1|e1 e2 st1]; simpl in Hs.
    + apply IH. exact Hs.
    + exact Hs.
    + exact Hs.
Qed.

Lemma request_urls_logged (w : World) (sch : FreqScheduler) (max_requests : N)
    (r : reply) (l : list string) :
  freq_scheduler_request w sch max_requests = Returns r ->
  r_request r = Some l -> l = emitted_urls (r_log r).
Proof.
  unfold freq_scheduler_request.
  destruct (cursor_open_cases w sch None)
    as [(sch' & -> & _ & _)|[(-> & _ & _)|(-> & _)]].
  - simpl. intros H; injection H as <-. discriminate.
  - destruct (is_ok (code (error sch))); simpl negb; cbv iota.
    2:{ intros H; injection H as <-. discriminate. }
    destruct (request_new_ok w); simpl negb; cbv iota; [discriminate|].
    intros H; injection H as <-. discriminate.
  - destruct (is_ok (code (error sch))); simpl negb; cbv iota.
    2:{ intros H; injection H as <-. discriminate. }
    destruct (request_new_ok w); simpl negb; cbv iota.
    2:{ intros H; injection H as <-. discriminate. }
    pose proof (request_loop_urls w sch max_requests
                  (request_fuel sch max_requests) 0
                  {| cur := schedule sch; urls := []; log := [] |}
                  eq_refl) as Hl.
    destruct (request_loop _ w sch max_requests 0 _) as [st|e1 e2 st|].
    + destruct (freq_scheduler_cursor_commit w sch (cur st)) as [rc sch2].
      destruct (is_ok rc); simpl negb; cbv iota;
        intros H; injection H as <-; simpl; intros H; injection H as <-;
        exact Hl.
    + intros H; injection H as <-; simpl; intros H; injection H as <-.
      exact Hl.
    + discriminate.
Qed.

(** ** The throttle *)

(** C3 (as the code has it).  With [margin >= 0]: when the page of the
    head is in the page
    database and [elapsed < 1/(freq*(1+margin))], the turn leaves the table
    and the request as they are (the head is neither deleted nor rescored and
    no URL is added) and the loop ends there, so that nothing more is popped
    in the call; consequently every URL a call hands out for a hash [h] is
    handed out in a turn in which [now - last_crawl(h)] is not below
    [1/(freq*(1+margin))]. *)
Theorem throttle_stops_the_batch (w : World) (sch : FreqScheduler)
    (max_requests : N) :
  F32.leb F32.zero (margin sch) = true ->
  (forall fuel i st sk freq t p,
      cur st = (sk, freq) :: t ->
      cursor_get_rc w i = 0 -> get_info_rc w i = 0 ->
      lookup (hash sk) (pages (page_db sch)) = Some p ->
      F64.ltb (elapsed w i p) (min_interval sch freq) = true ->
      (N.of_nat (List.length (urls st)) < max_requests)%N ->
      request_step w sch i st
      = Interrupt {| cur := cur st; urls := urls st;
                     log := log st ++ [Throttled i sk freq] |}
      /\ request_loop (S fuel) w sch max_requests i st
         = LoopExit {| cur := cur st; urls := urls st;
                       log := log st ++ [Throttled i sk freq] |})
  /\ freq_scheduler_request w sch max_requests <> OutOfFuel
  /\ (forall r l,
        freq_scheduler_request w sch max_requests = Returns r ->
        r_request r = Some l ->
        l = emitted_urls (r_log r)
        /\ forall i k freq u,
             In (Emitted i k freq u) (r_log r) ->
             exists p, lookup (hash k) (pages (page_db sch)) = Some p
                       /\ u = url p
                       /\ F64.ltb (elapsed w i p) (min_interval sch freq)
                          = false).
Proof.
  intros Hm. split; [|split; [apply request_total|]].
  - intros fuel i st sk freq t p Hc Hg Hi Hl Hlt Hn.
    assert (Hs : request_step w sch i st
                 = Interrupt {| cur := cur st; urls := urls st;
                                log := log st ++ [Throttled i sk freq] |}).
    { apply (request_step_throttled w sch i st sk freq t); auto.
      rewrite Hl. unfold throttled. rewrite Hm. exact Hlt. }
    split; [exact Hs|]. simpl.
    apply N.ltb_lt in Hn. rewrite Hn, Hs. reflexivity.
  - intros r l Hr Hq. split.
    + apply (request_urls_logged w sch max_requests r l Hr Hq).
    + intros i k freq u Hin.
      pose proof (request_log_sound w sch max_requests r Hr) as Hf.
      rewrite Forall_forall in Hf. specialize (Hf _ Hin).
      simpl in Hf. destruct Hf as (Ht & p & Hl & _ & Hu).
      exists p. split; [exact Hl|]. split; [exact Hu|].
      rewrite Hl in Ht. unfold throttled in Ht. rewrite Hm in Ht. exact Ht.
Qed.

Lemma throttle_stops_the_batch_witness :
  F32.leb F32.zero (margin one_page_throttled) = true
  /\ request_loop 1 (calm 100) one_page_throttled 10 0
       {| cur := schedule one_page_throttled; urls := []; log := [] |}
     = LoopExit {| cur := schedule one_page_throttled; urls := [];
                   log := [Throttled 0 (key 0 7) (F32.of_Z 1)] |}.
Proof.
  split; [reflexivity|].
  destruct (throttle_stops_the_batch (calm 100) one_page_throttled 10 eq_refl)
    as [H _].
  apply (H 0%nat 0%nat
           {| cur := schedule one_page_throttled; urls := []; log := [] |}
           (key 0 7) (F32.of_Z 1) [] (page_info "u7" 100 1)).
  - reflexivity.
  - reflexivity.
  - reflexivity.
  - reflexivity.
  - vm_compute. reflexivity.
  - reflexivity.
Defined.

(** The whole call on that scheduler: nothing is handed out and the
    scheduler is left as it was. *)
Lemma throttled_head_request :
  freq_scheduler_request (calm 100) one_page_throttled 10
  = Returns {| r_code := freq_scheduler_error_ok;
               r_sch := one_page_throttled;
               r_request := Some [];
               r_log := [Throttled 0 (key 0 7) (F32.of_Z 1)] |}.
Proof. vm_compute. reflexivity. Qed.

(** C3 (as stated).  Margin 0, one page of frequency 1.0 last crawled at
    second 100, the clock at second 101 in every turn.  The page is due:
    101 - 100 is not below 1/(1.0*(1+0)) = 1.  The scheduler reads
    [last_crawl] and never writes it, so the page is due again in the next
    turn: a request for two URLs hands out the URL of hash 7 twice, in two
    successive turns, at one reading of the clock and with one value of
    [last_crawl], which differs from itself by 0, below 1. *)
Lemma same_hash_emitted_twice_within_the_interval :
  F32.leb F32.zero (margin one_page_throttled) = true
  /\ lookup 7 (pages (page_db one_page_throttled))
     = Some (page_info "u7" 100 1)
  /\ min_interval one_page_throttled (F32.of_Z 1) = F64.of_Z 1
  /\ clock (calm 101) 0 = clock (calm 101) 1
  /\ freq_scheduler_request (calm 101) one_page_throttled 2
     = Returns
         {| r_code := freq_scheduler_error_ok;
            r_sch := with_schedule one_page_throttled [(key 2 7, F32.of_Z 1)];
            r_request := Some ["u7"; "u7"]%string;
            r_log := [Emitted 0 (key 0 7) (F32.of_Z 1) "u7";
                      Emitted 1 (key 1 7) (F32.of_Z 1) "u7"] |}
  /\ page_db (with_schedule one_page_throttled [(key 2 7, F32.of_Z 1)])
     = page_db one_page_throttled
  /\ F64.ltb (F64.sub (last_crawl (page_info "u7" 100 1))
                      (last_crawl (page_info "u7" 100 1)))
             (min_interval one_page_throttled (F32.of_Z 1)) = true.
Proof.
  split; [reflexivity|].
  split; [reflexivity|].
  split; [vm_compute; reflexivity|].
  split; [reflexivity|].
  split; [vm_compute; reflexivity|].
  split; [reflexivity|].
  vm_compute. reflexivity.
Qed.

(** ** Hashes stay unique through a request *)

Lemma request_step_unique (w : World) (sch : FreqScheduler) (i : nat)
    (st st' : loop_state) :
  unique_hashes (cur st) -> request_step w sch i st = Next st' ->
  unique_hashes (cur st').
Proof.
  intros Hu Hs. apply request_step_next in Hs.
  destruct Hs as (sk & freq & t & Hc & _ & [(p & _ & _ & ->)|(_ & ->)]);
    rewrite Hc in Hu; apply unique_tail in Hu; destruct Hu as (Hn & Hu); simpl.
  - apply mdb_put_fresh_unique; assumption.
  - exact Hu.
Qed.

Lemma request_loop_unique (w : World) (sch : FreqScheduler) (max_requests : N)
    (fuel i : nat) (st st' : loop_state) :
  unique_hashes (cur st) ->
  request_loop fuel w sch max_requests i st = LoopExit st' ->
  unique_hashes (cur st').
Proof.
  apply (request_loop_invariant w sch max_requests
           (fun s => unique_hashes (cur s))).
  - intros j s s' Hu Hs. eapply request_step_unique; eauto.
  - intros j s s' Hu Hs. apply request_step_interrupt in Hs.
    destruct Hs as (-> & _). exact Hu.
Qed.

(** The table a reply leaves committed: the one before the call, or the one
    the loop left. *)
Lemma request_schedule_cases (w : World) (sch : FreqScheduler)
    (max_requests : N) (r : reply) :
  freq_scheduler_request w sch max_requests = Returns r ->
  schedule (r_sch r) = schedule sch
  \/ exists st,
       request_loop (request_fuel sch max_requests) w sch max_requests 0
         {| cur := schedule sch; urls := []; log := [] |} = LoopExit st
       /\ schedule (r_sch r) = cur st.
Proof.
  unfold freq_scheduler_request.
  destruct (cursor_open_cases w sch None)
    as [(sch' & -> & Hs & _)|[(-> & _ & _)|(-> & _)]].
  - simpl. intros H; injection H as <-. left. simpl.
    rewrite ?on_error_schedule. exact Hs.
  - destruct (is_ok (code (error sch))); simpl negb; cbv iota.
    2:{ intros H; injection H as <-. left. simpl.
        rewrite ?on_error_schedule. reflexivity. }
    destruct (request_new_ok w); simpl negb; cbv iota; [discriminate|].
    intros H; injection H as <-. left. simpl.
    rewrite ?on_error_schedule. reflexivity.
  - destruct (is_ok (code (error sch))) eqn:Hok; simpl negb; cbv iota.
    2:{ intros H; injection H as <-. left. simpl.
        rewrite ?on_error_schedule. reflexivity. }
    destruct (request_new_ok w); simpl negb; cbv iota.
    2:{ intros H; injection H as <-. left. simpl.
        rewrite ?on_error_schedule. reflexivity. }
    destruct (request_loop _ w sch max_requests 0 _) as [st|e1 e2 st|] eqn:Hl.
    + unfold freq_scheduler_cursor_commit.
      destruct (txn_commit_rc w =? 0); simpl negb; cbv iota.
      * simpl. rewrite Hok. simpl. intros H; injection H as <-.
        right. exists st. split; reflexivity.
      * rewrite on_error_code. simpl. intros H; injection H as <-.
        left. simpl. rewrite ?on_error_schedule. reflexivity.
    + intros H; injection H as <-. left. simpl.
      destruct e1, e2; reflexivity.
    + discriminate.
Qed.

Lemma request_unique (w : World) (sch : FreqScheduler) (max_requests : N)
    (r : reply) :
  unique_hashes (schedule sch) ->
  freq_scheduler_request w sch max_requests = Returns r ->
  unique_hashes (schedule (r_sch r)).
Proof.
  intros Hu Hr.
  destruct (request_schedule_cases w sch max_requests r Hr)
    as [->|(st & Hl & ->)]; [exact Hu|].
  eapply request_loop_unique; [|exact Hl]. exact Hu.
Qed.

(** ** Advancing the score *)

Lemma emissions_positive (h : N) (l : list event) :
  (0 < emissions h l)%nat ->
  exists i k f u, In (Emitted i k f u) l /\ hash k = h.
Proof.
  induction l as [|[i k f u|i k f|i k f] l IH]; simpl; intros H.
  - lia.
  - destruct (N.eqb (hash k) h) eqn:E.
    + apply N.eqb_eq in E. exists i, k, f, u. auto.
    + destruct (IH H) as (i' & k' & f' & u' & Hin & Hh).
      exists i', k', f', u'. auto.
  - destruct (IH H) as (i' & k' & f' & u' & Hin & Hh).
    exists i', k', f', u'. auto.
  - destruct (IH H) as (i' & k' & f' & u' & Hin & Hh).
    exists i', k', f', u'. auto.
Qed.

Section Advancing.
Variables (w : World) (sch : FreqScheduler) (max_requests : N).
Variables (k0 : ScheduleKey) (f0 : float) (log0 : list event).
Hypothesis crawl_k0 :
  crawl sch (lookup (hash k0) (pages (page_db sch))) = true.

Lemma advanced_next (i : nat) (st st' : loop_state) :
  advanced k0 f0 log0 st -> request_step w sch i st = Next st' -> advanced k0 f0 log0 st'.
Proof.
  intros (new & Hlog & Hu & Hin) Hs.
  pose proof (request_step_unique w sch i st st' Hu Hs) as Hu'.
  apply request_step_next in Hs.
  destruct Hs as (sk & freq & t & Hc & _ & [(p & Hl & Hcr & ->)|(Hcr & ->)]).
  - exists (new ++ [Emitted i sk freq (url p)]). simpl.
    split; [rewrite Hlog, app_assoc; reflexivity|]. split; [exact Hu'|].
    rewrite emissions_app. simpl.
    rewrite Hc in Hu, Hin. destruct (unique_tail _ _ Hu) as (Hn & _).
    destruct (N.eqb (hash sk) (hash k0)) eqn:E.
    + apply N.eqb_eq in E.
      assert (Heq : (sk, freq)
                    = (Nat.iter (emissions (hash k0) new)
                         (fun k => advance k f0) k0, f0)).
      { apply (unique_in_eq ((sk, freq) :: t)); auto.
        - left; reflexivity.
        - unfold entry_hash. simpl. rewrite iter_advance_hash. exact E. }
      injection Heq as Hk Hf. rewrite Nat.add_1_r. simpl Nat.iter.
      rewrite <- Hk, <- Hf.
      apply mdb_put_fresh_in; [exact Hn | left; reflexivity].
    + apply N.eqb_neq in E. rewrite Nat.add_0_r.
      apply mdb_put_keeps.
      * destruct Hin as [Hin|Hin]; [|exact Hin].
        injection Hin as Hk Hf. exfalso. apply E. rewrite Hk.
        apply iter_advance_hash.
      * unfold entry_hash. simpl. rewrite iter_advance_hash. auto.
  - exists (new ++ [Retired i sk freq]). simpl.
    split; [rewrite Hlog, app_assoc; reflexivity|]. split; [exact Hu'|].
    rewrite emissions_app. simpl. rewrite Nat.add_0_r.
    rewrite Hc in Hin. destruct Hin as [Hin|Hin]; [|exact Hin].
    injection Hin as Hk Hf. exfalso. rewrite Hk in Hcr.
    rewrite iter_advance_hash in Hcr. rewrite crawl_k0 in Hcr. discriminate.
Qed.

Lemma advanced_interrupt (i : nat) (st st' : loop_state) :
  advanced k0 f0 log0 st -> request_step w sch i st = Interrupt st' -> advanced k0 f0 log0 st'.
Proof.
  intros (new & Hlog & Hu & Hin) Hs.
  apply request_step_interrupt in Hs.
  destruct Hs as (Hc & _ & [Hl|(sk & freq & Hl)]).
  - exists new. rewrite Hc, Hl. auto.
  - exists (new ++ [Throttled i sk freq]). rewrite Hc, Hl, Hlog, app_assoc.
    split; [reflexivity|]. split; [exact Hu|].
    rewrite emissions_app. simpl. rewrite Nat.add_0_r. exact Hin.
Qed.

Lemma request_loop_advanced (fuel i : nat) (st st' : loop_state) :
  advanced k0 f0 log0 st ->
  request_loop fuel w sch max_requests i st = LoopExit st' -> advanced k0 f0 log0 st'.
Proof.
  apply (request_loop_invariant w sch max_requests (advanced k0 f0 log0)).
  - exact advanced_next.
  - exact advanced_interrupt.
Qed.
End Advancing.

(** C2 (as the code has it).  When each hash has one row and the row of [h]
    is [(k0, f0)], a request that commits and hands out a URL for [h] leaves
    a row for [h] whose frequency is [f0] and whose score is the score of
    [k0] advanced by [1/f0] once for every URL the call handed out for [h]:
    [score + 1/f0] when it handed out one. *)
Theorem emitted_hash_is_advanced (w : World) (sch : FreqScheduler)
    (max_requests : N) (k0 : ScheduleKey) (f0 : float) :
  unique_hashes (schedule sch) ->
  In (k0, f0) (schedule sch) ->
  freq_scheduler_request w sch max_requests <> OutOfFuel
  /\ forall r,
       freq_scheduler_request w sch max_requests = Returns r ->
       r_code r = freq_scheduler_error_ok ->
       (0 < emissions (hash k0) (r_log r))%nat ->
       In (Nat.iter (emissions (hash k0) (r_log r))
                    (fun k => advance k f0) k0, f0)
          (schedule (r_sch r))
       /\ unique_hashes (schedule (r_sch r))
       /\ (emissions (hash k0) (r_log r) = 1%nat ->
           In ({| score := F64.add (score k0)
                             (F64.div F64.one (F32.to_double f0));
                  hash := hash k0 |}, f0)
              (schedule (r_sch r))).
Proof.
  intros Hu Hin. split; [apply request_total|].
  intros r Hr Hok Hpos.
  pose proof (request_log_sound w sch max_requests r Hr) as Hsound.
  destruct (emissions_positive _ _ Hpos) as (i & k & f & u & Hev & Hh).
  rewrite Forall_forall in Hsound. specialize (Hsound _ Hev).
  cbn [sound_event] in Hsound.
  destruct Hsound as (_ & p & Hl & Hcr & _).
  assert (Hc0 : crawl sch (lookup (hash k0) (pages (page_db sch))) = true).
  { rewrite <- Hh, Hl. exact Hcr. }
  destruct (request_ok_inv w sch max_requests r Hr Hok)
    as (st & Hloop & Hsch & _ & Hlog & _).
  assert (Ha : advanced k0 f0 [] st).
  { apply (request_loop_advanced w sch max_requests k0 f0 [] Hc0
             (request_fuel sch max_requests) 0%nat
             {| cur := schedule sch; urls := []; log := [] |} st);
      [|exact Hloop].
    exists []. simpl. auto. }
  destruct Ha as (new & Hnew & Hu' & Hin'). simpl in Hnew.
  rewrite Hlog, Hnew, Hsch. simpl.
  split; [exact Hin'|]. split; [exact Hu'|].
  intros H1. rewrite H1 in Hin'. exact Hin'.
Qed.

Lemma emitted_hash_is_advanced_witness :
  unique_hashes (schedule one_page)
  /\ In (key 0 1, F32.of_Z 1) (schedule one_page)
  /\ freq_scheduler_request (calm 0) one_page 2 = Returns one_page_twice
  /\ emissions 1 (r_log one_page_twice) = 2%nat
  /\ In (key 2 1, F32.of_Z 1) (schedule (r_sch one_page_twice)).
Proof.
  assert (Hu : unique_hashes (schedule one_page)).
  { repeat constructor. simpl. tauto. }
  assert (Hin : In (key 0 1, F32.of_Z 1) (schedule one_page)).
  { left. reflexivity. }
  assert (Hr : freq_scheduler_request (calm 0) one_page 2
               = Returns one_page_twice).
  { vm_compute. reflexivity. }
  assert (Hpos : (0 < emissions (hash (key 0 1)) (r_log one_page_twice))%nat).
  { simpl. lia. }
  split; [exact Hu|]. split; [exact Hin|]. split; [exact Hr|].
  split; [reflexivity|].
  exact (proj1 (proj2 (emitted_hash_is_advanced (calm 0) one_page 2
                         (key 0 1) (F32.of_Z 1) Hu Hin)
                  one_page_twice Hr eq_refl Hpos)).
Defined.

(** C2 (as stated).  One page at frequency 1.0 and score 0, a request for 2
    URLs: the page is handed out twice in the call and its stored score is
    2.0 afterwards, not 0 + 1/1.0 = 1.0. *)
Lemma twice_emitted_score :
  requested (freq_scheduler_request (calm 0) one_page 2)
    = Some ["u1"; "u1"]%string
  /\ committed (freq_scheduler_request (calm 0) one_page 2)
     = Some [(key 2 1, F32.of_Z 1)]
  /\ score (advance (key 0 1) (F32.of_Z 1)) = F64.of_Z 1
  /\ F64.of_Z 2 <> F64.of_Z 1.
Proof.
  split; [vm_compute; reflexivity|].
  split; [vm_compute; reflexivity|].
  split; [vm_compute; reflexivity|].
  vm_compute. discriminate.
Qed.

(** ** Retiring a page *)

Lemma retired_absent_next (w : World) (sch : FreqScheduler) (i : nat)
    (st st' : loop_state) :
  retired_absent st -> request_step w sch i st = Next st' ->
  retired_absent st'.
Proof.
  intros (Hu & Ha) Hs.
  pose proof (request_step_unique w sch i st st' Hu Hs) as Hu'.
  split; [exact Hu'|].
  apply request_step_next in Hs.
  destruct Hs as (sk & freq & t & Hc & _ & [(p & _ & _ & ->)|(_ & ->)]);
    simpl; intros j k f Hin; apply in_app_or in Hin;
    rewrite Hc in Ha, Hu; destruct (unique_tail _ _ Hu) as (Hn & _).
  - destruct Hin as [Hin|[Hin|[]]]; [|discriminate].
    specialize (Ha _ _ _ Hin). simpl in Ha.
    intros Hx. apply mdb_put_hashes_incl in Hx. simpl in Hx.
    unfold entry_hash in Ha. simpl in Ha.
    destruct Hx as [Hx|Hx]; apply Ha; auto.
  - destruct Hin as [Hin|[Hin|[]]].
    + specialize (Ha _ _ _ Hin). simpl in Ha. tauto.
    + injection Hin as _ <- _. exact Hn.
Qed.

Lemma retired_absent_interrupt (w : World) (sch : FreqScheduler) (i : nat)
    (st st' : loop_state) :
  retired_absent st -> request_step w sch i st = Interrupt st' ->
  retired_absent st'.
Proof.
  intros (Hu & Ha) Hs. apply request_step_interrupt in Hs.
  destruct Hs as (Hc & _ & [Hl|(sk & freq & Hl)]);
    unfold retired_absent; rewrite Hc, Hl; split; auto.
  intros j k f Hin. apply in_app_or in Hin.
  destruct Hin as [Hin|[Hin|[]]]; [eauto | discriminate].
Qed.

(** C4 (as the code has it).  [crawl] is false for a missing page and
    [(max_n_crawls == 0) || (n_crawls < max_n_crawls)] otherwise.  For a head
    that is not throttled, in a turn whose calls succeed: when [crawl] holds
    the URL of the page is appended and the row is entered again under the
    advanced key; when it does not, the row is deleted and nothing is
    appended.  When each hash had one row before the call and the call
    commits, a hash retired in the call is in no row of the schedule
    afterwards and no URL was handed out for it in the call. *)
Theorem crawl_decides_reinsertion (w : World) (sch : FreqScheduler)
    (max_requests : N) :
  crawl sch None = false
  /\ (forall p, crawl sch (Some p)
                = (max_n_crawls sch =? 0)%N
                  || (n_crawls p <? max_n_crawls sch)%N)
  /\ (forall i st sk freq t,
        cur st = (sk, freq) :: t -> turn_ok w i ->
        throttled w sch i freq (lookup (hash sk) (pages (page_db sch))) = false ->
        (crawl sch (lookup (hash sk) (pages (page_db sch))) = true ->
         exists p,
           lookup (hash sk) (pages (page_db sch)) = Some p
           /\ request_step w sch i st
              = Next {| cur := mdb_put (advance sk freq) freq t;
                        urls := urls st ++ [url p];
                        log := log st ++ [Emitted i sk freq (url p)] |})
        /\ (crawl sch (lookup (hash sk) (pages (page_db sch))) = false ->
            request_step w sch i st
            = Next {| cur := t; urls := urls st;
                      log := log st ++ [Retired i sk freq] |}))
  /\ freq_scheduler_request w sch max_requests <> OutOfFuel
  /\ (forall r i k f,
        unique_hashes (schedule sch) ->
        freq_scheduler_request w sch max_requests = Returns r ->
        r_code r = freq_scheduler_error_ok ->
        In (Retired i k f) (r_log r) ->
        ~ In (hash k) (hashes (schedule (r_sch r)))
        /\ emissions (hash k) (r_log r) = 0%nat).
Proof.
  split; [reflexivity|]. split; [reflexivity|].
  split; [|split; [apply request_total|]].
  - intros i st sk freq t Hc Hw Ht. split.
    + intros Hcr.
      destruct (lookup (hash sk) (pages (page_db sch))) as [p|] eqn:Hl;
        [|discriminate].
      exists p. split; [reflexivity|].
      apply request_step_emit; auto.
    + intros Hcr. destruct Hw as (Hg & Hi & Hd & _).
      apply request_step_retire; auto.
  - intros r i k f Hu Hr Hok Hin.
    destruct (request_ok_inv w sch max_requests r Hr Hok)
      as (st & Hloop & Hsch & _ & Hlog & _).
    assert (Hq : retired_absent st).
    { apply (request_loop_invariant w sch max_requests retired_absent
               (retired_absent_next w sch) (retired_absent_interrupt w sch)
               (request_fuel sch max_requests) 0%nat
               {| cur := schedule sch; urls := []; log := [] |} st);
        [|exact Hloop].
      split; [exact Hu|]. simpl. intros ? ? ? []. }
    rewrite Hlog in Hin |- *. rewrite Hsch. simpl. split.
    + apply (proj2 Hq i k f Hin).
    + pose proof (request_log_sound w sch max_requests r Hr) as Hs.
      rewrite Hlog in Hs. rewrite Forall_forall in Hs.
      destruct (emissions (hash k) (log st)) as [|n] eqn:He; [reflexivity|].
      exfalso.
      destruct (emissions_positive (hash k) (log st) ltac:(lia))
        as (j & k' & f' & u & Hev & Hh).
      pose proof (Hs _ Hev) as He1. pose proof (Hs _ Hin) as He2.
      cbn [sound_event] in He1, He2. destruct He1 as (_ & p & Hl & Hcr & _).
      destruct He2 as (_ & Hcr'). rewrite <- Hh, Hl, Hcr in Hcr'.
      discriminate.
Qed.

Lemma crawl_decides_reinsertion_witness :
  cur {| cur := [(key 0 1, F32.of_Z 1)]; urls := []; log := [] |}
    = [(key 0 1, F32.of_Z 1)]
  /\ turn_ok (calm 0) 0
  /\ request_step (calm 0) (with_max_n_crawls one_page 1) 0
       {| cur := [(key 0 1, F32.of_Z 1)]; urls := []; log := [] |}
     = Next {| cur := []; urls := [];
               log := [Retired 0 (key 0 1) (F32.of_Z 1)] |}.
Proof.
  assert (Hw : turn_ok (calm 0) 0) by (repeat split).
  split; [reflexivity|]. split; [exact Hw|].
  destruct (crawl_decides_reinsertion (calm 0) (with_max_n_crawls one_page 1) 1)
    as (_ & _ & H & _).
  apply (H 0%nat {| cur := [(key 0 1, F32.of_Z 1)]; urls := []; log := [] |}
           (key 0 1) (F32.of_Z 1) [] eq_refl Hw eq_refl).
  reflexivity.
Defined.

(** C4 (as stated).  Reached through the interface: load, request, load
    again and a second crawl of page 1 leave two rows for hash 1; the next
    request retires the first of them at the cap and stops after handing out
    the URL of hash 2, so hash 1 is still scheduled after the commit. *)
Lemma retired_hash_still_scheduled :
  freq_scheduler_load_simple (calm 0) capped (F32.of_Z 1) F32.zero
    = Returns (freq_scheduler_error_ok,
               with_schedule capped
                 [(key 0 1, F32.of_Z 1); (key 0 2, F32.of_Z 1)])
  /\ committed (freq_scheduler_request (calm 0)
                  (with_schedule capped
                     [(key 0 1, F32.of_Z 1); (key 0 2, F32.of_Z 1)]) 1)
     = Some [(key 0 2, F32.of_Z 1); (key 1 1, F32.of_Z 1)]
  /\ freq_scheduler_load_simple (calm 0)
       (with_schedule capped [(key 0 2, F32.of_Z 1); (key 1 1, F32.of_Z 1)])
       (F32.of_Z 1) F32.zero
     = Returns (freq_scheduler_error_ok,
                with_schedule capped
                  [(key 0 1, F32.of_Z 1); (key 0 2, F32.of_Z 1);
                   (key 1 1, F32.of_Z 1)])
  /\ freq_scheduler_add (world 0 0 (fun _ _ => (0, first_crawled_again)) 50)
       (with_schedule capped
          [(key 0 1, F32.of_Z 1); (key 0 2, F32.of_Z 1); (key 1 1, F32.of_Z 1)])
       {| cp_url := "u1"; cp_time := F64.of_Z 50 |}
     = (freq_scheduler_error_ok,
        with_page_db
          (with_schedule capped
             [(key 0 1, F32.of_Z 1); (key 0 2, F32.of_Z 1);
              (key 1 1, F32.of_Z 1)])
          first_crawled_again)
  /\ freq_scheduler_request (calm 60)
       (with_page_db
          (with_schedule capped
             [(key 0 1, F32.of_Z 1); (key 0 2, F32.of_Z 1);
              (key 1 1, F32.of_Z 1)])
          first_crawled_again) 1
     = Returns
         {| r_code := freq_scheduler_error_ok;
            r_sch := with_page_db
                       (with_schedule capped
                          [(key 1 1, F32.of_Z 1); (key 1 2, F32.of_Z 1)])
                       first_crawled_again;
            r_request := Some ["u2"%string];
            r_log := [Retired 0 (key 0 1) (F32.of_Z 1);
                      Emitted 1 (key 0 2) (F32.of_Z 1) "u2"] |}
  /\ In 1%N (hashes [(key 1 1, F32.of_Z 1); (key 1 2, F32.of_Z 1)]).
Proof.
  split; [vm_compute; reflexivity|].
  split; [vm_compute; reflexivity|].
  split; [vm_compute; reflexivity|].
  split; [vm_compute; reflexivity|].
  split; [vm_compute; reflexivity|].
  left. reflexivity.
Qed.

(** ** Loading and the uniqueness of hashes *)

Lemma cmp_zero (h : N) (k : ScheduleKey) :
  score k = F64.zero ->
  schedule_entry_mdb_cmp_asc {| score := F64.zero; hash := h |} k
  = N.compare h (hash k).
Proof.
  intros H. unfold schedule_entry_mdb_cmp_asc. simpl. rewrite H. reflexivity.
Qed.

Lemma mdb_put_zero_hd (h a : N) (v : float) (t : table) :
  Forall (fun e => score (fst e) = F64.zero) t ->
  HdRel N.lt a (hashes t) -> (a < h)%N ->
  HdRel N.lt a (hashes (mdb_put {| score := F64.zero; hash := h |} v t)).
Proof.
  intros Hz Hr Hlt. destruct t as [|[k' v'] t]; simpl.
  - constructor. exact Hlt.
  - inversion Hz as [|x l Hx Hl]; subst. simpl in Hx. rewrite (cmp_zero h k' Hx).
    inversion Hr; subst. unfold entry_hash in *. simpl in *.
    destruct (N.compare_spec h (hash k')); simpl; constructor; auto.
Qed.

Lemma mdb_put_unadvanced (h : N) (v : float) (t : table) :
  unadvanced t ->
  unadvanced (mdb_put {| score := F64.zero; hash := h |} v t).
Proof.
  unfold unadvanced. induction t as [|[k' v'] t IH]; simpl; intros (Hz & Hs).
  - split; repeat constructor.
  - inversion Hz as [|x l Hx Hl]; subst. simpl in Hx.
    inversion Hs as [|x l Hs' Hr]; subst.
    rewrite (cmp_zero h k' Hx).
    destruct (N.compare_spec h (hash k')) as [E|E|E]; simpl.
    + split; [constructor; auto|]. constructor; auto.
    + split; [constructor; auto|]. constructor; [exact Hs|].
      constructor. exact E.
    + destruct (IH (conj Hl Hs')) as (Hz' & Hs'').
      split; [constructor; auto|]. constructor; [exact Hs''|].
      apply mdb_put_zero_hd; auto.
Qed.

Lemma unadvanced_unique (t : table) : unadvanced t -> unique_hashes t.
Proof.
  intros (_ & Hs). unfold unique_hashes.
  apply Sorted_StronglySorted in Hs; [|exact N.lt_trans].
  induction Hs as [|a l Hs IH Hf]; constructor; [|exact IH].
  intros Hin. rewrite Forall_forall in Hf. specialize (Hf _ Hin).
  apply (N.lt_irrefl a Hf).
Qed.

(** *** An invariant of the table through freq_scheduler_load_simple *)

Section LoadInvariant.
Variables (w : World) (freq_default freq_scale : float).
Variable P : table -> Prop.
Hypothesis P_put : forall h pi t,
  P t ->
  F32.leb (page_freq freq_default freq_scale pi) F32.zero = false ->
  P (mdb_put {| score := F64.zero; hash := h |}
             (page_freq freq_default freq_scale pi) t).

Lemma load_simple_loop_invariant (st : list (N * PageInfo)) :
  forall sch i t b sch' c,
    P t ->
    load_simple_loop w sch freq_default freq_scale i st (Some t)
      = Returns (b, sch', c) ->
    schedule sch' = schedule sch /\ exists t', c = Some t' /\ P t'.
Proof.
  induction st as [|[h pi] st IH]; simpl; intros sch i t b sch' c Hu.
  - intros H; injection H as _ <- <-. split; [reflexivity|]. eauto.
  - destruct (schedulable sch pi); [|apply IH; exact Hu].
    unfold freq_scheduler_cursor_write.
    destruct (F32.leb (page_freq freq_default freq_scale pi) F32.zero) eqn:Hf.
    + simpl. apply IH. exact Hu.
    + destruct (cursor_put_rc w i =? 0); simpl negb; cbv iota.
      * destruct (is_ok (code (error sch))); simpl negb; cbv iota.
        -- apply IH. apply P_put; assumption.
        -- intros H; injection H as _ <- <-. split; [reflexivity|].
           eexists. split; [reflexivity|]. apply P_put; assumption.
      * rewrite on_error_code. simpl.
        intros H; injection H as _ <- <-.
        split; [apply on_error_schedule|]. eauto.
Qed.

(** Without a cursor the stream loop writes nothing. *)
Lemma load_simple_loop_null (st : list (N * PageInfo)) :
  forall sch i b sch' c,
    load_simple_loop w sch freq_default freq_scale i st None
      = Returns (b, sch', c) ->
    sch' = sch /\ c = None.
Proof.
  induction st as [|[h pi] st IH]; simpl; intros sch i b sch' c.
  - intros H; injection H as _ <- <-. auto.
  - destruct (schedulable sch pi); [|apply IH].
    unfold freq_scheduler_cursor_write.
    destruct (F32.leb _ F32.zero); [|discriminate].
    simpl. apply IH.
Qed.

Lemma load_simple_invariant (sch : FreqScheduler) (c : FreqSchedulerError)
    (sch' : FreqScheduler) :
  P (schedule sch) ->
  freq_scheduler_load_simple w sch freq_default freq_scale = Returns (c, sch') ->
  P (schedule sch').
Proof.
  intros Hu. unfold freq_scheduler_load_simple.
  destruct (stream_new_rc w =? 0); simpl negb; cbv iota.
  2:{ intros H; injection H as _ <-. rewrite on_error_schedule. exact Hu. }
  destruct (cursor_open_cases w sch None)
    as [(sch1 & -> & Hs & _)|[(-> & _ & _)|(-> & _)]].
  - simpl. intros H; injection H as _ <-. rewrite ?on_error_schedule, Hs.
    exact Hu.
  - destruct (is_ok (code (error sch))); simpl negb; cbv iota.
    2:{ intros H; injection H as _ <-. rewrite ?on_error_schedule. exact Hu. }
    destruct (load_simple_loop w sch freq_default freq_scale 0
                (stream_items w (page_db sch)) None)
      as [[[b sch2] c2]| |] eqn:Hl; try discriminate.
    destruct (load_simple_loop_null _ _ _ _ _ _ Hl) as (-> & ->).
    destruct b.
    + destruct (stream_error_at w); [|discriminate].
      intros H; injection H as _ <-. rewrite ?on_error_schedule. exact Hu.
    + intros H; injection H as _ <-. rewrite ?on_error_schedule. exact Hu.
  - destruct (is_ok (code (error sch))); simpl negb; cbv iota.
    2:{ intros H; injection H as _ <-. rewrite ?on_error_schedule. exact Hu. }
    destruct (load_simple_loop w sch freq_default freq_scale 0
                (stream_items w (page_db sch)) (Some (schedule sch)))
      as [[[b sch2] c2]| |] eqn:Hl; try discriminate.
    destruct (load_simple_loop_invariant _ _ _ _ _ _ _ Hu Hl)
      as (Hs2 & t' & -> & Hu').
    destruct b.
    + destruct (stream_error_at w).
      * intros H; injection H as _ <-. rewrite ?on_error_schedule, Hs2.
        exact Hu.
      * unfold freq_scheduler_cursor_commit.
        destruct (txn_commit_rc w =? 0); simpl negb; cbv iota.
        -- simpl. destruct (is_ok (code (error sch2))); simpl negb; cbv iota;
             intros H; injection H as _ <-; rewrite ?on_error_schedule;
             simpl; auto.
        -- rewrite on_error_code. simpl. intros H; injection H as _ <-.
           rewrite ?on_error_schedule, Hs2. exact Hu.
    + intros H; injection H as _ <-. rewrite ?on_error_schedule, Hs2. exact Hu.
Qed.
End LoadInvariant.

Lemma load_simple_unadvanced (w : World) (sch : FreqScheduler)
    (freq_default freq_scale : float) (c : FreqSchedulerError)
    (sch' : FreqScheduler) :
  unadvanced (schedule sch) ->
  freq_scheduler_load_simple w sch freq_default freq_scale = Returns (c, sch') ->
  unadvanced (schedule sch').
Proof.
  apply (load_simple_invariant w freq_default freq_scale unadvanced).
  intros h pi t Hu _. apply mdb_put_unadvanced. exact Hu.
Qed.

(** The array loop enters one new row for every element when the hashes of
    the array are pairwise distinct and none of them is in the table. *)
Lemma load_mmap_loop_unique (w : World) (fs : list PageFreq) :
  forall i t,
    unique_hashes t ->
    NoDup (map pf_hash fs) ->
    (forall h, In h (map pf_hash fs) -> ~ In h (hashes t)) ->
    unique_hashes (snd (load_mmap_loop w i fs t)).
Proof.
  induction fs as [|f fs IH]; simpl; intros i t Hu Hn Hd; [exact Hu|].
  destruct (cursor_put_rc w i =? 0); simpl negb; cbv iota; [|exact Hu].
  inversion Hn as [|x l Hx Hl]; subst.
  apply IH.
  - apply mdb_put_fresh_unique; [|exact Hu]. simpl. apply Hd. left; reflexivity.
  - exact Hl.
  - intros h Hin Hp. apply mdb_put_hashes_incl in Hp. simpl in Hp.
    destruct Hp as [Hp|Hp].
    + subst h. contradiction.
    + apply (Hd h); [right; exact Hin | exact Hp].
Qed.

Lemma load_mmap_unique (w : World) (sch : FreqScheduler) (freqs : MMapArray)
    (c : FreqSchedulerError) (sch' : FreqScheduler) :
  unique_hashes (schedule sch) ->
  NoDup (map pf_hash (elements freqs)) ->
  (forall h, In h (map pf_hash (elements freqs)) ->
             ~ In h (hashes (schedule sch))) ->
  freq_scheduler_load_mmap w sch freqs = Returns (c, sch') ->
  unique_hashes (schedule sch').
Proof.
  intros Hu Hn Hd. unfold freq_scheduler_load_mmap.
  destruct (txn_expand_rc w _ =? 0); simpl negb; cbv iota.
  2:{ intros H; injection H as _ <-. rewrite on_error_schedule. exact Hu. }
  destruct (cursor_open_cases w sch None)
    as [(sch1 & -> & Hs & _)|[(-> & _ & _)|(-> & _)]].
  - simpl. intros H; injection H as _ <-. rewrite ?on_error_schedule, Hs.
    exact Hu.
  - destruct (is_ok (code (error sch))); simpl negb; cbv iota; [discriminate|].
    intros H; injection H as _ <-. rewrite ?on_error_schedule. exact Hu.
  - destruct (is_ok (code (error sch))) eqn:Hok; simpl negb; cbv iota.
    2:{ intros H; injection H as _ <-. rewrite ?on_error_schedule. exact Hu. }
    pose proof (load_mmap_loop_unique w (elements freqs) 0 (schedule sch)
                  Hu Hn Hd) as Hl.
    destruct (load_mmap_loop w 0 (elements freqs) (schedule sch))
      as [mdb_rc t']. simpl in Hl.
    destruct (mdb_rc =? 0); simpl negb; cbv iota.
    2:{ intros H; injection H as _ <-. rewrite on_error_schedule. exact Hu. }
    unfold freq_scheduler_cursor_commit.
    destruct (txn_commit_rc w =? 0); simpl negb; cbv iota.
    + simpl. rewrite Hok. simpl. intros H; injection H as _ <-. exact Hl.
    + rewrite on_error_code. simpl. intros H; injection H as _ <-.
      rewrite ?on_error_schedule. exact Hu.
Qed.

(** C6 (as the code has it).  Each hash occurs in at most one row after
    [freq_scheduler_request] when that held before the call; after
    [freq_scheduler_load_simple] when no row of the schedule had its score
    advanced before the call (every score 0, as a load leaves them); after
    [freq_scheduler_load_mmap] when that held before the call and the hashes
    of the array are pairwise distinct and not scheduled yet. *)
Theorem hashes_stay_unique (w : World) (sch : FreqScheduler) :
  (forall max_requests,
      freq_scheduler_request w sch max_requests <> OutOfFuel
      /\ forall r,
           unique_hashes (schedule sch) ->
           freq_scheduler_request w sch max_requests = Returns r ->
           unique_hashes (schedule (r_sch r)))
  /\ (forall freq_default freq_scale c sch',
        unadvanced (schedule sch) ->
        freq_scheduler_load_simple w sch freq_default freq_scale
          = Returns (c, sch') ->
        unadvanced (schedule sch') /\ unique_hashes (schedule sch'))
  /\ (forall freqs c sch',
        unique_hashes (schedule sch) ->
        NoDup (map pf_hash (elements freqs)) ->
        (forall h, In h (map pf_hash (elements freqs)) ->
                   ~ In h (hashes (schedule sch))) ->
        freq_scheduler_load_mmap w sch freqs = Returns (c, sch') ->
        unique_hashes (schedule sch')).
Proof.
  split; [|split].
  - intros max_requests. split; [apply request_total|].
    intros r Hu Hr. exact (request_unique w sch max_requests r Hu Hr).
  - intros fd fs c sch' Hu Hl.
    pose proof (load_simple_unadvanced w sch fd fs c sch' Hu Hl) as H.
    split; [exact H | apply unadvanced_unique; exact H].
  - intros freqs c sch' Hu Hn Hd Hl.
    exact (load_mmap_unique w sch freqs c sch' Hu Hn Hd Hl).
Qed.

Lemma hashes_stay_unique_witness :
  unadvanced (schedule (scheduler two_crawled []))
  /\ freq_scheduler_load_simple (calm 0) (scheduler two_crawled [])
       (F32.of_Z 1) F32.zero
     = Returns (freq_scheduler_error_ok,
                with_schedule (scheduler two_crawled [])
                  [(key 0 1, F32.of_Z 1); (key 0 2, F32.of_Z 1)])
  /\ unique_hashes [(key 0 1, F32.of_Z 1); (key 0 2, F32.of_Z 1)].
Proof.
  assert (Hu : unadvanced (schedule (scheduler two_crawled []))).
  { split; constructor. }
  assert (Hl : freq_scheduler_load_simple (calm 0) (scheduler two_crawled [])
                 (F32.of_Z 1) F32.zero
               = Returns (freq_scheduler_error_ok,
                          with_schedule (scheduler two_crawled [])
                            [(key 0 1, F32.of_Z 1); (key 0 2, F32.of_Z 1)])).
  { vm_compute. reflexivity. }
  split; [exact Hu|]. split; [exact Hl|].
  destruct (hashes_stay_unique (calm 0) (scheduler two_crawled []))
    as (_ & H & _).
  exact (proj2 (H (F32.of_Z 1) F32.zero _ _ Hu Hl)).
Defined.

(** C6 (as stated).  A load, a request for one URL and a second load: the
    request moved hash 1 to score 1.0, the second load enters it again at
    score 0, and hash 1 is in two rows of the committed schedule. *)
Lemma reload_duplicates_hash :
  freq_scheduler_load_simple (calm 0) (scheduler two_crawled [])
    (F32.of_Z 1) F32.zero
  = Returns (freq_scheduler_error_ok,
             with_schedule (scheduler two_crawled [])
               [(key 0 1, F32.of_Z 1); (key 0 2, F32.of_Z 1)])
  /\ freq_scheduler_request (calm 0)
       (with_schedule (scheduler two_crawled [])
          [(key 0 1, F32.of_Z 1); (key 0 2, F32.of_Z 1)]) 1
     = Returns
         {| r_code := freq_scheduler_error_ok;
            r_sch := with_schedule (scheduler two_crawled [])
                       [(key 0 2, F32.of_Z 1); (key 1 1, F32.of_Z 1)];
            r_request := Some ["u1"%string];
            r_log := [Emitted 0 (key 0 1) (F32.of_Z 1) "u1"] |}
  /\ freq_scheduler_load_simple (calm 0)
       (with_schedule (scheduler two_crawled [])
          [(key 0 2, F32.of_Z 1); (key 1 1, F32.of_Z 1)])
       (F32.of_Z 1) F32.zero
     = Returns (freq_scheduler_error_ok,
                with_schedule (scheduler two_crawled [])
                  [(key 0 1, F32.of_Z 1); (key 0 2, F32.of_Z 1);
                   (key 1 1, F32.of_Z 1)])
  /\ hashes [(key 0 1, F32.of_Z 1); (key 0 2, F32.of_Z 1);
             (key 1 1, F32.of_Z 1)] = [1; 2; 1]%N
  /\ ~ unique_hashes [(key 0 1, F32.of_Z 1); (key 0 2, F32.of_Z 1);
                      (key 1 1, F32.of_Z 1)].
Proof.
  split; [vm_compute; reflexivity|].
  split; [vm_compute; reflexivity|].
  split; [vm_compute; reflexivity|].
  split; [reflexivity|].
  unfold unique_hashes. simpl. intros H.
  inversion H as [|x l Hx Hl]; subst. apply Hx. right. left. reflexivity.
Qed.

(** ** freq_scheduler_load_simple when no call fails *)

Lemma not_leb_zero (f : float) :
  negb (F32.leb f F32.zero) = F32.ltb F32.zero f || F32.is_nan f.
Proof. destruct f as [s|s| |s m e]; try destruct s; reflexivity. Qed.

Lemma load_simple_loop_works (w : World) (sch : FreqScheduler)
    (freq_default freq_scale : float) (st : list (N * PageInfo)) :
  (forall i, cursor_put_rc w i = 0) ->
  code (error sch) = freq_scheduler_error_ok ->
  forall i t,
    load_simple_loop w sch freq_default freq_scale i st (Some t)
    = Returns (true, sch,
               Some (fold_left (load_simple_row sch freq_default freq_scale)
                               st t)).
Proof.
  intros Hp Hok. induction st as [|[h pi] st IH]; simpl; intros i t;
    [reflexivity|].
  unfold load_simple_row at 2. simpl fst. simpl snd.
  rewrite <- not_leb_zero.
  destruct (schedulable sch pi); simpl andb; cbv iota; [|apply IH].
  unfold freq_scheduler_cursor_write.
  destruct (F32.leb (page_freq freq_default freq_scale pi) F32.zero);
    simpl negb; cbv iota.
  - simpl. apply IH.
  - rewrite Hp. simpl. rewrite Hok. simpl. apply IH.
Qed.

Lemma load_simple_works (w : World) (sch : FreqScheduler)
    (freq_default freq_scale : float) :
  works w ->
  code (error sch) = freq_scheduler_error_ok ->
  freq_scheduler_load_simple w sch freq_default freq_scale
  = Returns (freq_scheduler_error_ok,
             with_schedule sch
               (fold_left (load_simple_row sch freq_default freq_scale)
                          (pages (page_db sch)) (schedule sch))).
Proof.
  intros Hw Hok. unfold freq_scheduler_load_simple.
  rewrite (works_stream_new w Hw). simpl negb. cbv iota.
  destruct (cursor_open_cases w sch None)
    as [(sch' & _ & _ & Hx)|[(_ & _ & Hx)|(-> & _)]].
  { destruct Hx. apply Hw. }
  { destruct Hw. destruct Hx as [Hx|[Hx|Hx]]; contradiction. }
  rewrite Hok. simpl negb. cbv iota.
  unfold stream_items. rewrite (works_stream_ends w Hw).
  rewrite load_simple_loop_works;
    [|intros i; apply (works_turn w Hw i)|exact Hok].
  unfold freq_scheduler_cursor_commit.
  rewrite (works_commit w Hw). simpl. rewrite Hok. reflexivity.
Qed.

(** C7 (as the code has it).  When no call fails,
    [freq_scheduler_load_simple] goes through the pages of the stream in
    order and enters [(score = 0, hash) -> freq] for the pages with
    [n_crawls > 0], under the crawl cap and not seeds, where [freq] is
    [freq_scale * rate] when both are above 0 and [freq_default] otherwise,
    and only when [freq <= 0] is false, that is when [freq > 0] or [freq] is
    not a number; every other page leaves the table as it is. *)
Theorem load_simple_enters_schedulable_pages (w : World) (sch : FreqScheduler)
    (freq_default freq_scale : float) :
  works w ->
  code (error sch) = freq_scheduler_error_ok ->
  freq_scheduler_load_simple w sch freq_default freq_scale
  = Returns (freq_scheduler_error_ok,
             with_schedule sch
               (fold_left
                  (fun t x =>
                     let freq :=
                       if F32.ltb F32.zero freq_scale
                          && F32.ltb F32.zero (page_info_rate (snd x))
                       then F32.mul freq_scale (page_info_rate (snd x))
                       else freq_default in
                     if (0 <? n_crawls (snd x))%N
                        && ((max_n_crawls sch =? 0)%N
                            || (n_crawls (snd x) <? max_n_crawls sch)%N)
                        && negb (page_info_is_seed (snd x))
                        && (F32.ltb F32.zero freq || F32.is_nan freq)
                     then mdb_put {| score := F64.zero; hash := fst x |} freq t
                     else t)
                  (pages (page_db sch)) (schedule sch))).
Proof.
  intros Hw Hok. rewrite (load_simple_works w sch _ _ Hw Hok).
  f_equal. f_equal. f_equal.
  generalize (schedule sch) as t.
  induction (pages (page_db sch)) as [|[h pi] st IH]; intros t; simpl;
    [reflexivity|].
  rewrite <- IH. f_equal.
  unfold load_simple_row, schedulable, page_freq. simpl.
  destruct (F32.ltb F32.zero freq_scale);
    destruct (F32.ltb F32.zero (page_info_rate pi)); reflexivity.
Qed.

Lemma load_simple_enters_schedulable_pages_witness :
  freq_scheduler_load_simple (calm 0) (scheduler two_crawled [])
    (F32.of_Z 1) F32.zero
  = Returns (freq_scheduler_error_ok,
             with_schedule (scheduler two_crawled [])
               [(key 0 1, F32.of_Z 1); (key 0 2, F32.of_Z 1)]).
Proof.
  rewrite (load_simple_enters_schedulable_pages (calm 0)
             (scheduler two_crawled []) (F32.of_Z 1) F32.zero).
  - vm_compute. reflexivity.
  - constructor; intros; try reflexivity. repeat split.
  - reflexivity.
Defined.

(** C7 (as stated).  With [freq_default] not a number and no scale, the
    page gets a frequency for which [freq > 0] is false, and the row is
    written all the same, because [freq <= 0] is false too. *)
Lemma nan_frequency_is_written :
  page_freq S754_nan F32.zero (page_info "u1" 0 1) = S754_nan
  /\ F32.ltb F32.zero S754_nan = false
  /\ F32.leb S754_nan F32.zero = false
  /\ freq_scheduler_load_simple (calm 0) one_crawled S754_nan F32.zero
     = Returns (freq_scheduler_error_ok,
                with_schedule one_crawled [(key 0 1, S754_nan)]).
Proof.
  split; [reflexivity|]. split; [reflexivity|]. split; [reflexivity|].
  vm_compute. reflexivity.
Qed.

(** ** IEEE-754 facts: signs through rounding *)

Lemma shr_1_nonneg (mrs : shr_record) :
  0 <= shr_m mrs -> 0 <= shr_m (shr_1 mrs).
Proof.
  destruct mrs as [m r s]. simpl. destruct m as [|[p|p|]|[p|p|]]; simpl; lia.
Qed.

Lemma iter_pos_nonneg (p : positive) : forall mrs,
  0 <= shr_m mrs -> 0 <= shr_m (iter_pos shr_1 p mrs).
Proof.
  induction p as [p IH|p IH|]; simpl; intros mrs H.
  - apply IH, IH, shr_1_nonneg, H.
  - apply IH, IH, H.
  - apply shr_1_nonneg, H.
Qed.

Lemma shr_fexp_nonneg (prec emax m e : Z) (l : location) :
  0 <= m -> 0 <= shr_m (fst (shr_fexp prec emax m e l)).
Proof.
  intros H. unfold shr_fexp, shr.
  assert (H0 : 0 <= shr_m (shr_record_of_loc m l)).
  { destruct l as [|[| |]]; simpl; exact H. }
  destruct (fexp prec emax (Zdigits2 m + e) - e) as [|p|p]; simpl; auto.
  apply iter_pos_nonneg, H0.
Qed.

Lemma round_nearest_even_nonneg (m : Z) (l : location) :
  0 <= m -> 0 <= round_nearest_even m l.
Proof.
  intros H. destruct l as [|[| |]]; simpl; try lia.
  destruct (Z.even m); lia.
Qed.

(** Rounding a mantissa that is not negative gives a number with the sign
    asked for. *)
Lemma binary_round_aux_sign (prec emax : Z) (sx : bool) (mx ex : Z)
    (lx : location) :
  0 <= mx ->
  match binary_round_aux prec emax sx mx ex lx with
  | S754_nan => False
  | S754_zero s | S754_infinity s | S754_finite s _ _ => s = sx
  end.
Proof.
  intros H. unfold binary_round_aux.
  pose proof (shr_fexp_nonneg prec emax mx ex lx H) as H1.
  destruct (shr_fexp prec emax mx ex lx) as [mrs' e']. simpl in H1.
  pose proof (shr_fexp_nonneg prec emax _ e' loc_Exact
                (round_nearest_even_nonneg (shr_m mrs')
                   (loc_of_shr_record mrs') H1)) as H2.
  destruct (shr_fexp prec emax
              (round_nearest_even (shr_m mrs') (loc_of_shr_record mrs'))
              e' loc_Exact) as [mrs'' e''].
  simpl in H2.
  destruct (shr_m mrs'') as [|p|p]; [reflexivity| |lia].
  destruct (e'' <=? emax - prec); reflexivity.
Qed.

Lemma binary_round_sign (prec emax : Z) (sx : bool) (mx : positive) (ex : Z) :
  match binary_round prec emax sx mx ex with
  | S754_nan => False
  | S754_zero s | S754_infinity s | S754_finite s _ _ => s = sx
  end.
Proof.
  unfold binary_round.
  destruct (shl_align mx ex _) as [mz ez].
  apply binary_round_aux_sign. lia.
Qed.

Lemma div_core_nonneg (prec emax : Z) (m1 m2 : positive) (e1 e2 : Z) :
  0 <= fst (fst (SFdiv_core_binary prec emax (Zpos m1) e1 (Zpos m2) e2)).
Proof.
  unfold SFdiv_core_binary.
  set (s := _ - _ - Z.min _ _).
  set (m' := match s with Z0 => _ | Zpos _ => _ | Zneg _ => _ end).
  assert (Hm : 0 <= m').
  { unfold m'. destruct s; try lia. apply Z.shiftl_nonneg. lia. }
  pose proof (Z.div_pos m' (Zpos m2) Hm ltac:(lia)) as Hq.
  unfold Z.div in Hq.
  destruct (Z.div_eucl m' (Zpos m2)) as [q r]. simpl in *. exact Hq.
Qed.

Lemma leb_zero_nonneg (x : double) : F64.leb F64.zero x = true <-> nonneg x.
Proof.
  destruct x as [s|s| |s m e]; try destruct s; simpl;
    unfold F64.leb, SFleb; simpl; intuition congruence.
Qed.

Lemma sign_false_nonneg (x : spec_float) : sign_false x -> nonneg x.
Proof. destruct x; simpl; auto. Qed.

Lemma ltb_zero_sign (f : float) :
  F32.ltb F32.zero f = true ->
  f = S754_infinity false \/ exists m e, f = S754_finite false m e.
Proof.
  destruct f as [s|s| |s m e]; try destruct s; unfold F32.ltb, SFltb; simpl;
    try discriminate; eauto.
Qed.

Lemma to_double_sign (f : float) :
  F32.ltb F32.zero f = true -> sign_false (F32.to_double f).
Proof.
  intros H. destruct (ltb_zero_sign f H) as [->|(m & e & ->)]; [reflexivity|].
  unfold F32.to_double. simpl.
  pose proof (binary_round_sign F64.prec F64.emax false m e) as Hs.
  destruct (binary_round F64.prec F64.emax false m e); simpl; auto.
Qed.

(** [1.0/x] for [x] above or at [+0]. *)
Lemma div_one_sign (x : double) :
  sign_false x -> sign_false (F64.div F64.one x).
Proof.
  intros H. change F64.one with (S754_finite false 4503599627370496 (-52)).
  unfold F64.div, SFdiv.
  destruct x as [s|s| |s m e]; simpl in H; try contradiction; subst s;
    try reflexivity.
  pose proof (div_core_nonneg F64.prec F64.emax 4503599627370496 m (-52) e)
    as Hq.
  destruct (SFdiv_core_binary F64.prec F64.emax _ _ _ _) as [[mz ez] lz].
  simpl in Hq.
  pose proof (binary_round_aux_sign F64.prec F64.emax (xorb false false)
                mz ez lz Hq) as Hs.
  destruct (binary_round_aux _ _ _ mz ez lz); simpl in *; auto.
Qed.

Lemma add_nonneg (x y : double) :
  nonneg x -> sign_false y -> nonneg (F64.add x y).
Proof.
  intros Hx Hy. unfold F64.add, SFadd.
  destruct x as [sx|sx| |sx mx ex]; simpl in Hx; try contradiction;
    destruct y as [sy|sy| |sy my ey]; simpl in Hy; try contradiction;
    subst; try (destruct sx); simpl; auto.
  set (a := fst (shl_align mx ex (Z.min ex ey))).
  set (b := fst (shl_align my ey (Z.min ex ey))).
  change (Z.pos a + Z.pos b) with (Z.pos (a + b)).
  unfold binary_normalize.
  pose proof (binary_round_sign F64.prec F64.emax false (a + b) (Z.min ex ey))
    as Hs.
  destruct (binary_round F64.prec F64.emax false (a + b) (Z.min ex ey));
    simpl; auto.
Qed.

(** [score + 1.0/freq] is a number not below 0 when [score] is and
    [freq > 0]. *)
Lemma advance_ok (sk : ScheduleKey) (freq : float) :
  entry_ok (sk, freq) -> entry_ok (advance sk freq, freq).
Proof.
  intros (Hf & Hs). split; [exact Hf|]. simpl.
  apply leb_zero_nonneg. apply add_nonneg.
  - apply leb_zero_nonneg. exact Hs.
  - apply div_one_sign, to_double_sign, Hf.
Qed.

Lemma mul_pos_not_nan (x y : float) :
  F32.ltb F32.zero x = true -> F32.ltb F32.zero y = true ->
  F32.is_nan (F32.mul x y) = false.
Proof.
  intros Hx Hy.
  destruct (ltb_zero_sign x Hx) as [->|(mx & ex & ->)];
    destruct (ltb_zero_sign y Hy) as [->|(my & ey & ->)]; try reflexivity.
  unfold F32.mul, SFmul.
  pose proof (binary_round_aux_sign F32.prec F32.emax (xorb false false)
                (Zpos (mx * my)) (ex + ey) loc_Exact ltac:(lia)) as Hs.
  destruct (binary_round_aux _ _ _ _ _ _); simpl in *; auto. contradiction.
Qed.

(** ** What request and load_simple keep of the stored numbers *)

Lemma mdb_put_ok (k : ScheduleKey) (v : float) (t : table) :
  entry_ok (k, v) -> Forall entry_ok t -> Forall entry_ok (mdb_put k v t).
Proof.
  intros Hk. induction t as [|[k' v'] t IH]; simpl; intros Ht.
  - constructor; [exact Hk|constructor].
  - inversion Ht as [|x l Hx Hl]; subst.
    destruct (schedule_entry_mdb_cmp_asc k k').
    + constructor; [|exact Hl]. split; [apply Hk | apply Hx].
    + constructor; [exact Hk | exact Ht].
    + constructor; [exact Hx | apply IH; exact Hl].
Qed.

(** A request leaves [freq > 0] and [score >= 0] in every row when every
    row had them before the call. *)
Lemma request_keeps_entries_ok (w : World) (sch : FreqScheduler)
    (max_requests : N) (r : reply) :
  Forall entry_ok (schedule sch) ->
  freq_scheduler_request w sch max_requests = Returns r ->
  Forall entry_ok (schedule (r_sch r)).
Proof.
  intros Hu Hr.
  destruct (request_schedule_cases w sch max_requests r Hr)
    as [->|(st & Hl & ->)]; [exact Hu|].
  revert Hl.
  apply (request_loop_invariant w sch max_requests
           (fun s => Forall entry_ok (cur s))); [| |exact Hu].
  - intros i s s' Hs Hn. apply request_step_next in Hn.
    destruct Hn as (sk & freq & t & Hc & _ & [(p & _ & _ & ->)|(_ & ->)]);
      rewrite Hc in Hs; inversion Hs as [|x l Hx Hl]; subst; simpl.
    + apply mdb_put_ok; [apply advance_ok; exact Hx | exact Hl].
    + exact Hl.
  - intros i s s' Hs Hn. apply request_step_interrupt in Hn.
    destruct Hn as (-> & _). exact Hs.
Qed.

(** So does [freq_scheduler_load_simple] when [freq_default] is a number. *)
Lemma load_simple_keeps_entries_ok (w : World) (sch : FreqScheduler)
    (freq_default freq_scale : float) (c : FreqSchedulerError)
    (sch' : FreqScheduler) :
  F32.is_nan freq_default = false ->
  Forall entry_ok (schedule sch) ->
  freq_scheduler_load_simple w sch freq_default freq_scale = Returns (c, sch') ->
  Forall entry_ok (schedule sch').
Proof.
  intros Hd.
  apply (load_simple_invariant w freq_default freq_scale (Forall entry_ok)).
  intros h pi t Ht Hf. apply mdb_put_ok; [|exact Ht].
  split; [|reflexivity]. simpl.
  pose proof (not_leb_zero (page_freq freq_default freq_scale pi)) as Hn.
  rewrite Hf in Hn. simpl in Hn.
  assert (Hnan : F32.is_nan (page_freq freq_default freq_scale pi) = false).
  { unfold page_freq.
    destruct (F32.ltb F32.zero freq_scale) eqn:H1; [|exact Hd].
    destruct (F32.ltb F32.zero (page_info_rate pi)) eqn:H2; [|exact Hd].
    apply mul_pos_not_nan; assumption. }
  rewrite Hnan, orb_false_r in Hn. symmetry. exact Hn.
Qed.

(** And [freq_scheduler_load_mmap] when every frequency of the array is
    above 0. *)
Lemma load_mmap_loop_ok (w : World) (fs : list PageFreq) : forall i t,
  Forall (fun f => F32.ltb F32.zero (pf_freq f) = true) fs ->
  Forall entry_ok t ->
  Forall entry_ok (snd (load_mmap_loop w i fs t)).
Proof.
  induction fs as [|f fs IH]; simpl; intros i t Hf Ht; [exact Ht|].
  inversion Hf as [|x l Hx Hl]; subst.
  destruct (cursor_put_rc w i =? 0); simpl negb; cbv iota; [|exact Ht].
  apply IH; [exact Hl|]. apply mdb_put_ok; [|exact Ht].
  split; [exact Hx|]. cbn [fst snd score].
  apply leb_zero_nonneg, sign_false_nonneg, div_one_sign, to_double_sign, Hx.
Qed.

Lemma load_mmap_keeps_entries_ok (w : World) (sch : FreqScheduler)
    (freqs : MMapArray) (c : FreqSchedulerError) (sch' : FreqScheduler) :
  Forall (fun f => F32.ltb F32.zero (pf_freq f) = true) (elements freqs) ->
  Forall entry_ok (schedule sch) ->
  freq_scheduler_load_mmap w sch freqs = Returns (c, sch') ->
  Forall entry_ok (schedule sch').
Proof.
  intros Hf Hu. unfold freq_scheduler_load_mmap.
  destruct (txn_expand_rc w _ =? 0); simpl negb; cbv iota.
  2:{ intros H; injection H as _ <-. rewrite on_error_schedule. exact Hu. }
  destruct (cursor_open_cases w sch None)
    as [(sch1 & -> & Hs & _)|[(-> & _ & _)|(-> & _)]].
  - simpl. intros H; injection H as _ <-. rewrite ?on_error_schedule, Hs.
    exact Hu.
  - destruct (is_ok (code (error sch))); simpl negb; cbv iota; [discriminate|].
    intros H; injection H as _ <-. rewrite ?on_error_schedule. exact Hu.
  - destruct (is_ok (code (error sch))) eqn:Hok; simpl negb; cbv iota.
    2:{ intros H; injection H as _ <-. rewrite ?on_error_schedule. exact Hu. }
    pose proof (load_mmap_loop_ok w (elements freqs) 0 (schedule sch) Hf Hu)
      as Hl.
    destruct (load_mmap_loop w 0 (elements freqs) (schedule sch))
      as [mdb_rc t']. simpl in Hl.
    destruct (mdb_rc =? 0); simpl negb; cbv iota.
    2:{ intros H; injection H as _ <-. rewrite on_error_schedule. exact Hu. }
    unfold freq_scheduler_cursor_commit.
    destruct (txn_commit_rc w =? 0); simpl negb; cbv iota.
    + simpl. rewrite Hok. simpl. intros H; injection H as _ <-. exact Hl.
    + rewrite on_error_code. simpl. intros H; injection H as _ <-.
      rewrite ?on_error_schedule. exact Hu.
Qed.

(** ** The stored frequencies and scores *)

(** C5 (the code at the failing input).  [freq_scheduler_load_mmap] enters
    the elements of the array as they are: an element of frequency [-1.0] is
    committed with frequency [-1.0] and score [1.0/-1.0 = -1.0], and an
    element whose frequency is not a number is committed with a score that is
    not a number. *)
Theorem load_mmap_commits_any_frequency :
  freq_scheduler_load_mmap (calm 0) (scheduler (page_db_of []) []) negative_freq
  = Returns (freq_scheduler_error_ok,
             with_schedule (scheduler (page_db_of []) [])
               [(key (-1) 1, F32.of_Z (-1))])
  /\ F32.ltb F32.zero (F32.of_Z (-1)) = false
  /\ F64.leb F64.zero (score (key (-1) 1)) = false
  /\ freq_scheduler_load_mmap (calm 0) (scheduler (page_db_of []) []) nan_freq
     = Returns (freq_scheduler_error_ok,
                with_schedule (scheduler (page_db_of []) [])
                  [({| score := S754_nan; hash := 1 |}, S754_nan)]).
Proof.
  split; [vm_compute; reflexivity|].
  split; [reflexivity|]. split; [reflexivity|].
  vm_compute. reflexivity.
Qed.

(** ** The last-error record *)

Lemma request_works (w : World) (sch : FreqScheduler) (max_requests : N) :
  works w ->
  code (error sch) = freq_scheduler_error_ok ->
  exists r,
    freq_scheduler_request w sch max_requests = Returns r
    /\ r_code r = freq_scheduler_error_ok
    /\ error (r_sch r) = error sch.
Proof.
  intros Hw Hok. unfold freq_scheduler_request.
  destruct (cursor_open_cases w sch None)
    as [(sch' & _ & _ & Hx)|[(_ & _ & Hx)|(-> & _)]].
  { destruct Hx. apply Hw. }
  { destruct Hw. destruct Hx as [Hx|[Hx|Hx]]; contradiction. }
  rewrite Hok. simpl negb. cbv iota.
  rewrite (works_request_new w Hw). simpl negb. cbv iota.
  pose (st0 := {| cur := schedule sch; urls := []; log := [] |}).
  fold st0.
  pose proof (request_loop_fuel w sch max_requests
                (request_fuel sch max_requests) 0 st0
                ltac:(unfold request_fuel, st0; simpl; lia)) as Hf.
  destruct (request_loop _ w sch max_requests 0 st0) as [st|e1 e2 st|] eqn:Hl.
  - unfold freq_scheduler_cursor_commit.
    rewrite (works_commit w Hw). simpl. rewrite Hok. simpl.
    eexists. split; [reflexivity|]. simpl. auto.
  - exfalso. revert Hl. apply request_loop_works. apply (works_turn w Hw).
  - contradiction.
Qed.

Lemma request_stale (w : World) (sch : FreqScheduler) (max_requests : N) :
  txn_begin_rc w = 0 ->
  is_ok (code (error sch)) = false ->
  exists r,
    freq_scheduler_request w sch max_requests = Returns r
    /\ r_code r = freq_scheduler_error_internal
    /\ schedule (r_sch r) = schedule sch.
Proof.
  intros Hb Hok. unfold freq_scheduler_request.
  destruct (cursor_open_cases w sch None)
    as [(sch' & _ & _ & Hx)|[(-> & _)|(-> & _)]];
    [contradiction| |]; rewrite Hok; simpl negb; cbv iota;
    (eexists; split; [reflexivity|]; simpl; split;
     [first [apply on_error_code | reflexivity]
     |first [apply on_error_schedule | reflexivity]]).
Qed.

Lemma load_simple_stale (w : World) (sch : FreqScheduler)
    (freq_default freq_scale : float) :
  stream_new_rc w = 0 -> txn_begin_rc w = 0 ->
  is_ok (code (error sch)) = false ->
  exists sch',
    freq_scheduler_load_simple w sch freq_default freq_scale
    = Returns (freq_scheduler_error_internal, sch')
    /\ schedule sch' = schedule sch.
Proof.
  intros Hs Hb Hok. unfold freq_scheduler_load_simple.
  rewrite Hs. simpl negb. cbv iota.
  destruct (cursor_open_cases w sch None)
    as [(sch' & _ & _ & Hx)|[(-> & _)|(-> & _)]];
    [contradiction| |]; rewrite Hok; simpl negb; cbv iota;
    rewrite on_error_code; (eexists; split; [reflexivity|]);
    apply on_error_schedule.
Qed.

Lemma load_mmap_loop_works (w : World) (fs : list PageFreq) :
  (forall i, cursor_put_rc w i = 0) ->
  forall i t, fst (load_mmap_loop w i fs t) = 0.
Proof.
  intros Hp. induction fs as [|f fs IH]; simpl; intros i t; [reflexivity|].
  rewrite Hp. simpl. apply IH.
Qed.

Lemma load_mmap_works (w : World) (sch : FreqScheduler) (freqs : MMapArray) :
  works w ->
  code (error sch) = freq_scheduler_error_ok ->
  exists sch',
    freq_scheduler_load_mmap w sch freqs
    = Returns (freq_scheduler_error_ok, sch')
    /\ error sch' = error sch.
Proof.
  intros Hw Hok. unfold freq_scheduler_load_mmap.
  rewrite (works_expand w Hw). simpl negb. cbv iota.
  destruct (cursor_open_cases w sch None)
    as [(sch' & _ & _ & Hx)|[(_ & _ & Hx)|(-> & _)]].
  { destruct Hx. apply Hw. }
  { destruct Hw. destruct Hx as [Hx|[Hx|Hx]]; contradiction. }
  rewrite Hok. simpl negb. cbv iota.
  pose proof (load_mmap_loop_works w (elements freqs)
                (fun i => proj2 (proj2 (proj2 (proj2 (works_turn w Hw i)))))
                0%nat (schedule sch)) as Hl.
  destruct (load_mmap_loop w 0 (elements freqs) (schedule sch)) as [rc t'].
  simpl in Hl. subst rc. simpl negb. cbv iota.
  unfold freq_scheduler_cursor_commit.
  rewrite (works_commit w Hw). simpl. rewrite Hok. simpl.
  eexists. split; [reflexivity|]. reflexivity.
Qed.

Lemma load_mmap_stale (w : World) (sch : FreqScheduler) (freqs : MMapArray) :
  (forall n, txn_expand_rc w n = 0) -> txn_begin_rc w = 0 ->
  is_ok (code (error sch)) = false ->
  exists sch',
    freq_scheduler_load_mmap w sch freqs
    = Returns (freq_scheduler_error_internal, sch')
    /\ schedule sch' = schedule sch.
Proof.
  intros He Hb Hok. unfold freq_scheduler_load_mmap.
  rewrite He. simpl negb. cbv iota.
  destruct (cursor_open_cases w sch None)
    as [(sch' & _ & _ & Hx)|[(-> & _)|(-> & _)]];
    [contradiction| |]; rewrite Hok; simpl negb; cbv iota;
    rewrite on_error_code; (eexists; split; [reflexivity|]);
    apply on_error_schedule.
Qed.

Lemma dump_loop_works (w : World) (sch : FreqScheduler) (t : table) :
  (forall i, cursor_get_rc w i = 0) ->
  forall i output, dump_loop w sch i t output = (sch, output ++ t).
Proof.
  intros Hg. induction t as [|e t IH]; simpl; intros i output.
  - rewrite Hg. simpl. rewrite app_nil_r. reflexivity.
  - rewrite Hg. simpl. rewrite IH, <- app_assoc. reflexivity.
Qed.

Lemma dump_works (w : World) (sch : FreqScheduler) :
  works w ->
  freq_scheduler_dump w sch
  = Returns (code (error sch), sch,
             if is_ok (code (error sch)) then schedule sch else []).
Proof.
  intros Hw. unfold freq_scheduler_dump.
  destruct (cursor_open_cases w sch None)
    as [(sch' & _ & _ & Hx)|[(_ & _ & Hx)|(-> & _)]].
  { destruct Hx. apply Hw. }
  { destruct Hw. destruct Hx as [Hx|[Hx|Hx]]; contradiction. }
  destruct (is_ok (code (error sch))); simpl negb; cbv iota; [|reflexivity].
  rewrite dump_loop_works; [reflexivity|].
  intros i. apply (works_turn w Hw i).
Qed.

Lemma is_ok_true (c : FreqSchedulerError) :
  is_ok c = true -> c = freq_scheduler_error_ok.
Proof. destruct c; simpl; congruence. Qed.

(** C9 (as the code has it).  The error record is written only when a call
    fails and no operation clears it.  When no call fails, an operation
    (request, load, add, dump) returns the success code exactly when the
    scheduler held the success code before it; on a scheduler still holding
    the code of an earlier failure, add and dump return that code, request
    and the two loads abort and return the internal-error code, and the
    schedule is left as it was. *)
Theorem error_code_is_kept (w : World) (sch : FreqScheduler) (op : operation) :
  works w ->
  exists c sch',
    run w sch op = Returns (c, sch')
    /\ is_ok c = is_ok (code (error sch))
    /\ (is_ok (code (error sch)) = false ->
        schedule sch' = schedule sch
        /\ c = match op with
               | op_add _ | op_dump => code (error sch)
               | _ => freq_scheduler_error_internal
               end).
Proof.
  intros Hw.
  destruct (is_ok (code (error sch))) eqn:Hok.
  - pose proof (is_ok_true _ Hok) as Hc.
    destruct op as [n|fd fs|freqs|page|]; simpl.
    + destruct (request_works w sch n Hw Hc) as (r & -> & Hr & _).
      exists (r_code r), (r_sch r). rewrite Hr. split; [reflexivity|].
      split; [reflexivity|discriminate].
    + rewrite (load_simple_works w sch fd fs Hw Hc).
      eexists. eexists. split; [reflexivity|]. split; [reflexivity|discriminate].
    + destruct (load_mmap_works w sch freqs Hw Hc) as (sch' & -> & _).
      eexists. eexists. split; [reflexivity|]. split; [reflexivity|discriminate].
    + unfold freq_scheduler_add.
      pose proof (works_page_db_add w Hw (page_db sch) page) as Ha.
      destruct (page_db_add w (page_db sch) page) as [rc db]. simpl in Ha.
      subst rc. simpl. eexists. eexists. split; [reflexivity|].
      split; [exact Hok|discriminate].
    + rewrite (dump_works w sch Hw). rewrite ?Hok.
      eexists. eexists. split; [reflexivity|]. split; [exact Hok|discriminate].
  - destruct op as [n|fd fs|freqs|page|]; simpl.
    + destruct (request_stale w sch n (works_begin w Hw) Hok)
        as (r & -> & Hr & Hs).
      exists (r_code r), (r_sch r). rewrite Hr. split; [reflexivity|].
      split; [reflexivity|]. intros _. auto.
    + destruct (load_simple_stale w sch fd fs (works_stream_new w Hw)
                  (works_begin w Hw) Hok) as (sch' & -> & Hs).
      eexists. eexists. split; [reflexivity|]. split; [reflexivity|].
      intros _. auto.
    + destruct (load_mmap_stale w sch freqs (works_expand w Hw)
                  (works_begin w Hw) Hok) as (sch' & -> & Hs).
      eexists. eexists. split; [reflexivity|]. split; [reflexivity|].
      intros _. auto.
    + unfold freq_scheduler_add.
      pose proof (works_page_db_add w Hw (page_db sch) page) as Ha.
      destruct (page_db_add w (page_db sch) page) as [rc db]. simpl in Ha.
      subst rc. simpl. eexists. eexists. split; [reflexivity|].
      split; [exact Hok|]. intros _. auto.
    + rewrite (dump_works w sch Hw). rewrite ?Hok.
      eexists. eexists. split; [reflexivity|]. split; [exact Hok|].
      intros _. auto.
Qed.

Lemma error_code_is_kept_witness :
  exists c sch',
    run (calm 0) failed_once (op_add {| cp_url := "u1"; cp_time := F64.of_Z 10 |})
    = Returns (c, sch')
    /\ is_ok c = is_ok (code (error failed_once))
    /\ (is_ok (code (error failed_once)) = false ->
        schedule sch' = schedule failed_once
        /\ c = code (error failed_once)).
Proof.
  apply (error_code_is_kept (calm 0) failed_once
           (op_add {| cp_url := "u1"; cp_time := F64.of_Z 10 |})).
  constructor; intros; try reflexivity. repeat split.
Defined.

(** C9 (as stated).  A request during which [txn_manager_begin] fails
    leaves the internal-error code in the record; the add that follows
    succeeds in the page database and still returns that code. *)
Lemma stale_error_code_is_returned :
  code (error one_page) = freq_scheduler_error_ok
  /\ freq_scheduler_request (world 12 0 (fun db _ => (0, db)) 0) one_page 1
     = Returns {| r_code := freq_scheduler_error_internal;
                  r_sch := failed_once; r_request := None; r_log := [] |}
  /\ page_db_add (calm 0) (page_db failed_once)
       {| cp_url := "u1"; cp_time := F64.of_Z 10 |}
     = (0, page_db failed_once)
  /\ freq_scheduler_add (calm 0) failed_once
       {| cp_url := "u1"; cp_time := F64.of_Z 10 |}
     = (freq_scheduler_error_internal, failed_once)
  /\ freq_scheduler_error_internal <> freq_scheduler_error_ok.
Proof.
  split; [reflexivity|].
  split; [vm_compute; reflexivity|].
  split; [reflexivity|].
  split; [vm_compute; reflexivity|].
  discriminate.
Qed.

(** * The rest of the interface

    Properties of the functions as the source has them: what a failing
    call leaves, what the loads write, what a request hands out, and how
    the operations compose. *)

(** ** What every operation leaves alone *)

Lemma with_error_same (sch : FreqScheduler) : with_error sch (error sch) = sch.
Proof. destruct sch; reflexivity. Qed.

Lemma on_error_with_error (sch : FreqScheduler) (func : string)
    (e1 e2 : option string) :
  exists e, on_error sch func e1 e2 = with_error sch e.
Proof. eexists. unfold on_error. reflexivity. Qed.

Lemma with_error_twice (sch : FreqScheduler) (e e' : Error) :
  with_error (with_error sch e) e' = with_error sch e'.
Proof. reflexivity. Qed.

(** A cursor is opened on the committed table; the scheduler comes back
    with at most its error record written. *)
Lemma cursor_open_frame (w : World) (sch : FreqScheduler) (c : option table) :
  (exists e, freq_scheduler_cursor_open w sch c
             = (freq_scheduler_error_internal, with_error sch e, c)
             /\ code e = freq_scheduler_error_internal)
  \/ freq_scheduler_cursor_open w sch c = (code (error sch), sch, None)
  \/ freq_scheduler_cursor_open w sch c
     = (code (error sch), sch, Some (schedule sch)).
Proof.
  unfold freq_scheduler_cursor_open.
  destruct (txn_begin_rc w =? 0); simpl negb; cbv iota.
  - destruct (dbi_open_rc w =? 0), (set_compare_rc w =? 0),
      (cursor_open_rc w =? 0); simpl; auto.
  - left. rewrite on_error_code. eexists.
    split; [unfold on_error; reflexivity|]. reflexivity.
Qed.

(** The reply of a request: either the internal-error code with a scheduler
    that differs from the one passed in by its error record only, or the
    success code with the table the loop left. *)
Lemma request_cases (w : World) (sch : FreqScheduler) (max_requests : N)
    (r : reply) :
  freq_scheduler_request w sch max_requests = Returns r ->
  (r_code r = freq_scheduler_error_internal
   /\ exists e, r_sch r = with_error sch e
                /\ code e = freq_scheduler_error_internal)
  \/ (r_code r = freq_scheduler_error_ok
      /\ code (error sch) = freq_scheduler_error_ok
      /\ exists st,
           request_loop (request_fuel sch max_requests) w sch max_requests 0
             {| cur := schedule sch; urls := []; log := [] |} = LoopExit st
           /\ r_sch r = with_schedule sch (cur st)
           /\ r_request r = Some (urls st)
           /\ r_log r = log st).
Proof.
  assert (Hfail : forall sch0 e0 e1 e2 q l,
    sch0 = with_error sch e0 ->
    Returns {| r_code := code (error (on_error sch0 "freq_scheduler_request"
                                        e1 e2));
               r_sch := on_error sch0 "freq_scheduler_request" e1 e2;
               r_request := q; r_log := l |} = Returns r ->
    r_code r = freq_scheduler_error_internal
    /\ exists e, r_sch r = with_error sch e
                 /\ code e = freq_scheduler_error_internal).
  { intros sch0 e0 e1 e2 q l -> H. injection H as <-. cbn [r_code r_sch].
    split; [first [apply on_error_code|rewrite ?error_add_code; reflexivity]|].
    eexists. split; [unfold on_error; reflexivity|].
    cbn [error with_error freq_scheduler_add_error freq_scheduler_set_error].
    rewrite ?error_add_code. reflexivity. }
  unfold freq_scheduler_request.
  destruct (cursor_open_frame w sch None) as [(e & -> & _)|[->| ->]].
  - simpl negb. cbv iota. intros H. left. eapply Hfail; [reflexivity|exact H].
  - destruct (is_ok (code (error sch))) eqn:Hok; simpl negb; cbv iota.
    2:{ intros H. left. eapply Hfail; [|exact H].
        symmetry; apply with_error_same. }
    destruct (request_new_ok w); simpl negb; cbv iota; [discriminate|].
    intros H. left. eapply Hfail; [|exact H]. symmetry; apply with_error_same.
  - destruct (is_ok (code (error sch))) eqn:Hok; simpl negb; cbv iota.
    2:{ intros H. left. eapply Hfail; [|exact H].
        symmetry; apply with_error_same. }
    destruct (request_new_ok w); simpl negb; cbv iota.
    2:{ intros H. left. eapply Hfail; [|exact H].
        symmetry; apply with_error_same. }
    destruct (request_loop _ w sch max_requests 0 _) as [st|e1 e2 st|] eqn:Hl.
    + unfold freq_scheduler_cursor_commit.
      destruct (txn_commit_rc w =? 0); simpl negb; cbv iota.
      * cbn [error with_schedule]. rewrite Hok. simpl negb. cbv iota.
        intros H; injection H as <-. right. cbn [r_code r_sch r_request r_log].
        pose proof (is_ok_true _ Hok) as Hc.
        split; [exact Hc|]. split; [exact Hc|].
        exists st. repeat split; reflexivity.
      * rewrite on_error_code. simpl negb. cbv iota. intros H. left.
        destruct (on_error_with_error sch "freq_scheduler_cursor_commit"
                    (Some "commiting schedule transaction"%string)
                    (Some (txn_manager_message w))) as (e & He).
        rewrite He in H. eapply Hfail; [reflexivity|exact H].
    + intros H. left. eapply Hfail; [|exact H].
      symmetry; apply with_error_same.
    + discriminate.
Qed.

(** The loop of load_simple hands back the scheduler it was given when it
    runs through; it leaves early with at most the error record written. *)
Lemma load_simple_loop_frame (w : World) (freq_default freq_scale : float)
    (st : list (N * PageInfo)) :
  forall sch i c b sch' c',
    load_simple_loop w sch freq_default freq_scale i st c
      = Returns (b, sch', c') ->
    (b = true /\ sch' = sch) \/ (b = false /\ exists e, sch' = with_error sch e).
Proof.
  induction st as [|[h pi] st IH]; intros sch i c b sch' c'; simpl.
  - intros H; injection H as <- <- _. left. split; reflexivity.
  - destruct (schedulable sch pi); [|apply IH].
    unfold freq_scheduler_cursor_write.
    destruct (F32.leb _ F32.zero); [simpl; apply IH|].
    destruct c as [t|]; [|discriminate].
    destruct (cursor_put_rc w i =? 0); simpl negb; cbv iota.
    + destruct (is_ok (code (error sch))); simpl negb; cbv iota; [apply IH|].
      intros H; injection H as <- <- _. right. split; [reflexivity|].
      exists (error sch). symmetry; apply with_error_same.
    + rewrite on_error_code. simpl. intros H; injection H as <- <- _.
      right. split; [reflexivity|]. apply on_error_with_error.
Qed.

(** The loop of load_simple when it runs through: the table it leaves. *)
Lemma load_simple_loop_true (w : World) (freq_default freq_scale : float)
    (st : list (N * PageInfo)) :
  forall sch i t sch' c',
    load_simple_loop w sch freq_default freq_scale i st (Some t)
      = Returns (true, sch', c') ->
    c' = Some (fold_left (load_simple_row sch freq_default freq_scale) st t).
Proof.
  induction st as [|[h pi] st IH]; intros sch i t sch' c'; simpl.
  - intros H; injection H as _ <-. reflexivity.
  - unfold load_simple_row at 2. cbn [fst snd].
    destruct (schedulable sch pi); [|apply IH].
    unfold freq_scheduler_cursor_write. rewrite <- not_leb_zero.
    destruct (F32.leb _ F32.zero); [simpl; apply IH|].
    destruct (cursor_put_rc w i =? 0); simpl negb; cbv iota.
    + destruct (is_ok (code (error sch))); simpl negb; cbv iota; [apply IH|].
      discriminate.
    + rewrite on_error_code. simpl. discriminate.
Qed.

(** What freq_scheduler_load_simple returns: the internal-error code with at
    most the error record written, or the success code with the table
    committed that the loop built from the whole stream. *)
Lemma load_simple_cases (w : World) (sch : FreqScheduler)
    (freq_default freq_scale : float) (c : FreqSchedulerError)
    (sch' : FreqScheduler) :
  freq_scheduler_load_simple w sch freq_default freq_scale = Returns (c, sch') ->
  (c = freq_scheduler_error_internal
   /\ exists e, sch' = with_error sch e
                /\ code e = freq_scheduler_error_internal)
  \/ (c = freq_scheduler_error_ok
      /\ code (error sch) = freq_scheduler_error_ok
      /\ sch' = with_schedule sch
                  (fold_left (load_simple_row sch freq_default freq_scale)
                             (pages (page_db sch)) (schedule sch))).
Proof.
  assert (Hfail : forall sch0 e0 e1 e2,
    sch0 = with_error sch e0 ->
    Returns (code (error (on_error sch0 "freq_scheduler_load_simple" e1 e2)),
             on_error sch0 "freq_scheduler_load_simple" e1 e2)
      = Returns (c, sch') ->
    c = freq_scheduler_error_internal
    /\ exists e, sch' = with_error sch e
                 /\ code e = freq_scheduler_error_internal).
  { intros sch0 e0 e1 e2 -> H. injection H as <- <-.
    split; [first [apply on_error_code|rewrite ?error_add_code; reflexivity]|].
    eexists. split; [unfold on_error; reflexivity|].
    cbn [error with_error freq_scheduler_add_error freq_scheduler_set_error].
    rewrite ?error_add_code. reflexivity. }
  pose proof (eq_sym (with_error_same sch)) as Hsame.
  unfold freq_scheduler_load_simple.
  destruct (stream_new_rc w =? 0); simpl negb; cbv iota.
  2:{ intros H. left. eapply Hfail; [exact Hsame|exact H]. }
  destruct (cursor_open_frame w sch None) as [(e & -> & _)|[->| ->]].
  - simpl negb. cbv iota. intros H. left. eapply Hfail; [reflexivity|exact H].
  - destruct (is_ok (code (error sch))); simpl negb; cbv iota.
    2:{ intros H. left. eapply Hfail; [exact Hsame|exact H]. }
    destruct (load_simple_loop w sch freq_default freq_scale 0
                (stream_items w (page_db sch)) None)
      as [[[b sch2] c2]| |] eqn:Hl; try discriminate.
    destruct (load_simple_loop_null _ _ _ _ _ _ _ _ _ Hl) as (-> & ->).
    destruct b.
    + destruct (stream_error_at w); [|discriminate].
      intros H. left. eapply Hfail; [exact Hsame|exact H].
    + intros H. left. eapply Hfail; [exact Hsame|exact H].
  - destruct (is_ok (code (error sch))) eqn:Hok; simpl negb; cbv iota.
    2:{ intros H. left. eapply Hfail; [exact Hsame|exact H]. }
    destruct (load_simple_loop w sch freq_default freq_scale 0
                (stream_items w (page_db sch)) (Some (schedule sch)))
      as [[[b sch2] c2]| |] eqn:Hl; try discriminate.
    destruct (load_simple_loop_frame _ _ _ _ _ _ _ _ _ _ Hl)
      as [(-> & ->)|(-> & e & ->)].
    + pose proof (load_simple_loop_true _ _ _ _ _ _ _ _ _ Hl) as ->.
      unfold stream_items.
      destruct (stream_error_at w).
      * intros H. left. eapply Hfail; [exact Hsame|exact H].
      * unfold freq_scheduler_cursor_commit.
        destruct (txn_commit_rc w =? 0); simpl negb; cbv iota.
        -- cbn [error with_schedule]. rewrite Hok. simpl negb. cbv iota.
           intros H; injection H as <- <-. right.
           pose proof (is_ok_true _ Hok) as Hc. auto.
        -- rewrite on_error_code. simpl negb. cbv iota. intros H. left.
           destruct (on_error_with_error sch "freq_scheduler_cursor_commit"
                       (Some "commiting schedule transaction"%string)
                       (Some (txn_manager_message w))) as (e & He).
           rewrite He in H. eapply Hfail; [reflexivity|exact H].
    + intros H. left. eapply Hfail; [reflexivity|exact H].
Qed.

(** The loop of load_mmap when no put fails: the rows of the array are
    written one after the other. *)
Lemma load_mmap_loop_zero (w : World) (fs : list PageFreq) : forall i t rc t',
  load_mmap_loop w i fs t = (rc, t') -> rc = 0 ->
  t' = fold_left (fun t f => mdb_put (fst (mmap_row f)) (snd (mmap_row f)) t)
                 fs t.
Proof.
  induction fs as [|f fs IH]; simpl; intros i t rc t'.
  - intros H _; injection H as _ <-. reflexivity.
  - destruct (cursor_put_rc w i =? 0) eqn:Hp; simpl negb; cbv iota.
    + apply IH.
    + intros H Hz; injection H as <- _. rewrite Hz in Hp. discriminate.
Qed.

(** What freq_scheduler_load_mmap returns. *)
Lemma load_mmap_cases (w : World) (sch : FreqScheduler) (freqs : MMapArray)
    (c : FreqSchedulerError) (sch' : FreqScheduler) :
  freq_scheduler_load_mmap w sch freqs = Returns (c, sch') ->
  (c = freq_scheduler_error_internal
   /\ exists e, sch' = with_error sch e
                /\ code e = freq_scheduler_error_internal)
  \/ (c = freq_scheduler_error_ok
      /\ code (error sch) = freq_scheduler_error_ok
      /\ sch' = with_schedule sch
                  (fold_left
                     (fun t f => mdb_put (fst (mmap_row f)) (snd (mmap_row f)) t)
                     (elements freqs) (schedule sch))).
Proof.
  assert (Hfail : forall sch0 e0 e1 e2,
    sch0 = with_error sch e0 ->
    Returns (code (error (on_error sch0 "freq_scheduler_load_mmap" e1 e2)),
             on_error sch0 "freq_scheduler_load_mmap" e1 e2)
      = Returns (c, sch') ->
    c = freq_scheduler_error_internal
    /\ exists e, sch' = with_error sch e
                 /\ code e = freq_scheduler_error_internal).
  { intros sch0 e0 e1 e2 -> H. injection H as <- <-.
    split; [first [apply on_error_code|rewrite ?error_add_code; reflexivity]|].
    eexists. split; [unfold on_error; reflexivity|].
    cbn [error with_error freq_scheduler_add_error freq_scheduler_set_error].
    rewrite ?error_add_code. reflexivity. }
  pose proof (eq_sym (with_error_same sch)) as Hsame.
  unfold freq_scheduler_load_mmap.
  destruct (txn_expand_rc w _ =? 0); simpl negb; cbv iota.
  2:{ intros H. left. eapply Hfail; [exact Hsame|exact H]. }
  destruct (cursor_open_frame w sch None) as [(e & -> & _)|[->| ->]].
  - simpl negb. cbv iota. intros H. left. eapply Hfail; [reflexivity|exact H].
  - destruct (is_ok (code (error sch))); simpl negb; cbv iota; [discriminate|].
    intros H. left. eapply Hfail; [exact Hsame|exact H].
  - destruct (is_ok (code (error sch))) eqn:Hok; simpl negb; cbv iota.
    2:{ intros H. left. eapply Hfail; [exact Hsame|exact H]. }
    destruct (load_mmap_loop w 0 (elements freqs) (schedule sch))
      as [mdb_rc t'] eqn:Hl.
    destruct (mdb_rc =? 0) eqn:Hz; simpl negb; cbv iota.
    2:{ intros H. left. eapply Hfail; [exact Hsame|exact H]. }
    apply Z.eqb_eq in Hz.
    pose proof (load_mmap_loop_zero _ _ _ _ _ _ Hl Hz) as ->.
    unfold freq_scheduler_cursor_commit.
    destruct (txn_commit_rc w =? 0); simpl negb; cbv iota.
    + cbn [error with_schedule]. rewrite Hok. simpl negb. cbv iota.
      intros H; injection H as <- <-. right.
      pose proof (is_ok_true _ Hok) as Hc. auto.
    + rewrite on_error_code. simpl negb. cbv iota. intros H. left.
      destruct (on_error_with_error sch "freq_scheduler_cursor_commit"
                  (Some "commiting schedule transaction"%string)
                  (Some (txn_manager_message w))) as (e & He).
      rewrite He in H. eapply Hfail; [reflexivity|exact H].
Qed.

(** The loop of dump prints the rows in cursor order and stops at the first
    read that fails; it writes at most the error record. *)
Lemma dump_loop_prefix (w : World) (sch : FreqScheduler) (t : table) :
  forall i output sch' output',
    dump_loop w sch i t output = (sch', output') ->
    (exists e, sch' = with_error sch e
               /\ (e = error sch \/ code e = freq_scheduler_error_internal))
    /\ exists printed rest, output' = output ++ printed /\ t = printed ++ rest.
Proof.
  assert (Hstop : forall (rc : Z) (t : table) (output : list entry)
                          (sch' : FreqScheduler) (output' : list entry),
    (if rc =? MDB_NOTFOUND then (sch, output)
     else (on_error sch "freq_scheduler_dump"
             (Some "iterating over database"%string)
             (Some (mdb_strerror w rc)), output)) = (sch', output') ->
    (exists e, sch' = with_error sch e
               /\ (e = error sch \/ code e = freq_scheduler_error_internal))
    /\ exists printed rest, output' = output ++ printed /\ t = printed ++ rest).
  { intros rc t0 output sch' output' H.
    assert (Ho : output' = output) by (destruct (rc =? MDB_NOTFOUND); congruence).
    split.
    - destruct (rc =? MDB_NOTFOUND).
      + injection H as <- _. exists (error sch).
        split; [symmetry; apply with_error_same|left; reflexivity].
      + injection H as <- _. eexists.
        split; [unfold on_error; reflexivity|]. right.
        cbn [error with_error freq_scheduler_add_error freq_scheduler_set_error].
        rewrite ?error_add_code. reflexivity.
    - exists [], t0. rewrite app_nil_r. auto. }
  induction t as [|e t IH]; intros i output sch' output'; simpl.
  - destruct (cursor_get_rc w i =? 0);
      first [apply Hstop|apply (Hstop MDB_NOTFOUND)].
  - destruct (cursor_get_rc w i =? 0); [|apply Hstop].
    intros H. destruct (IH _ _ _ _ H) as (He & printed & rest & -> & ->).
    split; [exact He|]. exists (e :: printed), rest.
    rewrite <- app_assoc. auto.
Qed.

(** What freq_scheduler_dump returns. *)
Lemma dump_cases (w : World) (sch : FreqScheduler) (c : FreqSchedulerError)
    (sch' : FreqScheduler) (output : list entry) :
  freq_scheduler_dump w sch = Returns (c, sch', output) ->
  c = code (error sch')
  /\ (exists e, sch' = with_error sch e)
  /\ exists rest, schedule sch = output ++ rest.
Proof.
  unfold freq_scheduler_dump.
  destruct (cursor_open_frame w sch None) as [(e & -> & _)|[->| ->]].
  - simpl. intros H; injection H as <- <- <-.
    split; [reflexivity|]. split; [exists e; reflexivity|].
    exists (schedule sch). reflexivity.
  - destruct (is_ok (code (error sch))); simpl negb; cbv iota; [discriminate|].
    intros H; injection H as <- <- <-.
    split; [reflexivity|].
    split; [exists (error sch); symmetry; apply with_error_same|].
    exists (schedule sch). reflexivity.
  - destruct (is_ok (code (error sch))); simpl negb; cbv iota.
    + destruct (dump_loop w sch 0 (schedule sch) []) as [sch2 out] eqn:Hl.
      intros H; injection H as <- <- <-.
      destruct (dump_loop_prefix _ _ _ _ _ _ _ Hl)
        as ((e & -> & _) & printed & rest & -> & Ht).
      split; [reflexivity|]. split; [exists e; reflexivity|].
      exists rest. exact Ht.
    + intros H; injection H as <- <- <-.
      split; [reflexivity|].
      split; [exists (error sch); symmetry; apply with_error_same|].
      exists (schedule sch). reflexivity.
Qed.

(** What freq_scheduler_add returns. *)
Lemma add_cases (w : World) (sch : FreqScheduler) (page : CrawledPage)
    (c : FreqSchedulerError) (sch' : FreqScheduler) :
  freq_scheduler_add w sch page = (c, sch') ->
  c = code (error sch')
  /\ exists e,
       sch' = with_error
                (with_page_db sch (snd (page_db_add w (page_db sch) page))) e.
Proof.
  unfold freq_scheduler_add.
  destruct (page_db_add w (page_db sch) page) as [rc db]. cbn [snd].
  destruct (rc =? 0); simpl negb; cbv iota.
  - intros H; injection H as <- <-. split; [reflexivity|].
    exists (error sch). reflexivity.
  - intros H; injection H as <- <-. split; [reflexivity|].
    eexists. unfold on_error. reflexivity.
Qed.

(** X1.  A call that does not return the success code has committed
    nothing: whichever operation of the interface it was (request,
    load_simple, load_mmap, add, dump) and whichever call into LMDB, the
    transaction manager or the page database failed, the schedule table is
    the one the scheduler held before the call.  Rows deleted, advanced or
    written before the failure are gone with the aborted transaction. *)
Theorem failed_call_commits_nothing (w : World) (sch : FreqScheduler)
    (op : operation) (c : FreqSchedulerError) (sch' : FreqScheduler) :
  run w sch op = Returns (c, sch') ->
  c <> freq_scheduler_error_ok ->
  schedule sch' = schedule sch.
Proof.
  destruct op as [n|fd fs|freqs|page|]; cbn [run].
  - destruct (freq_scheduler_request w sch n) as [r| |] eqn:Hr;
      try discriminate.
    intros H Hc; injection H as <- <-.
    destruct (request_cases _ _ _ _ Hr) as [(_ & e & -> & _)|(Hok & _)];
      [reflexivity|contradiction].
  - intros H Hc.
    destruct (load_simple_cases _ _ _ _ _ _ H) as [(_ & e & -> & _)|(Hok & _)];
      [reflexivity|contradiction].
  - intros H Hc.
    destruct (load_mmap_cases _ _ _ _ _ H) as [(_ & e & -> & _)|(Hok & _)];
      [reflexivity|contradiction].
  - intros H _.
    assert (Ha : freq_scheduler_add w sch page = (c, sch')) by congruence.
    destruct (add_cases _ _ _ _ _ Ha) as (_ & e & ->). reflexivity.
  - destruct (freq_scheduler_dump w sch) as [[[c1 sch1] out]| |] eqn:Hd;
      try discriminate.
    intros H _; injection H as <- <-.
    destruct (dump_cases _ _ _ _ _ Hd) as (_ & (e & ->) & _). reflexivity.
Qed.

(** A request for three URLs on two pages whose commit fails: the rows the
    loop advanced are not in the table. *)
Lemma failed_call_commits_nothing_witness :
  exists c sch',
    run (with_commit_rc (calm 0) 5) two_pages (op_request 3) = Returns (c, sch')
    /\ c <> freq_scheduler_error_ok
    /\ schedule sch' = [(key 0 1, F32.of_Z 2); (key 0 2, F32.of_Z 1)].
Proof.
  eexists. eexists. split; [vm_compute; reflexivity|].
  split; [discriminate|].
  apply (failed_call_commits_nothing (with_commit_rc (calm 0) 5) two_pages
           (op_request 3) freq_scheduler_error_internal);
    [vm_compute; reflexivity|discriminate].
Defined.

(** X2.  No operation of the interface writes the options or the path of
    the scheduler: margin, max_n_crawls, persist and path come back as they
    went in.  The page database is the one passed in, except after add,
    where it is what page_db_add left.  The status code returned is the code
    held by the error record of the scheduler on return. *)
Theorem operations_keep_options (w : World) (sch : FreqScheduler)
    (op : operation) (c : FreqSchedulerError) (sch' : FreqScheduler) :
  run w sch op = Returns (c, sch') ->
  same_options sch sch'
  /\ page_db sch'
     = match op with
       | op_add page => snd (page_db_add w (page_db sch) page)
       | _ => page_db sch
       end
  /\ c = code (error sch').
Proof.
  unfold same_options.
  destruct op as [n|fd fs|freqs|page|]; cbn [run].
  - destruct (freq_scheduler_request w sch n) as [r| |] eqn:Hr;
      try discriminate.
    intros H; injection H as <- <-.
    destruct (request_cases _ _ _ _ Hr)
      as [(-> & e & -> & Hce)|(-> & Hok & st & _ & -> & _)];
      cbn; rewrite ?Hce, ?Hok; repeat split; reflexivity.
  - intros H.
    destruct (load_simple_cases _ _ _ _ _ _ H)
      as [(-> & e & -> & Hce)|(-> & Hok & ->)];
      cbn; rewrite ?Hce, ?Hok; repeat split; reflexivity.
  - intros H.
    destruct (load_mmap_cases _ _ _ _ _ H)
      as [(-> & e & -> & Hce)|(-> & Hok & ->)];
      cbn; rewrite ?Hce, ?Hok; repeat split; reflexivity.
  - intros H.
    assert (Ha : freq_scheduler_add w sch page = (c, sch')) by congruence.
    destruct (add_cases _ _ _ _ _ Ha) as (-> & e & ->).
    cbn. repeat split; reflexivity.
  - destruct (freq_scheduler_dump w sch) as [[[c1 sch1] out]| |] eqn:Hd;
      try discriminate.
    intros H; injection H as <- <-.
    destruct (dump_cases _ _ _ _ _ Hd) as (-> & (e & ->) & _).
    cbn. repeat split; reflexivity.
Qed.

(** A throttled scheduler with margin 0 keeps its margin through a
    request. *)
Lemma operations_keep_options_witness :
  exists c sch',
    run (calm 100) one_page_throttled (op_request 10) = Returns (c, sch')
    /\ margin sch' = F32.zero
    /\ c = code (error sch').
Proof.
  eexists. eexists. split; [vm_compute; reflexivity|].
  destruct (operations_keep_options (calm 100) one_page_throttled
              (op_request 10) freq_scheduler_error_ok one_page_throttled)
    as ((_ & _ & Hm & _) & _ & Hc); [vm_compute; reflexivity|].
  split; [exact Hm|exact Hc].
Defined.

(** ** The hashes a request touches *)

Lemma mdb_put_hashes_sup (k : ScheduleKey) (v : float) (t : table) (h : N) :
  h = hash k \/ In h (hashes t) -> In h (hashes (mdb_put k v t)).
Proof.
  induction t as [|[k' v'] t IH]; simpl.
  - intros [->|[]]. left. reflexivity.
  - destruct (schedule_entry_mdb_cmp_asc k k') eqn:Hc; simpl.
    + intros [->|[<-|Hin]]; auto.
      left. symmetry. apply cmp_eq_hash. exact Hc.
    + intros [->|[<-|Hin]]; auto.
    + intros [->|[<-|Hin]]; auto.
Qed.

Lemma mdb_put_not_nil (k : ScheduleKey) (v : float) (t : table) :
  mdb_put k v t <> [].
Proof.
  destruct t as [|[k' v'] t]; simpl; [discriminate|].
  destruct (schedule_entry_mdb_cmp_asc k k'); discriminate.
Qed.

(** One turn of the loop, whichever way it ends: the table it leaves holds
    no hash that was not there, and what it adds to the log is about the
    head of the table. *)
Lemma request_step_keys (w : World) (sch : FreqScheduler) (i : nat)
    (st : loop_state) :
  incl (hashes (cur (state_of (request_step w sch i st)))) (hashes (cur st))
  /\ (log (state_of (request_step w sch i st)) = log st
      \/ exists ev,
           log (state_of (request_step w sch i st)) = log st ++ [ev]
           /\ In (hash (event_key ev)) (hashes (cur st))).
Proof.
  unfold request_step.
  destruct (cur st) as [|[sk freq] t] eqn:Hc; simpl mdb_first; cbv iota beta.
  - destruct (cursor_get_rc w i =? 0).
    + simpl; rewrite ?Hc; split; [apply incl_refl|auto].
    + destruct (cursor_get_rc w i =? 0);
        [simpl; rewrite ?Hc; split; [apply incl_refl|auto]|].
      destruct (cursor_get_rc w i =? MDB_NOTFOUND); simpl; rewrite ?Hc;
        (split; [apply incl_refl|auto]).
  - assert (Hhd : In (hash sk) (hashes ((sk, freq) :: t))) by (left; reflexivity).
    assert (Htl : incl (hashes t) (hashes ((sk, freq) :: t)))
      by (apply incl_tl, incl_refl).
    destruct (cursor_get_rc w i =? 0) eqn:Hg.
    2:{ rewrite Hg. destruct (cursor_get_rc w i =? MDB_NOTFOUND); simpl;
          rewrite Hc; (split; [apply incl_refl|auto]). }
    simpl (0 =? 0). cbv iota.
    destruct (get_info_rc w i =? 0); simpl negb; cbv iota;
      [|simpl; rewrite ?Hc; split; [apply incl_refl|auto]].
    destruct (throttled w sch i freq _).
    { simpl; rewrite ?Hc; split; [apply incl_refl|].
      right. eexists. split; [reflexivity|exact Hhd]. }
    destruct (cursor_del_rc w i =? 0); simpl negb; cbv iota;
      [|simpl; rewrite ?Hc; split; [apply incl_refl|auto]].
    destruct (crawl sch _).
    + destruct (lookup (hash sk) (pages (page_db sch))) as [p|].
      2:{ simpl. split; [exact Htl|].
          right. eexists. split; [reflexivity|exact Hhd]. }
      destruct (add_url_rc w i =? 0); simpl negb; cbv iota;
        [|simpl; split; [exact Htl|auto]].
      destruct (cursor_put_rc w i =? 0); simpl negb; cbv iota; simpl.
      * split.
        -- intros h Hin. apply mdb_put_hashes_incl in Hin.
           destruct Hin as [->|Hin]; [exact Hhd|apply Htl; exact Hin].
        -- right. eexists. split; [reflexivity|exact Hhd].
      * split; [exact Htl|].
        right. eexists. split; [reflexivity|exact Hhd].
    + simpl. split; [exact Htl|].
      right. eexists. split; [reflexivity|exact Hhd].
Qed.

Section TurnInvariant.

Variables (w : World) (sch : FreqScheduler) (max_requests : N).
Variable P : loop_state -> Prop.
Hypothesis P_turn : forall i st,
  P st -> P (state_of (request_step w sch i st)).

(** What every turn keeps holds of the state the loop leaves, also when it
    leaves through [goto on_error]. *)
Lemma request_loop_turns (fuel : nat) : forall i st,
  P st ->
  match request_loop fuel w sch max_requests i st with
  | LoopExit st' | LoopError _ _ st' => P st'
  | LoopFuel => True
  end.
Proof.
  induction fuel as [|fuel IH]; intros i st Hp; simpl.
  - destruct (N.of_nat (List.length (urls st)) <? max_requests)%N; auto.
  - destruct (N.of_nat (List.length (urls st)) <? max_requests)%N; [|exact Hp].
    pose proof (P_turn i st Hp) as Hs.
    destruct (request_step w sch i st) as [st1|st1|e1 e2 st1]; simpl in Hs.
    + apply IH. exact Hs.
    + exact Hs.
    + exact Hs.
Qed.

(** The log and the request of a reply are those of a state the loop
    left, unless the call failed before the loop. *)
Lemma request_reply_turns (r : reply) :
  P {| cur := schedule sch; urls := []; log := [] |} ->
  freq_scheduler_request w sch max_requests = Returns r ->
  (r_log r = [] /\ r_request r = None)
  \/ exists st, P st /\ r_log r = log st /\ r_request r = Some (urls st).
Proof.
  intros Hp. unfold freq_scheduler_request.
  destruct (cursor_open_cases w sch None)
    as [(sch' & -> & _ & _)|[(-> & _ & _)|(-> & _)]].
  - simpl. intros H; injection H as <-. left. split; reflexivity.
  - destruct (is_ok (code (error sch))); simpl negb; cbv iota.
    2:{ intros H; injection H as <-. left. split; reflexivity. }
    destruct (request_new_ok w); simpl negb; cbv iota; [discriminate|].
    intros H; injection H as <-. left. split; reflexivity.
  - destruct (is_ok (code (error sch))); simpl negb; cbv iota.
    2:{ intros H; injection H as <-. left. split; reflexivity. }
    destruct (request_new_ok w); simpl negb; cbv iota.
    2:{ intros H; injection H as <-. left. split; reflexivity. }
    pose proof (request_loop_turns (request_fuel sch max_requests) 0
                  {| cur := schedule sch; urls := []; log := [] |} Hp) as Hl.
    destruct (request_loop _ w sch max_requests 0 _) as [st|e1 e2 st|].
    + destruct (freq_scheduler_cursor_commit w sch (cur st)) as [rc sch2].
      destruct (is_ok rc); simpl negb; cbv iota;
        intros H; injection H as <-; right; exists st; auto.
    + intros H; injection H as <-; right; exists st; auto.
    + discriminate.
Qed.

End TurnInvariant.

(** X3.  A request changes the set of scheduled hashes only by taking out
    hashes it retired: every hash in the table after the call was in it
    before, every hash that was in it before is still there unless the log
    of the call records a row of that hash as retired, and the table has no
    more rows than before.  This holds for every reply, whatever fails. *)
Theorem request_only_retires_hashes (w : World) (sch : FreqScheduler)
    (max_requests : N) (r : reply) :
  freq_scheduler_request w sch max_requests = Returns r ->
  (forall h, In h (hashes (schedule (r_sch r))) ->
             In h (hashes (schedule sch)))
  /\ (forall h, In h (hashes (schedule sch)) ->
                In h (hashes (schedule (r_sch r))) \/ retired h (r_log r))
  /\ (List.length (schedule (r_sch r)) <= List.length (schedule sch))%nat.
Proof.
  intros Hr.
  destruct (request_cases _ _ _ _ Hr)
    as [(_ & e & -> & _)|(_ & _ & st & Hl & -> & _ & ->)].
  { cbn [schedule with_error]. split; [auto|]. split; [auto|].
    apply Nat.le_refl. }
  cbn [schedule with_schedule].
  pose (P := fun st : loop_state =>
    (forall h, In h (hashes (cur st)) -> In h (hashes (schedule sch)))
    /\ (forall h, In h (hashes (schedule sch)) ->
                  In h (hashes (cur st)) \/ retired h (log st))
    /\ (List.length (cur st) <= List.length (schedule sch))%nat).
  apply (request_loop_invariant w sch max_requests P) with (4 := Hl).
  - intros i st1 st2 (Hin & Hout & Hlen) Hs.
    destruct (request_step_next _ _ _ _ _ Hs)
      as (sk & freq & t & Hc & _ & [(p & _ & _ & ->)|(_ & ->)]);
      unfold P; cbn [cur log]; rewrite Hc in *.
    + split; [|split].
      * intros h Hh. apply Hin. apply mdb_put_hashes_incl in Hh.
        rewrite advance_hash in Hh. destruct Hh as [->|Hh];
          [left; reflexivity|right; exact Hh].
      * intros h Hh. destruct (Hout h Hh) as [Hc'|(j & k & f & Hj & Hk)].
        -- left. apply mdb_put_hashes_sup. rewrite advance_hash.
           destruct Hc' as [<-|Hc']; auto.
        -- right. exists j, k, f. split; [|exact Hk].
           apply in_or_app. left. exact Hj.
      * pose proof (mdb_put_length (advance sk freq) freq t) as Hp.
        simpl in Hlen. lia.
    + split; [|split].
      * intros h Hh. apply Hin. right. exact Hh.
      * intros h Hh. destruct (Hout h Hh) as [Hc'|(j & k & f & Hj & Hk)].
        -- destruct Hc' as [<-|Hc']; [|left; exact Hc'].
           right. exists i, sk, freq. split; [|reflexivity].
           apply in_or_app. right. left. reflexivity.
        -- right. exists j, k, f. split; [|exact Hk].
           apply in_or_app. left. exact Hj.
      * simpl in Hlen. lia.
  - intros i st1 st2 (Hin & Hout & Hlen) Hs.
    destruct (request_step_interrupt _ _ _ _ _ Hs) as (Hc & _ & Hlog).
    unfold P. rewrite Hc. split; [exact Hin|]. split; [|exact Hlen].
    intros h Hh. destruct (Hout h Hh) as [Hc'|(j & k & f & Hj & Hk)];
      [left; exact Hc'|].
    right. exists j, k, f. split; [|exact Hk].
    destruct Hlog as [->|(sk & freq & ->)]; [exact Hj|].
    apply in_or_app. left. exact Hj.
  - unfold P. cbn [cur log]. split; [auto|]. split; [auto|]. apply Nat.le_refl.
Qed.


(** The capped scheduler with both pages scheduled and page 1 at its cap
    after a second crawl: a request retires hash 1 and keeps hash 2. *)
Lemma request_only_retires_hashes_witness :
  exists r,
    freq_scheduler_request (calm 60)
      (with_page_db
         (with_schedule capped [(key 0 1, F32.of_Z 1); (key 0 2, F32.of_Z 1)])
         first_crawled_again) 1 = Returns r
    /\ hashes (schedule (r_sch r)) = [2%N]
    /\ (In 1%N (hashes (schedule (r_sch r))) \/ retired 1 (r_log r)).
Proof.
  eexists. split; [vm_compute; reflexivity|].
  split; [vm_compute; reflexivity|].
  refine (proj1 (proj2 (request_only_retires_hashes (calm 60)
            (with_page_db
               (with_schedule capped
                  [(key 0 1, F32.of_Z 1); (key 0 2, F32.of_Z 1)])
               first_crawled_again) 1 _ _)) 1%N _);
    [vm_compute; reflexivity|left; reflexivity].
Defined.

(** X4.  Every URL a request hands out comes from the schedule and the page
    database: the log entry of the URL names a hash that was scheduled when
    the call began, the page database holds a page under that hash, the URL
    is the URL of that page, and the page is under the cap on crawls (or
    there is no cap).  This holds also for the URLs of a reply that carries
    an error code. *)
Theorem emitted_url_is_of_scheduled_page (w : World) (sch : FreqScheduler)
    (max_requests : N) (r : reply) (i : nat) (k : ScheduleKey) (f : float)
    (u : string) :
  freq_scheduler_request w sch max_requests = Returns r ->
  In (Emitted i k f u) (r_log r) ->
  In (hash k) (hashes (schedule sch))
  /\ In u (emitted_urls (r_log r))
  /\ exists p,
       lookup (hash k) (pages (page_db sch)) = Some p
       /\ u = url p
       /\ (max_n_crawls sch = 0%N \/ (n_crawls p < max_n_crawls sch)%N).
Proof.
  intros Hr Hin. split; [|split].
  - pose (P := fun st : loop_state =>
      incl (hashes (cur st)) (hashes (schedule sch))
      /\ forall ev, In ev (log st) ->
                    In (hash (event_key ev)) (hashes (schedule sch))).
    assert (Hp : forall j st, P st -> P (state_of (request_step w sch j st))).
    { intros j st (Hc & Hl).
      destruct (request_step_keys w sch j st) as (Hc' & Hl').
      split; [intros h Hh; apply Hc, Hc'; exact Hh|].
      destruct Hl' as [->|(ev & -> & Hev)]; [exact Hl|].
      intros ev' Hin'. apply in_app_or in Hin'.
      destruct Hin' as [Hin'|[<-|[]]]; [apply Hl; exact Hin'|].
      apply Hc. exact Hev. }
    destruct (request_reply_turns w sch max_requests P Hp r) as
      [(Hnil & _)|(st & (_ & Hl) & Hlog & _)].
    + split; [apply incl_refl|]. intros ev [].
    + exact Hr.
    + rewrite Hnil in Hin. destruct Hin.
    + rewrite Hlog in Hin. apply (Hl _ Hin).
  - clear Hr. induction (r_log r) as [|ev l IH]; [destruct Hin|].
    destruct Hin as [->|Hin]; [left; reflexivity|].
    destruct ev; simpl; auto.
  - pose proof (request_log_sound _ _ _ _ Hr) as Hs.
    rewrite Forall_forall in Hs. specialize (Hs _ Hin).
    destruct Hs as (_ & p & Hl & Hc & Hu).
    exists p. split; [exact Hl|]. split; [exact Hu|].
    unfold crawl in Hc. apply orb_true_iff in Hc.
    destruct Hc as [Hc|Hc]; [left; apply N.eqb_eq; exact Hc|].
    right. apply N.ltb_lt. exact Hc.
Qed.

Lemma emitted_url_is_of_scheduled_page_witness :
  In 1%N (hashes (schedule one_page))
  /\ In "u1"%string (emitted_urls (r_log one_page_twice))
  /\ exists p,
       lookup 1 (pages (page_db one_page)) = Some p
       /\ "u1"%string = url p
       /\ (max_n_crawls one_page = 0%N \/ (n_crawls p < max_n_crawls one_page)%N).
Proof.
  apply (emitted_url_is_of_scheduled_page (calm 0) one_page 2 one_page_twice
           1%nat (key 1 1) (F32.of_Z 1) "u1"%string).
  - vm_compute. reflexivity.
  - right. left. reflexivity.
Defined.

(** ** A full batch *)

(** With the throttle off, no failing call and every scheduled hash naming
    a page under the cap, the loop runs until the request is full; it only
    moves rows inside the table. *)
Lemma request_loop_fills (w : World) (sch : FreqScheduler) (max_requests : N) :
  (forall i, turn_ok w i) ->
  F32.leb F32.zero (margin sch) = false ->
  forall fuel i st,
    cur st <> [] ->
    (forall h, In h (hashes (cur st)) ->
               exists p, lookup h (pages (page_db sch)) = Some p
                         /\ crawl sch (Some p) = true) ->
    (List.length (urls st) <= N.to_nat max_requests)%nat ->
    (N.to_nat max_requests - List.length (urls st) < fuel)%nat ->
    exists st',
      request_loop fuel w sch max_requests i st = LoopExit st'
      /\ N.of_nat (List.length (urls st')) = max_requests
      /\ cur st' <> []
      /\ (forall h, In h (hashes (cur st')) <-> In h (hashes (cur st))).
Proof.
  intros Hw Hm. induction fuel as [|fuel IH]; intros i st Hne Hp Hle Hf;
    [lia|].
  cbn [request_loop].
  destruct (N.of_nat (List.length (urls st)) <? max_requests)%N eqn:Hlt.
  - apply N.ltb_lt in Hlt.
    destruct (cur st) as [|[sk freq] t] eqn:Hc; [contradiction|].
    destruct (Hp (hash sk) (or_introl eq_refl)) as (p & Hl & Hcr).
    rewrite (request_step_emit w sch i st sk freq t p (Hw i) Hc Hl
               (throttle_disabled w sch i freq (Some p) Hm) Hcr).
    assert (Hsame : forall h,
      In h (hashes (mdb_put (advance sk freq) freq t))
      <-> In h (hashes ((sk, freq) :: t))).
    { intros h. split; intros Hh.
      - apply mdb_put_hashes_incl in Hh. rewrite advance_hash in Hh.
        destruct Hh as [->|Hh]; [left; reflexivity|right; exact Hh].
      - apply mdb_put_hashes_sup. rewrite advance_hash.
        destruct Hh as [<-|Hh]; auto. }
    destruct (IH (S i)
                {| cur := mdb_put (advance sk freq) freq t;
                   urls := urls st ++ [url p];
                   log := log st ++ [Emitted i sk freq (url p)] |})
      as (st' & Hl' & Hn & Hne' & Hh').
    + apply mdb_put_not_nil.
    + cbn [cur]. intros h Hh. apply Hp. apply Hsame. exact Hh.
    + cbn [urls]. rewrite length_app. simpl. lia.
    + cbn [urls]. rewrite length_app. simpl. lia.
    + exists st'. split; [exact Hl'|]. split; [exact Hn|].
      split; [exact Hne'|]. intros h. rewrite Hh'. cbn [cur]. apply Hsame.
  - apply N.ltb_ge in Hlt. exists st. split; [reflexivity|].
    split; [lia|]. split; [exact Hne|]. intros h. reflexivity.
Qed.

(** X5.  A request is filled whenever it can be: when no call fails, the
    error record is clean, the throttle is off, the table is not empty and
    every scheduled hash names a page of the page database that is under
    the cap on crawls, the reply carries the success code and exactly
    [max_requests] URLs, and the table holds the same hashes as before. *)
Theorem request_fills_the_batch (w : World) (sch : FreqScheduler)
    (max_requests : N) :
  works w ->
  code (error sch) = freq_scheduler_error_ok ->
  F32.leb F32.zero (margin sch) = false ->
  schedule sch <> [] ->
  (forall h, In h (hashes (schedule sch)) ->
             exists p, lookup h (pages (page_db sch)) = Some p
                       /\ crawl sch (Some p) = true) ->
  exists r l,
    freq_scheduler_request w sch max_requests = Returns r
    /\ r_code r = freq_scheduler_error_ok
    /\ r_request r = Some l
    /\ N.of_nat (List.length l) = max_requests
    /\ (forall h, In h (hashes (schedule (r_sch r)))
                  <-> In h (hashes (schedule sch))).
Proof.
  intros Hw Hok Hm Hne Hp.
  destruct (request_loop_fills w sch max_requests (works_turn w Hw) Hm
              (request_fuel sch max_requests) 0
              {| cur := schedule sch; urls := []; log := [] |} Hne Hp)
    as (st & Hl & Hn & _ & Hh).
  { simpl. lia. }
  { unfold request_fuel. simpl. lia. }
  unfold freq_scheduler_request.
  destruct (cursor_open_cases w sch None)
    as [(sch' & _ & _ & Hx)|[(_ & _ & Hx)|(-> & _)]].
  { destruct Hx. apply Hw. }
  { destruct Hw. destruct Hx as [Hx|[Hx|Hx]]; contradiction. }
  rewrite Hok. simpl negb. cbv iota.
  rewrite (works_request_new w Hw). simpl negb. cbv iota.
  rewrite Hl. unfold freq_scheduler_cursor_commit.
  rewrite (works_commit w Hw). simpl. rewrite Hok. simpl.
  eexists. exists (urls st). split; [reflexivity|]. simpl.
  split; [reflexivity|]. split; [reflexivity|]. split; [exact Hn|exact Hh].
Qed.

Lemma request_fills_the_batch_witness :
  exists r l,
    freq_scheduler_request (calm 0) two_pages 6 = Returns r
    /\ r_code r = freq_scheduler_error_ok
    /\ r_request r = Some l
    /\ N.of_nat (List.length l) = 6%N
    /\ (forall h, In h (hashes (schedule (r_sch r)))
                  <-> In h (hashes (schedule two_pages))).
Proof.
  apply (request_fills_the_batch (calm 0) two_pages 6).
  - apply calm_works.
  - reflexivity.
  - reflexivity.
  - discriminate.
  - intros h [<-|[<-|[]]]; eexists; (split; [reflexivity|reflexivity]).
Defined.

(** ** Stored numbers through the whole interface *)

(** X6.  The stored numbers stay in range through every operation of the
    interface: when every row of the table has a frequency above 0 and a
    score that is a number and not below 0, the same holds after a request,
    an add, a dump, a load_simple whose default frequency is a number, and a
    load_mmap of an array whose frequencies are all above 0, whatever call
    fails on the way. *)
Theorem operations_keep_rows_in_range (w : World) (sch : FreqScheduler)
    (op : operation) (c : FreqSchedulerError) (sch' : FreqScheduler) :
  Forall entry_ok (schedule sch) ->
  in_range op ->
  run w sch op = Returns (c, sch') ->
  Forall entry_ok (schedule sch').
Proof.
  intros Hok Hop.
  destruct op as [n|fd fs|freqs|page|]; cbn [run]; cbn [in_range] in Hop.
  - destruct (freq_scheduler_request w sch n) as [r| |] eqn:Hr;
      try discriminate.
    intros H; injection H as _ <-.
    apply (request_keeps_entries_ok w sch n r Hok Hr).
  - apply (load_simple_keeps_entries_ok w sch fd fs c sch' Hop Hok).
  - apply (load_mmap_keeps_entries_ok w sch freqs c sch' Hop Hok).
  - intros H.
    assert (Ha : freq_scheduler_add w sch page = (c, sch')) by congruence.
    destruct (add_cases _ _ _ _ _ Ha) as (_ & e & ->). exact Hok.
  - destruct (freq_scheduler_dump w sch) as [[[c1 sch1] out]| |] eqn:Hd;
      try discriminate.
    intros H; injection H as _ <-.
    destruct (dump_cases _ _ _ _ _ Hd) as (_ & (e & ->) & _). exact Hok.
Qed.

Lemma operations_keep_rows_in_range_witness :
  Forall entry_ok [(key 2 1, F32.of_Z 2); (key 2 2, F32.of_Z 1)].
Proof.
  apply (operations_keep_rows_in_range (calm 0) two_pages (op_request 6)
           freq_scheduler_error_ok
           (with_schedule two_pages
              [(key 2 1, F32.of_Z 2); (key 2 2, F32.of_Z 1)])).
  - repeat constructor.
  - exact I.
  - vm_compute. reflexivity.
Defined.

(** ** A commit that fails *)

Lemma request_loop_commit_rc (w : World) (sch : FreqScheduler)
    (max_requests : N) (rc : Z) (fuel : nat) : forall i st,
  request_loop fuel (with_commit_rc w rc) sch max_requests i st
  = request_loop fuel w sch max_requests i st.
Proof.
  induction fuel as [|fuel IH]; intros i st; [reflexivity|].
  cbn [request_loop].
  change (request_step (with_commit_rc w rc) sch i st)
    with (request_step w sch i st).
  destruct (N.of_nat (List.length (urls st)) <? max_requests)%N; [|reflexivity].
  destruct (request_step w sch i st); [apply IH|reflexivity|reflexivity].
Qed.

(** X7.  When the commit at the end of a request fails, the caller still
    gets the URLs of the batch, with the internal-error code, while the
    schedule keeps the scores it had: take any request that succeeds; had
    txn_manager_commit returned a non-zero code, everything else equal, the
    reply would carry the same URLs and the same log, the internal-error
    code, and the table as it was before the call. *)
Theorem failed_commit_still_hands_out_urls (w : World) (sch : FreqScheduler)
    (max_requests : N) (r : reply) (rc : Z) :
  rc <> 0 ->
  freq_scheduler_request w sch max_requests = Returns r ->
  r_code r = freq_scheduler_error_ok ->
  exists r',
    freq_scheduler_request (with_commit_rc w rc) sch max_requests = Returns r'
    /\ r_code r' = freq_scheduler_error_internal
    /\ r_request r' = r_request r
    /\ r_log r' = r_log r
    /\ schedule (r_sch r') = schedule sch.
Proof.
  intros Hrc. unfold freq_scheduler_request.
  change (freq_scheduler_cursor_open (with_commit_rc w rc) sch None)
    with (freq_scheduler_cursor_open w sch None).
  change (request_new_ok (with_commit_rc w rc)) with (request_new_ok w).
  destruct (cursor_open_cases w sch None)
    as [(sch' & -> & _ & _)|[(-> & _ & _)|(-> & _)]].
  - simpl. failed_reply.
  - destruct (is_ok (code (error sch))) eqn:Hok; simpl negb; cbv iota;
      [|failed_reply].
    destruct (request_new_ok w); simpl negb; cbv iota; [discriminate|].
    failed_reply.
  - destruct (is_ok (code (error sch))) eqn:Hok; simpl negb; cbv iota;
      [|failed_reply].
    destruct (request_new_ok w); simpl negb; cbv iota; [|failed_reply].
    rewrite request_loop_commit_rc.
    destruct (request_loop _ w sch max_requests 0 _) as [st|e1 e2 st|] eqn:Hl.
    + unfold freq_scheduler_cursor_commit.
      change (txn_commit_rc (with_commit_rc w rc)) with rc.
      apply Z.eqb_neq in Hrc. rewrite Hrc. simpl negb at 2. cbv iota.
      rewrite on_error_code. simpl negb at 2. cbv iota.
      destruct (txn_commit_rc w =? 0); simpl negb; cbv iota.
      * cbn [error with_schedule]. rewrite Hok. simpl negb. cbv iota.
        intros H _; injection H as <-.
        eexists. split; [reflexivity|]. cbn [r_code r_sch r_request r_log].
        rewrite on_error_code, !on_error_schedule. auto.
      * rewrite on_error_code. simpl. failed_reply.
    + failed_reply.
    + discriminate.
Qed.

Lemma failed_commit_still_hands_out_urls_witness :
  exists r',
    freq_scheduler_request (with_commit_rc (calm 0) 5) one_page 2 = Returns r'
    /\ r_code r' = freq_scheduler_error_internal
    /\ r_request r' = Some ["u1"; "u1"]%string
    /\ r_log r' = r_log one_page_twice
    /\ schedule (r_sch r') = [(key 0 1, F32.of_Z 1)].
Proof.
  apply (failed_commit_still_hands_out_urls (calm 0) one_page 2
           one_page_twice 5).
  - discriminate.
  - vm_compute. reflexivity.
  - reflexivity.
Defined.

(** ** freq_scheduler_new *)

(** The scheduler [freq_scheduler_new] hands back, whenever it hands one
    back. *)
Lemma new_defaults (w : World) (db : PageDB) (p : option string)
    (disk : table) (c : FreqSchedulerError) (sch : FreqScheduler) :
  freq_scheduler_new w db p disk = (c, handle_to sch) ->
  code (error sch) = c /\ page_db sch = db /\ schedule sch = disk
  /\ margin sch = minus_one /\ max_n_crawls sch = 0%N
  /\ persist sch = true
  /\ path sch = if path_ok w
                then Some (match p with
                           | Some s => s
                           | None => (db_path db ++ "_freqs")%string
                           end)
                else None.
Proof.
  unfold freq_scheduler_new.
  destruct (malloc_ok w); simpl negb; cbv iota; [|discriminate].
  destruct (error_new_ok w); simpl negb; cbv iota; [|discriminate].
  destruct (if path_ok w then make_dir_error w
            else Some "building scheduler path"%string) as [e|].
  { intros H; injection H as <- <-. cbn. repeat split; reflexivity. }
  destruct (txn_manager_new_rc w =? 0); simpl negb; cbv iota.
  2:{ intros H; injection H as <- <-. cbn. repeat split; reflexivity. }
  destruct (env_create_rc w =? 0); simpl negb; cbv iota.
  2:{ intros H; injection H as <- <-. cbn. repeat split; reflexivity. }
  destruct (env_set_mapsize_rc w =? 0); simpl negb; cbv iota.
  2:{ intros H; injection H as <- <-. cbn. repeat split; reflexivity. }
  destruct (env_set_maxdbs_rc w =? 0); simpl negb; cbv iota.
  2:{ intros H; injection H as <- <-. cbn. repeat split; reflexivity. }
  destruct (env_open_rc w =? 0); simpl negb; cbv iota;
    intros H; injection H as <- <-; cbn; repeat split; reflexivity.
Qed.

(** The status code of [freq_scheduler_new] is the success code exactly
    when none of its calls fails. *)
Lemma new_ok_iff_works (w : World) (db : PageDB) (p : option string)
    (disk : table) :
  fst (freq_scheduler_new w db p disk) = freq_scheduler_error_ok
  <-> new_works w.
Proof.
  unfold freq_scheduler_new, new_works.
  destruct (malloc_ok w); simpl negb; cbv iota.
  2:{ split; [discriminate|]. intros (Hx & _); discriminate. }
  destruct (error_new_ok w); simpl negb; cbv iota.
  2:{ split; [discriminate|]. intros (_ & Hx & _); discriminate. }
  destruct (path_ok w).
  2:{ split; [discriminate|]. intros (_ & _ & Hx & _); discriminate. }
  destruct (make_dir_error w) as [e|].
  { split; [discriminate|]. intros (_ & _ & _ & Hx & _); discriminate. }
  destruct (txn_manager_new_rc w =? 0) eqn:H1; simpl negb; cbv iota.
  2:{ split; [discriminate|].
      intros (_ & _ & _ & _ & Hx & _). rewrite Hx in H1. discriminate. }
  destruct (env_create_rc w =? 0) eqn:H2; simpl negb; cbv iota.
  2:{ split; [discriminate|].
      intros (_ & _ & _ & _ & _ & Hx & _). rewrite Hx in H2. discriminate. }
  destruct (env_set_mapsize_rc w =? 0) eqn:H3; simpl negb; cbv iota.
  2:{ split; [discriminate|].
      intros (_ & _ & _ & _ & _ & _ & Hx & _). rewrite Hx in H3.
      discriminate. }
  destruct (env_set_maxdbs_rc w =? 0) eqn:H4; simpl negb; cbv iota.
  2:{ split; [discriminate|].
      intros (_ & _ & _ & _ & _ & _ & _ & Hx & _). rewrite Hx in H4.
      discriminate. }
  destruct (env_open_rc w =? 0) eqn:H5; simpl negb; cbv iota.
  2:{ split; [discriminate|].
      intros (_ & _ & _ & _ & _ & _ & _ & _ & Hx). rewrite Hx in H5.
      discriminate. }
  split; [|reflexivity]. intros _.
  apply Z.eqb_eq in H1, H2, H3, H4, H5. repeat split; assumption.
Qed.

(** What [*sch] holds after [freq_scheduler_new]. *)
Lemma new_handle (w : World) (db : PageDB) (p : option string)
    (disk : table) :
  match snd (freq_scheduler_new w db p disk) with
  | handle_null => malloc_ok w = false
  | handle_freed => malloc_ok w = true /\ error_new_ok w = false
  | handle_to _ => malloc_ok w = true /\ error_new_ok w = true
  end.
Proof.
  unfold freq_scheduler_new.
  destruct (malloc_ok w); simpl negb; cbv iota; [|reflexivity].
  destruct (error_new_ok w); simpl negb; cbv iota; [|split; reflexivity].
  destruct (if path_ok w then make_dir_error w
            else Some "building scheduler path"%string);
    [split; reflexivity|].
  destruct (txn_manager_new_rc w =? 0); simpl negb; cbv iota;
    [|split; reflexivity].
  destruct (env_create_rc w =? 0); simpl negb; cbv iota;
    [|split; reflexivity].
  destruct (env_set_mapsize_rc w =? 0); simpl negb; cbv iota;
    [|split; reflexivity].
  destruct (env_set_maxdbs_rc w =? 0); simpl negb; cbv iota;
    [|split; reflexivity].
  destruct (env_open_rc w =? 0); split; reflexivity.
Qed.

(** X8.  freq_scheduler_new succeeds exactly when none of the nine calls it
    makes fails (malloc, error_new, the strdup or concat that builds the
    path, make_dir, txn_manager_new and the four calls that set up the LMDB
    environment).  When malloc fails, [*sch] is null; when error_new fails,
    [*sch] is left pointing at the block the function has freed; in both
    cases the memory-error code is returned.  In every other case [*sch]
    points at a scheduler that holds the returned code in its error record,
    the page database and the table found at the path, and the defaults:
    margin -1 (throttle off), no cap on crawls, persist set.  Its path is
    the one given or, when none is given, the path of the page database
    followed by _freqs; when that string cannot be built the path is null,
    make_dir is not called and the invalid-path code is returned with the
    message building scheduler path. *)
Theorem new_succeeds_iff_no_call_fails (w : World) (db : PageDB)
    (p : option string) (disk : table) (c : FreqSchedulerError)
    (o : handle) :
  freq_scheduler_new w db p disk = (c, o) ->
  (c = freq_scheduler_error_ok <-> new_works w)
  /\ (o = handle_null <-> malloc_ok w = false)
  /\ (o = handle_freed <-> malloc_ok w = true /\ error_new_ok w = false)
  /\ (o = handle_null \/ o = handle_freed -> c = freq_scheduler_error_memory)
  /\ (forall sch, o = handle_to sch ->
        code (error sch) = c /\ page_db sch = db /\ schedule sch = disk
        /\ margin sch = minus_one /\ max_n_crawls sch = 0%N
        /\ persist sch = true
        /\ path sch = (if path_ok w
                       then Some (match p with
                                  | Some s => s
                                  | None => (db_path db ++ "_freqs")%string
                                  end)
                       else None)
        /\ (path_ok w = false ->
            c = freq_scheduler_error_invalid_path
            /\ message (error sch)
               = ["freq_scheduler_new"; "building scheduler path"]%string)).
Proof.
  intros H.
  pose proof (new_ok_iff_works w db p disk) as Hok.
  pose proof (new_handle w db p disk) as Hh.
  rewrite H in Hok, Hh. cbn [fst snd] in Hok, Hh.
  split; [exact Hok|].
  split; [|split; [|split]].
  - split.
    + intros ->. exact Hh.
    + intros Hm. destruct o as [| |sch]; [reflexivity| |];
        destruct Hh as (Hh & _); congruence.
  - split.
    + intros ->. exact Hh.
    + intros (Hm & He). destruct o as [| |sch]; [congruence|reflexivity|].
      destruct Hh as (_ & Hh). congruence.
  - revert H. unfold freq_scheduler_new.
    destruct (malloc_ok w); simpl negb; cbv iota; [|congruence].
    destruct (error_new_ok w); simpl negb; cbv iota; [|congruence].
    intros H [-> | ->]; exfalso; revert H;
      (destruct (if path_ok w then make_dir_error w
                 else Some "building scheduler path"%string);
       [discriminate|]);
      (destruct (txn_manager_new_rc w =? 0); simpl negb; cbv iota;
       [|discriminate]);
      (destruct (env_create_rc w =? 0); simpl negb; cbv iota;
       [|discriminate]);
      (destruct (env_set_mapsize_rc w =? 0); simpl negb; cbv iota;
       [|discriminate]);
      (destruct (env_set_maxdbs_rc w =? 0); simpl negb; cbv iota;
       [|discriminate]);
      destruct (env_open_rc w =? 0); discriminate.
  - intros sch ->.
    destruct (new_defaults _ _ _ _ _ _ H)
      as (H1 & H2 & H3 & H4 & H5 & H6 & H7).
    do 7 (split; [assumption|]).
    intros Hp. revert H. unfold freq_scheduler_new.
    destruct Hh as (-> & ->). rewrite Hp. simpl negb. cbv iota.
    intros H; injection H as <- <-. split; reflexivity.
Qed.

(** The path cannot be built: the scheduler handed back has no path and
    holds the invalid-path code. *)
Lemma new_succeeds_iff_no_call_fails_witness :
  exists sch,
    freq_scheduler_new path_fails two_crawled None []
    = (freq_scheduler_error_invalid_path, handle_to sch)
    /\ ~ new_works path_fails
    /\ path sch = None
    /\ margin sch = minus_one
    /\ message (error sch)
       = ["freq_scheduler_new"; "building scheduler path"]%string.
Proof.
  eexists. split; [reflexivity|].
  match goal with
  | |- _ /\ path ?s = _ /\ _ =>
      destruct (new_succeeds_iff_no_call_fails path_fails two_crawled None []
                  freq_scheduler_error_invalid_path (handle_to s) eq_refl)
        as (Hok & _ & _ & _ & Hs);
      destruct (Hs s eq_refl) as (_ & _ & _ & Hm & _ & _ & Hp & Hf)
  end.
  split; [intros Hw; apply Hok in Hw; discriminate Hw|].
  split; [exact Hp|]. split; [exact Hm|].
  apply (Hf eq_refl).
Defined.

(** X9.  The text freq_scheduler_new chains for a failing LMDB call: for
    mdb_env_set_mapsize and mdb_env_set_maxdbs it is the text of the code
    the call returned; for mdb_env_create and mdb_env_open it is the text of
    code 1, whatever the call returned ([rc] is assigned the result of the
    comparison with 0). *)
Theorem new_env_failure_message (w : World) (db : PageDB) (p : option string)
    (disk : table) :
  malloc_ok w = true -> error_new_ok w = true -> path_ok w = true ->
  make_dir_error w = None ->
  txn_manager_new_rc w = 0 ->
  ~ new_works w ->
  exists sch,
    freq_scheduler_new w db p disk
    = (freq_scheduler_error_internal, handle_to sch)
    /\ message (error sch)
       = if negb (env_create_rc w =? 0)
         then ["freq_scheduler_new"; "creating environment";
               mdb_strerror w 1]%string
         else if negb (env_set_mapsize_rc w =? 0)
         then ["freq_scheduler_new"; "setting map size";
               mdb_strerror w (env_set_mapsize_rc w)]%string
         else if negb (env_set_maxdbs_rc w =? 0)
         then ["freq_scheduler_new"; "setting number of databases";
               mdb_strerror w (env_set_maxdbs_rc w)]%string
         else ["freq_scheduler_new"; "opening environment";
               mdb_strerror w 1]%string.
Proof.
  intros Hm He Hp Hd Ht Hn. unfold freq_scheduler_new.
  rewrite Hm, He, Hp, Hd, Ht. simpl negb. cbv iota.
  destruct (env_create_rc w =? 0) eqn:H2; simpl negb; cbv iota;
    [|eexists; split; reflexivity].
  destruct (env_set_mapsize_rc w =? 0) eqn:H3; simpl negb; cbv iota;
    [|eexists; split; reflexivity].
  destruct (env_set_maxdbs_rc w =? 0) eqn:H4; simpl negb; cbv iota;
    [|eexists; split; reflexivity].
  destruct (env_open_rc w =? 0) eqn:H5; simpl negb; cbv iota;
    [|eexists; split; reflexivity].
  exfalso. apply Hn. apply Z.eqb_eq in H2, H3, H4, H5.
  unfold new_works. repeat split; assumption.
Qed.

(** mdb_env_create fails with MDB_VERSION_MISMATCH (-30794): the message
    carries the text of code 1. *)
Lemma new_env_failure_message_witness :
  exists sch,
    freq_scheduler_new (env_world (-30794) 0) two_crawled None []
      = (freq_scheduler_error_internal, handle_to sch)
    /\ message (error sch)
       = ["freq_scheduler_new"; "creating environment";
          "Operation not permitted"]%string.
Proof.
  apply (new_env_failure_message (env_world (-30794) 0) two_crawled None []);
    try reflexivity.
  intros (_ & _ & _ & _ & _ & H & _). discriminate H.
Defined.

(** X10.  A scheduler as freq_scheduler_new hands it back is not
    throttled: until the caller sets margin, no request on it stops a batch
    on the throttle, whatever the clock reads and whenever the pages were
    last crawled. *)
Theorem new_scheduler_is_not_throttled (w : World) (db : PageDB)
    (p : option string) (disk : table) (c : FreqSchedulerError)
    (sch : FreqScheduler) :
  freq_scheduler_new w db p disk = (c, handle_to sch) ->
  forall w' max_requests r i k f,
    freq_scheduler_request w' sch max_requests = Returns r ->
    ~ In (Throttled i k f) (r_log r).
Proof.
  intros Hn w' max_requests r i k f Hr Hin.
  destruct (new_defaults _ _ _ _ _ _ Hn) as (_ & _ & _ & Hm & _).
  pose proof (request_log_sound _ _ _ _ Hr) as Hs.
  rewrite Forall_forall in Hs. specialize (Hs _ Hin). cbn [sound_event] in Hs.
  rewrite throttle_disabled in Hs; [discriminate|].
  rewrite Hm. reflexivity.
Qed.

(** The page of [one_page_throttled], last crawled at second 100, on a new
    scheduler at second 100: the request is served. *)
Lemma new_scheduler_is_not_throttled_witness :
  freq_scheduler_new (calm 100) (page_db_of [(7%N, page_info "u7" 100 1)])
    None [(key 0 7, F32.of_Z 1)]
  = (freq_scheduler_error_ok,
     handle_to (scheduler (page_db_of [(7%N, page_info "u7" 100 1)])
                  [(key 0 7, F32.of_Z 1)]))
  /\ requested (freq_scheduler_request (calm 100)
                  (scheduler (page_db_of [(7%N, page_info "u7" 100 1)])
                     [(key 0 7, F32.of_Z 1)]) 1)
     = Some ["u7"%string]
  /\ ~ In (Throttled 0 (key 0 7) (F32.of_Z 1))
          [Emitted 0 (key 0 7) (F32.of_Z 1) "u7"].
Proof.
  split; [reflexivity|]. split; [vm_compute; reflexivity|].
  apply (new_scheduler_is_not_throttled (calm 100)
           (page_db_of [(7%N, page_info "u7" 100 1)]) None
           [(key 0 7, F32.of_Z 1)] freq_scheduler_error_ok
           (scheduler (page_db_of [(7%N, page_info "u7" 100 1)])
              [(key 0 7, F32.of_Z 1)])
           eq_refl (calm 100) 1
           {| r_code := freq_scheduler_error_ok;
              r_sch := with_schedule
                         (scheduler (page_db_of [(7%N, page_info "u7" 100 1)])
                            [(key 0 7, F32.of_Z 1)])
                         [(key 1 7, F32.of_Z 1)];
              r_request := Some ["u7"%string];
              r_log := [Emitted 0 (key 0 7) (F32.of_Z 1) "u7"] |}).
  vm_compute. reflexivity.
Defined.

(** ** Closing and opening again *)



(** ** What the loads leave in the table *)

Lemma mdb_put_fresh_length (k : ScheduleKey) (v : float) (t : table) :
  ~ In (hash k) (hashes t) ->
  List.length (mdb_put k v t) = S (List.length t).
Proof.
  induction t as [|[k' v'] t IH]; simpl; intros Hn; [reflexivity|].
  destruct (schedule_entry_mdb_cmp_asc k k') eqn:E; simpl.
  - apply cmp_eq_hash in E. exfalso. apply Hn. left. symmetry. exact E.
  - reflexivity.
  - rewrite IH; [reflexivity|]. tauto.
Qed.

(** The rows of an array with distinct hashes, none of them scheduled, are
    added to the table one by one. *)
Lemma fold_mmap_rows (fs : list PageFreq) : forall t,
  NoDup (map pf_hash fs) ->
  (forall h, In h (map pf_hash fs) -> ~ In h (hashes t)) ->
  let t' := fold_left
              (fun t f => mdb_put (fst (mmap_row f)) (snd (mmap_row f)) t)
              fs t in
  (forall e, In e t' <-> In e t \/ exists f, In f fs /\ e = mmap_row f)
  /\ List.length t' = (List.length t + List.length fs)%nat.
Proof.
  induction fs as [|f fs IH]; intros t Hn Hd; cbn [fold_left]; cbv zeta.
  - split; [|simpl; lia]. intros e. split; [auto|].
    intros [H|(f & [] & _)]. exact H.
  - inversion Hn as [|x l Hx Hn']; subst.
    assert (Hf : ~ In (hash (fst (mmap_row f))) (hashes t)).
    { apply Hd. left. reflexivity. }
    destruct (IH (mdb_put (fst (mmap_row f)) (snd (mmap_row f)) t) Hn')
      as (Hin & Hlen); cbv zeta in *.
    { intros h Hh Hc. apply mdb_put_hashes_incl in Hc.
      destruct Hc as [->|Hc]; [exact (Hx Hh)|].
      apply (Hd h); [right; exact Hh|exact Hc]. }
    split.
    + intros e. rewrite Hin. rewrite (mdb_put_fresh_in _ _ _ e Hf).
      split.
      * intros [[He|H]|(f' & Hf' & He)].
        -- right. exists f. split; [left; reflexivity|]. exact He.
        -- left. exact H.
        -- right. exists f'. split; [right; exact Hf'|exact He].
      * intros [H|(f' & [Hf'|Hf'] & He)].
        -- left. right. exact H.
        -- left. left. subst. reflexivity.
        -- right. exists f'. split; assumption.
    + rewrite Hlen, (mdb_put_fresh_length _ _ _ Hf). simpl. lia.
Qed.

(** X12.  A load_mmap of an array whose hashes are distinct and not yet
    scheduled adds exactly the elements of the array: when no call fails and
    the error record is clean, the call returns the success code, a row is
    in the table afterwards exactly when it was there before or it is the
    row (score 1/freq, hash) -> freq of an element of the array, and the
    table has grown by the number of elements. *)
Theorem load_mmap_adds_the_array (w : World) (sch : FreqScheduler)
    (freqs : MMapArray) :
  works w ->
  code (error sch) = freq_scheduler_error_ok ->
  NoDup (map pf_hash (elements freqs)) ->
  (forall h, In h (map pf_hash (elements freqs)) ->
             ~ In h (hashes (schedule sch))) ->
  exists sch',
    freq_scheduler_load_mmap w sch freqs
    = Returns (freq_scheduler_error_ok, sch')
    /\ (forall e, In e (schedule sch')
                  <-> In e (schedule sch)
                      \/ exists f, In f (elements freqs) /\ e = mmap_row f)
    /\ List.length (schedule sch')
       = (List.length (schedule sch) + List.length (elements freqs))%nat.
Proof.
  intros Hw Hok Hn Hd.
  destruct (load_mmap_works w sch freqs Hw Hok) as (sch' & Hl & _).
  exists sch'. split; [exact Hl|].
  destruct (load_mmap_cases _ _ _ _ _ Hl) as [(Hc & _)|(_ & _ & ->)];
    [discriminate|].
  cbn [schedule with_schedule].
  apply (fold_mmap_rows (elements freqs) (schedule sch) Hn Hd).
Qed.

Lemma load_mmap_adds_the_array_witness :
  exists sch',
    freq_scheduler_load_mmap (calm 0) one_page
      {| element_size := 16;
         elements := [{| pf_hash := 2; pf_freq := F32.of_Z 1 |};
                      {| pf_hash := 3; pf_freq := F32.of_Z 1 |}] |}
    = Returns (freq_scheduler_error_ok, sch')
    /\ (forall e, In e (schedule sch')
                  <-> In e (schedule one_page)
                      \/ exists f,
                           In f [{| pf_hash := 2; pf_freq := F32.of_Z 1 |};
                                 {| pf_hash := 3; pf_freq := F32.of_Z 1 |}]
                           /\ e = mmap_row f)
    /\ List.length (schedule sch') = 3%nat.
Proof.
  apply (load_mmap_adds_the_array (calm 0) one_page
           {| element_size := 16;
              elements := [{| pf_hash := 2; pf_freq := F32.of_Z 1 |};
                           {| pf_hash := 3; pf_freq := F32.of_Z 1 |}] |}).
  - apply calm_works.
  - reflexivity.
  - simpl. repeat constructor; simpl; intuition discriminate.
  - simpl. intros h [<-|[<-|[]]]; intuition discriminate.
Defined.

(** The head of an unadvanced table: its score is 0 and its hash is below
    every other hash of the table. *)
Lemma unadvanced_cons (k : ScheduleKey) (v : float) (t : table) :
  unadvanced ((k, v) :: t) ->
  score k = F64.zero /\ unadvanced t
  /\ forall e, In e t -> (hash k < entry_hash e)%N.
Proof.
  intros (Hz & Hs).
  inversion Hz as [|x l Hx Hl]; subst. simpl in Hx.
  split; [exact Hx|].
  simpl in Hs. apply Sorted_StronglySorted in Hs; [|exact N.lt_trans].
  inversion Hs as [|x l Hs' Hf]; subst.
  split.
  - split; [exact Hl|]. apply StronglySorted_Sorted. exact Hs'.
  - intros e He. rewrite Forall_forall in Hf. apply Hf.
    unfold hashes. apply in_map. exact He.
Qed.

(** On an unadvanced table a put at score 0 writes the row of its hash:
    the row is entered, or takes the place of the row of the same hash. *)
Lemma mdb_put_zero_in (h : N) (v : float) (t : table) (e : entry) :
  unadvanced t ->
  (In e (mdb_put {| score := F64.zero; hash := h |} v t)
   <-> e = ({| score := F64.zero; hash := h |}, v)
       \/ (In e t /\ entry_hash e <> h)).
Proof.
  induction t as [|[k' v'] t IH]; intros Hu.
  - simpl. intuition.
  - destruct (unadvanced_cons _ _ _ Hu) as (Hz & Hu' & Hlt).
    cbn [mdb_put]. rewrite (cmp_zero h k' Hz).
    destruct (N.compare_spec h (hash k')) as [E|E|E].
    + assert (Hk : k' = {| score := F64.zero; hash := h |}).
      { destruct k' as [s' h']. simpl in *. subst. reflexivity. }
      subst k'. simpl. split.
      * intros [<-|H]; [left; reflexivity|].
        right. split; [right; exact H|].
        specialize (Hlt _ H). simpl in Hlt. lia.
      * intros [->|([H|H] & Hne)]; auto.
        exfalso. apply Hne. rewrite <- H. reflexivity.
    + simpl. split.
      * intros [<-|[<-|H]]; auto.
        -- right. split; [left; reflexivity|]. unfold entry_hash. simpl. lia.
        -- right. split; [right; exact H|]. specialize (Hlt _ H). lia.
      * intros [->|([H|H] & Hne)]; auto.
    + simpl. rewrite (IH Hu'). split.
      * intros [<-|[->|(H & Hne)]]; auto.
        right. split; [left; reflexivity|]. unfold entry_hash. simpl. lia.
      * intros [->|([H|H] & Hne)]; auto.
Qed.

(** A put of a row the unadvanced table holds changes nothing. *)
Lemma mdb_put_zero_present (h : N) (v : float) (t : table) :
  unadvanced t ->
  In ({| score := F64.zero; hash := h |}, v) t ->
  mdb_put {| score := F64.zero; hash := h |} v t = t.
Proof.
  induction t as [|[k' v'] t IH]; intros Hu Hin; [destruct Hin|].
  destruct (unadvanced_cons _ _ _ Hu) as (Hz & Hu' & Hlt).
  cbn [mdb_put]. rewrite (cmp_zero h k' Hz).
  destruct (N.compare_spec h (hash k')) as [E|E|E].
  - destruct Hin as [Hin|Hin].
    + injection Hin as _ ->. reflexivity.
    + specialize (Hlt _ Hin). unfold entry_hash in Hlt. simpl in Hlt. lia.
  - exfalso. destruct Hin as [Hin|Hin].
    + injection Hin as -> _. simpl in E. lia.
    + specialize (Hlt _ Hin). unfold entry_hash in Hlt. simpl in Hlt. lia.
  - destruct Hin as [Hin|Hin].
    + injection Hin as -> _. simpl in E. lia.
    + rewrite (IH Hu' Hin). reflexivity.
Qed.

Lemma load_simple_row_loaded (sch : FreqScheduler)
    (freq_default freq_scale : float) (t : table) (x : N * PageInfo) :
  load_simple_row sch freq_default freq_scale t x
  = if loaded sch freq_default freq_scale x
    then mdb_put (fst (simple_row freq_default freq_scale x))
                 (snd (simple_row freq_default freq_scale x)) t
    else t.
Proof.
  unfold load_simple_row, loaded. rewrite not_leb_zero. reflexivity.
Qed.

Lemma load_simple_row_unadvanced (sch : FreqScheduler)
    (freq_default freq_scale : float) (t : table) (x : N * PageInfo) :
  unadvanced t ->
  unadvanced (load_simple_row sch freq_default freq_scale t x).
Proof.
  intros Hu. rewrite load_simple_row_loaded.
  destruct (loaded sch freq_default freq_scale x); [|exact Hu].
  apply mdb_put_unadvanced. exact Hu.
Qed.

(** The rows of a stream with distinct hashes written into an unadvanced
    table. *)
Lemma fold_simple_rows (sch : FreqScheduler) (freq_default freq_scale : float)
    (xs : list (N * PageInfo)) : forall t,
  unadvanced t ->
  NoDup (map fst xs) ->
  let t' := fold_left (load_simple_row sch freq_default freq_scale) xs t in
  unadvanced t'
  /\ forall e,
       In e t'
       <-> (exists x, In x xs /\ loaded sch freq_default freq_scale x = true
                      /\ e = simple_row freq_default freq_scale x)
           \/ (In e t
               /\ forall x, In x xs ->
                            loaded sch freq_default freq_scale x = true ->
                            fst x <> entry_hash e).
Proof.
  induction xs as [|x xs IH]; intros t Hu Hn; cbn [fold_left]; cbv zeta.
  - split; [exact Hu|]. intros e. split.
    + intros H. right. split; [exact H|]. intros x [].
    + intros [(x & [] & _)|(H & _)]. exact H.
  - inversion Hn as [|a l Hx Hn']; subst.
    destruct (IH (load_simple_row sch freq_default freq_scale t x)
                (load_simple_row_unadvanced _ _ _ _ _ Hu) Hn') as (Hu' & Hin).
    split; [exact Hu'|].
    intros e. rewrite Hin. rewrite load_simple_row_loaded.
    destruct (loaded sch freq_default freq_scale x) eqn:Hl.
    + unfold simple_row at 2 3. cbn [fst snd].
      rewrite (mdb_put_zero_in (fst x) _ t e Hu).
      split.
      * intros [(x' & Hx' & Hl' & He)|([He|(He & Hne)] & Hall)].
        -- left. exists x'. split; [right; exact Hx'|]. split; assumption.
        -- left. exists x. split; [left; reflexivity|]. split; assumption.
        -- right. split; [exact He|].
           intros x' [Hx'|Hx'] Hl'; [subst x'; congruence|].
           apply Hall; assumption.
      * intros [(x' & [Hx'|Hx'] & Hl' & He)|(He & Hall)].
        -- subst x' e. right. split; [left; reflexivity|].
           intros x' Hx' _ Heq. apply Hx.
           unfold entry_hash, simple_row in Heq. simpl in Heq.
           rewrite <- Heq. apply in_map. exact Hx'.
        -- left. exists x'. split; [exact Hx'|]. split; assumption.
        -- right. split.
           ++ right. split; [exact He|].
              intros Heq. apply (Hall x (or_introl eq_refl) Hl).
              symmetry. exact Heq.
           ++ intros x' Hx' Hl'. apply Hall; [right; exact Hx'|exact Hl'].
    + split.
      * intros [(x' & Hx' & Hl' & He)|(He & Hall)].
        -- left. exists x'. split; [right; exact Hx'|]. split; assumption.
        -- right. split; [exact He|].
           intros x' [Hx'|Hx'] Hl'; [subst x'; congruence|].
           apply Hall; assumption.
      * intros [(x' & [Hx'|Hx'] & Hl' & He)|(He & Hall)].
        -- subst x'. congruence.
        -- left. exists x'. split; [exact Hx'|]. split; assumption.
        -- right. split; [exact He|].
           intros x' Hx' Hl'. apply Hall; [right; exact Hx'|exact Hl'].
Qed.

(** X13.  On a table no request has advanced yet, load_simple writes one
    row per page that passes its tests and leaves the other rows alone: when
    no call fails, the error record is clean and the hashes of the page
    database are distinct, the call returns the success code and a row is in
    the table afterwards exactly when it is the row (0, hash) -> frequency
    of a page that is crawled, under the cap, not a seed and whose frequency
    is not at or below 0, or it was in the table before under a hash that
    names no such page.  The table is again one no request has advanced. *)
Theorem load_simple_writes_one_row_per_page (w : World) (sch : FreqScheduler)
    (freq_default freq_scale : float) :
  works w ->
  code (error sch) = freq_scheduler_error_ok ->
  unadvanced (schedule sch) ->
  NoDup (map fst (pages (page_db sch))) ->
  exists sch',
    freq_scheduler_load_simple w sch freq_default freq_scale
    = Returns (freq_scheduler_error_ok, sch')
    /\ unadvanced (schedule sch')
    /\ forall e,
         In e (schedule sch')
         <-> (exists x, In x (pages (page_db sch))
                        /\ loaded sch freq_default freq_scale x = true
                        /\ e = simple_row freq_default freq_scale x)
             \/ (In e (schedule sch)
                 /\ forall x, In x (pages (page_db sch)) ->
                              loaded sch freq_default freq_scale x = true ->
                              fst x <> entry_hash e).
Proof.
  intros Hw Hok Hu Hn.
  eexists. split; [apply (load_simple_works w sch _ _ Hw Hok)|].
  cbn [schedule with_schedule].
  apply (fold_simple_rows sch freq_default freq_scale _ _ Hu Hn).
Qed.

Lemma load_simple_writes_one_row_per_page_witness :
  exists sch',
    freq_scheduler_load_simple (calm 0) capped (F32.of_Z 1) F32.zero
    = Returns (freq_scheduler_error_ok, sch')
    /\ unadvanced (schedule sch')
    /\ forall e,
         In e (schedule sch')
         <-> (exists x, In x (pages (page_db capped))
                        /\ loaded capped (F32.of_Z 1) F32.zero x = true
                        /\ e = simple_row (F32.of_Z 1) F32.zero x)
             \/ (In e (schedule capped)
                 /\ forall x, In x (pages (page_db capped)) ->
                              loaded capped (F32.of_Z 1) F32.zero x = true ->
                              fst x <> entry_hash e).
Proof.
  apply (load_simple_writes_one_row_per_page (calm 0) capped (F32.of_Z 1)
           F32.zero).
  - apply calm_works.
  - reflexivity.
  - split; constructor.
  - simpl. repeat constructor; simpl; intuition discriminate.
Defined.

Lemma fold_simple_rows_present (sch : FreqScheduler)
    (freq_default freq_scale : float) (xs : list (N * PageInfo)) (t : table) :
  unadvanced t ->
  (forall x, In x xs -> loaded sch freq_default freq_scale x = true ->
             In (simple_row freq_default freq_scale x) t) ->
  fold_left (load_simple_row sch freq_default freq_scale) xs t = t.
Proof.
  intros Hu. induction xs as [|x xs IH]; intros Hall; cbn [fold_left];
    [reflexivity|].
  assert (Hx : load_simple_row sch freq_default freq_scale t x = t).
  { rewrite load_simple_row_loaded.
    destruct (loaded sch freq_default freq_scale x) eqn:Hl; [|reflexivity].
    apply mdb_put_zero_present; [exact Hu|].
    apply (Hall x (or_introl eq_refl) Hl). }
  rewrite Hx. apply IH. intros x' Hx' Hl'. apply Hall; [right; exact Hx'|exact Hl'].
Qed.

(** X14.  Loading twice in a row is the same as loading once: on a table no
    request has advanced, with no failing call, a clean error record and
    distinct hashes in the page database, a second load_simple with the same
    arguments returns the success code and leaves the scheduler exactly as
    the first one left it. *)
Theorem load_simple_twice_is_once (w : World) (sch : FreqScheduler)
    (freq_default freq_scale : float) :
  works w ->
  code (error sch) = freq_scheduler_error_ok ->
  unadvanced (schedule sch) ->
  NoDup (map fst (pages (page_db sch))) ->
  exists sch',
    freq_scheduler_load_simple w sch freq_default freq_scale
    = Returns (freq_scheduler_error_ok, sch')
    /\ freq_scheduler_load_simple w sch' freq_default freq_scale
       = Returns (freq_scheduler_error_ok, sch').
Proof.
  intros Hw Hok Hu Hn.
  eexists. split; [apply (load_simple_works w sch _ _ Hw Hok)|].
  rewrite load_simple_works; [|exact Hw|exact Hok].
  f_equal. f_equal. unfold with_schedule at 1. cbn [page_db path error persist margin max_n_crawls schedule with_schedule].
  unfold with_schedule. f_equal.
  destruct (fold_simple_rows sch freq_default freq_scale
              (pages (page_db sch)) (schedule sch) Hu Hn) as (Hu' & Hin).
  apply fold_simple_rows_present; [exact Hu'|].
  intros x Hx Hl. apply Hin. left. exists x. auto.
Qed.

Lemma load_simple_twice_is_once_witness :
  exists sch',
    freq_scheduler_load_simple (calm 0) capped (F32.of_Z 1) F32.zero
    = Returns (freq_scheduler_error_ok, sch')
    /\ freq_scheduler_load_simple (calm 0) sch' (F32.of_Z 1) F32.zero
       = Returns (freq_scheduler_error_ok, sch').
Proof.
  apply (load_simple_twice_is_once (calm 0) capped (F32.of_Z 1) F32.zero).
  - apply calm_works.
  - reflexivity.
  - split; constructor.
  - simpl. repeat constructor; simpl; intuition discriminate.
Defined.

(** ** Dumping the schedule *)

(** X15.  A dump reads and never writes the schedule: whatever fails, the
    table is the same after the call, and the rows printed are the first
    rows of the table, in the order of the cursor.  When no read of the
    cursor fails and the success code is returned, every row of the table
    has been printed. *)
Theorem dump_prints_the_first_rows (w : World) (sch : FreqScheduler)
    (c : FreqSchedulerError) (sch' : FreqScheduler) (output : list entry) :
  freq_scheduler_dump w sch = Returns (c, sch', output) ->
  schedule sch' = schedule sch
  /\ (exists rest, schedule sch = output ++ rest)
  /\ ((forall i, cursor_get_rc w i = 0) ->
      c = freq_scheduler_error_ok ->
      output = schedule sch).
Proof.
  intros Hd.
  destruct (dump_cases _ _ _ _ _ Hd) as (Hc & (e & He) & Hrest).
  split; [rewrite He; reflexivity|]. split; [exact Hrest|].
  intros Hg Hok. revert Hd. unfold freq_scheduler_dump.
  destruct (cursor_open_frame w sch None) as [(e' & -> & He')|[->| ->]].
  - simpl. intros H; injection H as H _ _. congruence.
  - destruct (is_ok (code (error sch))) eqn:Hs; simpl negb; cbv iota;
      [discriminate|].
    intros H; injection H as H _ _. rewrite H, Hok in Hs. discriminate.
  - destruct (is_ok (code (error sch))) eqn:Hs; simpl negb; cbv iota.
    + rewrite (dump_loop_works w sch (schedule sch) Hg).
      intros H; injection H as _ _ <-. reflexivity.
    + intros H; injection H as H _ _. rewrite H, Hok in Hs. discriminate.
Qed.

(** The read of the second row fails: the first row is printed, the call
    returns the internal-error code, the table is as before. *)
Lemma dump_prints_the_first_rows_witness :
  exists sch',
    freq_scheduler_dump (get_fails 1 5) two_pages
    = Returns (freq_scheduler_error_internal, sch', [(key 0 1, F32.of_Z 2)])
    /\ schedule sch' = schedule two_pages
    /\ exists rest, schedule two_pages = [(key 0 1, F32.of_Z 2)] ++ rest.
Proof.
  eexists. split; [vm_compute; reflexivity|].
  match goal with
  | |- schedule ?s = _ /\ _ =>
      destruct (dump_prints_the_first_rows (get_fails 1 5) two_pages
                  freq_scheduler_error_internal s [(key 0 1, F32.of_Z 2)])
        as (H1 & H2 & _); [vm_compute; reflexivity|]
  end.
  split; [exact H1|exact H2].
Defined.

(** Rows that begin an unadvanced table. *)
Lemma unadvanced_prefix (t1 t2 : table) :
  unadvanced (t1 ++ t2) -> unadvanced t1.
Proof.
  intros (Hz & Hs). split.
  - apply Forall_app in Hz. apply Hz.
  - unfold hashes in *. rewrite map_app in Hs.
    apply Sorted_StronglySorted in Hs; [|exact N.lt_trans].
    apply StronglySorted_Sorted.
    induction (map entry_hash t1) as [|a l IH]; [constructor|].
    simpl in Hs. inversion Hs as [|x y Hs' Hf]; subst.
    constructor; [apply IH; exact Hs'|].
    apply Forall_app in Hf. apply Hf.
Qed.

(** X16.  What a dump prints after a load_simple: when the table held no
    advanced row before the load (an empty table for one), every row printed
    has score 0, the rows come in increasing order of their hashes, and no
    hash is printed twice, whatever fails in the load or in the dump. *)
Theorem dump_after_load_simple_is_ordered (w1 w2 : World) (sch : FreqScheduler)
    (freq_default freq_scale : float) (c1 c2 : FreqSchedulerError)
    (sch1 sch2 : FreqScheduler) (output : list entry) :
  unadvanced (schedule sch) ->
  freq_scheduler_load_simple w1 sch freq_default freq_scale
    = Returns (c1, sch1) ->
  freq_scheduler_dump w2 sch1 = Returns (c2, sch2, output) ->
  Forall (fun e => score (fst e) = F64.zero) output
  /\ Sorted N.lt (hashes output)
  /\ NoDup (hashes output).
Proof.
  intros Hu Hl Hd.
  pose proof (load_simple_unadvanced _ _ _ _ _ _ Hu Hl) as Hu1.
  destruct (dump_cases _ _ _ _ _ Hd) as (_ & _ & rest & Hrest).
  rewrite Hrest in Hu1. apply unadvanced_prefix in Hu1.
  split; [apply Hu1|]. split; [apply Hu1|].
  apply (unadvanced_unique _ Hu1).
Qed.

Lemma dump_after_load_simple_is_ordered_witness :
  Forall (fun e => score (fst e) = F64.zero)
         [(key 0 1, F32.of_Z 1); (key 0 2, F32.of_Z 1)]
  /\ Sorted N.lt (hashes [(key 0 1, F32.of_Z 1); (key 0 2, F32.of_Z 1)])
  /\ NoDup (hashes [(key 0 1, F32.of_Z 1); (key 0 2, F32.of_Z 1)]).
Proof.
  apply (dump_after_load_simple_is_ordered (calm 0) (calm 0)
           (scheduler two_crawled []) (F32.of_Z 1) F32.zero
           freq_scheduler_error_ok freq_scheduler_error_ok
           (with_schedule (scheduler two_crawled [])
              [(key 0 1, F32.of_Z 1); (key 0 2, F32.of_Z 1)])
           (with_schedule (scheduler two_crawled [])
              [(key 0 1, F32.of_Z 1); (key 0 2, F32.of_Z 1)])).
  - split; constructor.
  - vm_compute. reflexivity.
  - vm_compute. reflexivity.
Defined.

(** ** Splitting a batch *)

Lemma steady_throttled (w : World) (sch : FreqScheduler) :
  steady w sch ->
  forall i j freq pi,
    throttled w sch i freq pi = throttled w sch j freq pi.
Proof.
  intros [Hm|Hc] i j freq pi.
  - rewrite !throttle_disabled by exact Hm. reflexivity.
  - unfold throttled, elapsed. rewrite (Hc i j). reflexivity.
Qed.

(** A turn does not look at the URLs gathered so far, nor, when the world
    is steady and no call fails, at its number. *)
Lemma request_step_shift (w : World) (sch : FreqScheduler) (i j : nat)
    (st st2 : loop_state) (pre : list string) :
  turn_ok w i -> turn_ok w j -> steady w sch ->
  cur st = cur st2 -> urls st = pre ++ urls st2 ->
  match request_step w sch i st, request_step w sch j st2 with
  | Next s, Next s2 | Interrupt s, Interrupt s2 =>
      cur s = cur s2 /\ urls s = pre ++ urls s2
  | _, _ => False
  end.
Proof.
  intros (Hg & Hi & Hd & Ha & Hp) (Hg' & Hi' & Hd' & Ha' & Hp') Hst Hc Hu.
  unfold request_step.
  rewrite Hg, Hi, Hd, Ha, Hp, Hg', Hi', Hd', Ha', Hp', <- Hc.
  destruct (cur st) as [|[sk freq] t] eqn:Hcur; simpl.
  - rewrite ?Hcur. auto.
  - rewrite (steady_throttled w sch Hst i j).
    destruct (throttled w sch j freq _); simpl.
    + rewrite ?Hcur. auto.
    + destruct (crawl sch _).
      * destruct (lookup (hash sk) (pages (page_db sch))) as [p|]; simpl.
        -- split; [reflexivity|]. rewrite Hu, app_assoc. reflexivity.
        -- auto.
      * simpl. auto.
Qed.

Lemma request_loop_more_fuel (w : World) (sch : FreqScheduler)
    (max_requests : N) (fuel : nat) : forall fuel' i st s,
  request_loop fuel w sch max_requests i st = LoopExit s ->
  (fuel <= fuel')%nat ->
  request_loop fuel' w sch max_requests i st = LoopExit s.
Proof.
  induction fuel as [|fuel IH]; intros fuel' i st s; cbn [request_loop].
  - destruct fuel'; cbn [request_loop];
      destruct (N.of_nat (List.length (urls st)) <? max_requests)%N;
      try discriminate; auto.
  - intros H Hle. destruct fuel' as [|fuel']; [lia|]. cbn [request_loop].
    destruct (N.of_nat (List.length (urls st)) <? max_requests)%N; [|exact H].
    destruct (request_step w sch i st); [|exact H|exact H].
    apply IH; [exact H|lia].
Qed.

Lemma request_loop_with_schedule (w : World) (sch : FreqScheduler)
    (t : table) (max_requests : N) (fuel : nat) : forall i st,
  request_loop fuel w (with_schedule sch t) max_requests i st
  = request_loop fuel w sch max_requests i st.
Proof.
  induction fuel as [|fuel IH]; intros i st; [reflexivity|].
  cbn [request_loop].
  change (request_step w (with_schedule sch t) i st)
    with (request_step w sch i st).
  destruct (N.of_nat (List.length (urls st)) <? max_requests)%N; [|reflexivity].
  destruct (request_step w sch i st); [apply IH|reflexivity|reflexivity].
Qed.

(** The loop for [a + b] URLs goes through the state in which the loop for
    [a] URLs stops. *)
Lemma request_loop_prefix (w : World) (sch : FreqScheduler) (a b : N)
    (fuel : nat) : forall i st st1,
  request_loop fuel w sch a i st = LoopExit st1 ->
  (exists i' st',
      request_step w sch i' st' = Interrupt st1
      /\ request_loop fuel w sch (a + b) i st = LoopExit st1)
  \/ ((a <= N.of_nat (List.length (urls st1)))%N
      /\ exists k i1,
           request_loop fuel w sch (a + b) i st
           = request_loop (fuel - k) w sch (a + b) i1 st1).
Proof.
  induction fuel as [|fuel IH]; intros i st st1; cbn [request_loop].
  - destruct (N.ltb_spec (N.of_nat (List.length (urls st))) a) as [Hlt|Hge];
      [discriminate|].
    intros H; injection H as <-. right. split; [exact Hge|].
    exists 0%nat, i. reflexivity.
  - destruct (N.ltb_spec (N.of_nat (List.length (urls st))) a) as [Hlt|Hge].
    + assert (Hab : (N.of_nat (List.length (urls st)) <? a + b)%N = true)
        by (apply N.ltb_lt; lia).
      rewrite Hab.
      destruct (request_step w sch i st) as [s|s|e1 e2 s] eqn:Hs.
      * intros H. destruct (IH _ _ _ H) as [(i' & st' & Hi & Hl)|(Hle & k & i1 & Hl)].
        -- left. exists i', st'. auto.
        -- right. split; [exact Hle|]. exists (S k), i1. exact Hl.
      * intros H; injection H as <-. left. exists i, st. auto.
      * discriminate.
    + intros H; injection H as <-. right. split; [exact Hge|].
      exists 0%nat, i. reflexivity.
Qed.

(** The loop for [m] more URLs, started with [pre] already gathered, does
    what the loop for [m] URLs does when started afresh. *)
Lemma request_loop_shift (w : World) (sch : FreqScheduler) (m : N)
    (pre : list string) :
  (forall i, turn_ok w i) -> steady w sch ->
  forall fuel i j st st2,
    cur st = cur st2 -> urls st = pre ++ urls st2 ->
    match request_loop fuel w sch (N.of_nat (List.length pre) + m) i st,
          request_loop fuel w sch m j st2 with
    | LoopExit s, LoopExit s2 => cur s = cur s2 /\ urls s = pre ++ urls s2
    | LoopFuel, LoopFuel => True
    | _, _ => False
    end.
Proof.
  intros Hw Hst.
  assert (Hcond : forall st st2 : loop_state,
    urls st = pre ++ urls st2 ->
    (N.of_nat (List.length (urls st)) <? N.of_nat (List.length pre) + m)%N
    = (N.of_nat (List.length (urls st2)) <? m)%N).
  { intros st st2 Hu. rewrite Hu, length_app.
    destruct (N.ltb_spec (N.of_nat (List.length pre + List.length (urls st2)))
                (N.of_nat (List.length pre) + m)),
             (N.ltb_spec (N.of_nat (List.length (urls st2))) m);
      try lia; reflexivity. }
  induction fuel as [|fuel IH]; intros i j st st2 Hc Hu;
    cbn [request_loop]; rewrite (Hcond st st2 Hu).
  - destruct (N.of_nat (List.length (urls st2)) <? m)%N; auto.
  - destruct (N.of_nat (List.length (urls st2)) <? m)%N; [|auto].
    pose proof (request_step_shift w sch i j st st2 pre (Hw i) (Hw j) Hst
                  Hc Hu) as Hs.
    destruct (request_step w sch i st) as [s|s|e1 e2 s],
             (request_step w sch j st2) as [s2|s2|e1' e2' s2];
      try contradiction.
    + destruct Hs as (Hc' & Hu'). apply IH; assumption.
    + exact Hs.
Qed.

(** X17.  A batch can be asked for in two parts: when no call fails, the
    error record is clean and the throttle gives the same answer throughout
    (it is off, or the clock does not move), a request for [a] URLs followed
    by a request for [b] URLs hands out, one after the other, the URLs a
    single request for [a + b] URLs hands out, and leaves the same table. *)
Theorem request_in_two_parts (w : World) (sch : FreqScheduler) (a b : N) :
  works w ->
  code (error sch) = freq_scheduler_error_ok ->
  steady w sch ->
  exists r1 r2 r l1 l2,
    freq_scheduler_request w sch a = Returns r1
    /\ r_request r1 = Some l1
    /\ freq_scheduler_request w (r_sch r1) b = Returns r2
    /\ r_request r2 = Some l2
    /\ freq_scheduler_request w sch (a + b) = Returns r
    /\ r_request r = Some (l1 ++ l2)
    /\ schedule (r_sch r) = schedule (r_sch r2)
    /\ r_code r = freq_scheduler_error_ok
    /\ r_code r2 = freq_scheduler_error_ok.
Proof.
  intros Hw Hok Hst.
  destruct (request_works w sch a Hw Hok) as (r1 & Hr1 & Hc1 & He1).
  destruct (request_ok_inv _ _ _ _ Hr1 Hc1) as (st1 & Hl1 & Hs1 & Hq1 & _).
  assert (Hok1 : code (error (r_sch r1)) = freq_scheduler_error_ok)
    by (rewrite He1; exact Hok).
  destruct (request_works w (r_sch r1) b Hw Hok1) as (r2 & Hr2 & Hc2 & _).
  destruct (request_ok_inv _ _ _ _ Hr2 Hc2) as (st2 & Hl2 & Hs2 & Hq2 & _).
  destruct (request_works w sch (a + b) Hw Hok) as (r & Hr & Hc & _).
  destruct (request_ok_inv _ _ _ _ Hr Hc) as (st & Hl & Hs & Hq & _).
  exists r1, r2, r, (urls st1), (urls st2).
  do 5 (split; [assumption|]).
  rewrite Hs, Hs2, Hq. cbn [schedule with_schedule].
  revert Hl2. rewrite Hs1 at 2 3. rewrite request_loop_with_schedule.
  cbn [schedule with_schedule]. intros Hl2.
  set (st0 := {| cur := schedule sch; urls := []; log := [] |}) in *.
  set (s0 := {| cur := cur st1; urls := []; log := [] |}) in *.
  set (Fa := request_fuel sch a) in *.
  set (Fb := request_fuel (r_sch r1) b) in *.
  set (F := request_fuel sch (a + b)) in *.
  assert (Hgoal : cur st = cur st2 /\ urls st = urls st1 ++ urls st2).
  2:{ destruct Hgoal as (-> & ->). auto. }
  pose (M := Nat.max Fa F).
  pose proof (request_loop_more_fuel _ _ _ _ M _ _ _ Hl1 (Nat.le_max_l _ _))
    as Hl1'.
  pose proof (request_loop_more_fuel _ _ _ _ M _ _ _ Hl (Nat.le_max_r _ _))
    as Hl'.
  destruct (request_loop_prefix w sch a b M 0 st0 st1 Hl1')
    as [(i' & st' & Hi & Hx)|(Hle & k & i1 & Hx)].
  - rewrite Hl' in Hx. injection Hx as ->.
    destruct (request_step_interrupt _ _ _ _ _ Hi) as (Hcur & Hurls & _).
    revert Hl2. destruct Fb as [|Fb]; cbn [request_loop].
    + destruct (N.of_nat (List.length (urls s0)) <? b)%N; [discriminate|].
      intros H; injection H as <-. simpl. rewrite app_nil_r. auto.
    + destruct (N.of_nat (List.length (urls s0)) <? b)%N.
      2:{ intros H; injection H as <-. simpl. rewrite app_nil_r. auto. }
      pose proof (request_step_shift w sch i' 0 st' s0 (urls st')
                    (works_turn w Hw i') (works_turn w Hw 0%nat) Hst
                    (eq_sym Hcur) (eq_sym (app_nil_r _))) as Hsh.
      rewrite Hi in Hsh.
      destruct (request_step w sch 0 s0) as [s2|s2|e1 e2 s2];
        try contradiction.
      destruct Hsh as (Hc2' & Hu2'). intros H; injection H as <-.
      split; [exact Hc2'|].
      rewrite Hurls in Hu2'.
      rewrite <- (app_nil_r (urls st')) in Hu2' at 1.
      apply app_inv_head in Hu2'. rewrite <- Hu2', app_nil_r. reflexivity.
  - pose proof (request_loop_bound w sch a M 0 st0 ltac:(simpl; lia)) as Hb.
    rewrite Hl1' in Hb.
    assert (Hlen : N.of_nat (List.length (urls st1)) = a) by lia.
    rewrite Hl' in Hx. symmetry in Hx.
    pose proof (request_loop_shift w sch b (urls st1) (works_turn w Hw) Hst
                  (M - k) i1 0 st1 s0 eq_refl (eq_sym (app_nil_r _))) as Hsh.
    rewrite Hlen, Hx in Hsh.
    destruct (request_loop (M - k) w sch b 0 s0) as [s2| |] eqn:Hl2';
      try contradiction.
    pose proof (request_loop_more_fuel _ _ _ _ (Nat.max Fb (M - k)) _ _ _ Hl2
                  (Nat.le_max_l _ _)) as H1.
    pose proof (request_loop_more_fuel _ _ _ _ (Nat.max Fb (M - k)) _ _ _ Hl2'
                  (Nat.le_max_r _ _)) as H2.
    rewrite H1 in H2. injection H2 as ->. exact Hsh.
Qed.

Lemma request_in_two_parts_witness :
  exists r1 r2 r l1 l2,
    freq_scheduler_request (calm 0) two_pages 2 = Returns r1
    /\ r_request r1 = Some l1
    /\ freq_scheduler_request (calm 0) (r_sch r1) 4 = Returns r2
    /\ r_request r2 = Some l2
    /\ freq_scheduler_request (calm 0) two_pages (2 + 4) = Returns r
    /\ r_request r = Some (l1 ++ l2)
    /\ schedule (r_sch r) = schedule (r_sch r2)
    /\ r_code r = freq_scheduler_error_ok
    /\ r_code r2 = freq_scheduler_error_ok.
Proof.
  apply (request_in_two_parts (calm 0) two_pages 2 4).
  - apply calm_works.
  - reflexivity.
  - left. reflexivity.
Defined.

(** ** The first pass over a loaded schedule *)





(** What a request does when no call fails and the error record is clean:
    it commits the table the loop leaves. *)
Lemma request_commits_loop (w : World) (sch : FreqScheduler)
    (max_requests : N) (st : loop_state) :
  works w ->
  code (error sch) = freq_scheduler_error_ok ->
  request_loop (request_fuel sch max_requests) w sch max_requests 0
    {| cur := schedule sch; urls := []; log := [] |} = LoopExit st ->
  freq_scheduler_request w sch max_requests
  = Returns {| r_code := freq_scheduler_error_ok;
               r_sch := with_schedule sch (cur st);
               r_request := Some (urls st); r_log := log st |}.
Proof.
  intros Hw Hok Hl. unfold freq_scheduler_request.
  destruct (cursor_open_cases w sch None)
    as [(sch' & _ & _ & Hx)|[(_ & _ & Hx)|(-> & _)]].
  { destruct Hx. apply Hw. }
  { destruct Hw. destruct Hx as [Hx|[Hx|Hx]]; contradiction. }
  rewrite Hok. simpl negb. cbv iota.
  rewrite (works_request_new w Hw). simpl negb. cbv iota.
  rewrite Hl. unfold freq_scheduler_cursor_commit.
  rewrite (works_commit w Hw). simpl. rewrite Hok. reflexivity.
Qed.



(** ** Rows that cannot be crawled *)

Lemma request_step_empty (w : World) (sch : FreqScheduler) (i : nat)
    (st : loop_state) :
  cursor_get_rc w i = 0 -> cur st = [] ->
  request_step w sch i st = Interrupt st.
Proof.
  intros Hg Hc. unfold request_step. rewrite Hg, Hc. reflexivity.
Qed.

(** The loop on a table none of whose rows can be crawled: every row is
    retired. *)
Lemma request_loop_retires (w : World) (sch : FreqScheduler)
    (max_requests : N) :
  (forall i, turn_ok w i) ->
  F32.leb F32.zero (margin sch) = false ->
  forall t st i fuel,
    cur st = t ->
    (forall h, In h (hashes t) ->
               crawl sch (lookup h (pages (page_db sch))) = false) ->
    (N.of_nat (List.length (urls st)) < max_requests)%N ->
    (List.length t < fuel)%nat ->
    exists st' l,
      request_loop fuel w sch max_requests i st = LoopExit st'
      /\ cur st' = [] /\ urls st' = urls st
      /\ log st' = log st ++ l
      /\ forall h, In h (hashes t) -> retired h l.
Proof.
  intros Hw Hm. induction t as [|[k f] t IH]; intros st i fuel Hc Hcr Hlt Hf;
    (destruct fuel as [|fuel]; [simpl in Hf; lia|]); cbn [request_loop];
    rewrite (proj2 (N.ltb_lt _ _) Hlt).
  - rewrite (request_step_empty w sch i st (proj1 (Hw i)) Hc).
    exists st, []. split; [reflexivity|]. split; [exact Hc|].
    split; [reflexivity|]. split; [rewrite app_nil_r; reflexivity|].
    intros h [].
  - destruct (Hw i) as (Hg & Hi & Hd & _).
    rewrite (request_step_retire w sch i st k f t Hg Hi Hd Hc
               (throttle_disabled w sch i f _ Hm)
               (Hcr (hash k) (or_introl eq_refl))).
    destruct (IH {| cur := t; urls := urls st;
                    log := log st ++ [Retired i k f] |} (S i) fuel eq_refl)
      as (st' & l & Hl' & Hc' & Hu' & Hlog' & Hret).
    + intros h Hh. apply Hcr. right. exact Hh.
    + exact Hlt.
    + simpl in Hf. lia.
    + exists st', (Retired i k f :: l). split; [exact Hl'|].
      split; [exact Hc'|]. split; [exact Hu'|].
      split; [rewrite Hlog'; cbn [log]; rewrite <- app_assoc; reflexivity|].
      intros h [<-|Hh].
      * exists i, k, f. split; [left; reflexivity|reflexivity].
      * destruct (Hret h Hh) as (j & k' & f' & Hj & Hk').
        exists j, k', f'. split; [right; exact Hj|exact Hk'].
Qed.

(** X19.  A request clears away the rows it cannot crawl: when no call
    fails, the error record is clean, the throttle is off and every
    scheduled hash names no page of the page database or a page at or over
    the cap on crawls, a request for at least one URL returns the success
    code and an empty request, and leaves the table empty; the log records
    every hash that was scheduled as retired. *)
Theorem request_clears_rows_it_cannot_crawl (w : World) (sch : FreqScheduler)
    (max_requests : N) :
  works w ->
  code (error sch) = freq_scheduler_error_ok ->
  F32.leb F32.zero (margin sch) = false ->
  (0 < max_requests)%N ->
  (forall h, In h (hashes (schedule sch)) ->
             crawl sch (lookup h (pages (page_db sch))) = false) ->
  exists r,
    freq_scheduler_request w sch max_requests = Returns r
    /\ r_code r = freq_scheduler_error_ok
    /\ r_request r = Some []
    /\ schedule (r_sch r) = []
    /\ forall h, In h (hashes (schedule sch)) -> retired h (r_log r).
Proof.
  intros Hw Hok Hm Hmax Hcr.
  destruct (request_loop_retires w sch max_requests (works_turn w Hw) Hm
              (schedule sch) {| cur := schedule sch; urls := []; log := [] |}
              0 (request_fuel sch max_requests) eq_refl Hcr)
    as (st & l & Hl & Hc & Hu & Hlog & Hret).
  { simpl. lia. }
  { unfold request_fuel. lia. }
  pose proof (request_commits_loop w sch max_requests st Hw Hok Hl) as Hr.
  eexists. split; [exact Hr|]. cbn [r_code r_request r_sch r_log].
  split; [reflexivity|]. split; [rewrite Hu; reflexivity|].
  split; [rewrite Hc; reflexivity|].
  rewrite Hlog. exact Hret.
Qed.

(** Page 1 has reached the cap of 2 crawls: its row is retired. *)
Lemma request_clears_rows_it_cannot_crawl_witness :
  exists r,
    freq_scheduler_request (calm 60)
      (with_page_db (with_schedule capped [(key 0 1, F32.of_Z 1)])
         first_crawled_again) 3 = Returns r
    /\ r_code r = freq_scheduler_error_ok
    /\ r_request r = Some []
    /\ schedule (r_sch r) = []
    /\ forall h, In h [1%N] -> retired h (r_log r).
Proof.
  apply (request_clears_rows_it_cannot_crawl (calm 60)
           (with_page_db (with_schedule capped [(key 0 1, F32.of_Z 1)])
              first_crawled_again) 3).
  - apply calm_works.
  - reflexivity.
  - reflexivity.
  - reflexivity.
  - intros h [<-|[]]. reflexivity.
Defined.
